(** * Search & optimisation service: a shallow embedding and its properties

    The development follows [services/search-service/main.py]: the
    tokenizer, the inverted index, the autocomplete trie, the
    recommendation engine, the relevance score and the request handlers
    that tie them to the process-wide stores.

    Conventions.
    - Python [int] is [Z]; [len(...)] is [Z.of_nat (length ...)].
    - Python [str] is [string]; the model covers ASCII text, the
      only range on which [lower_char] and the character classes below
      agree with [str.lower] and the [re] classes.
    - A [dict] that is only looked up is a [gmap]; a [dict] whose iteration
      order is observable (the score table of [search], a [Counter], the
      children of a trie node) is an association list in insertion order.
    - A [set] is a [gset]; the order in which Python iterates over a set
      is not fixed by the language, so it is a parameter ([SetIter]).
    - Floating point is a parameter ([FloatOps]) wherever the value
      depends on [math.log] and [math.sqrt]; the relevance score, whose
      terms are multiples of one half, is computed in [Q].
    - The depth to which the interpreter lets calls nest is a parameter
      ([CallStack]); it matters to the one recursive method,
      [_collect_words].  *)

From Stdlib Require Import ZArith QArith Qminmax Ascii String List Sorted Permutation Lia.
From stdpp Require Import gmap strings list fin_maps.

Open Scope string_scope.
Open Scope Z_scope.

Set Warnings "-clear-no-such-hyp".

(** ** Text *)

Module Text.

Definition in_range (lo hi : N) (c : ascii) : bool :=
  ((lo <=? N_of_ascii c) && (N_of_ascii c <=? hi))%N.

Definition is_upper : ascii → bool := in_range 65 90.
Definition is_lower : ascii → bool := in_range 97 122.
Definition is_digit : ascii → bool := in_range 48 57.

(** [[a-zA-Z]] and [[a-zA-Z0-9]] of the token pattern. *)
Definition is_letter (c : ascii) : bool := is_upper c || is_lower c.
Definition is_alnum (c : ascii) : bool := is_letter c || is_digit c.

(** [\w]: what [\b] looks at on both of its sides. *)
Definition is_word_char (c : ascii) : bool :=
  is_alnum c || (N_of_ascii c =? 95)%N.

(** [str.isspace] on ASCII: tab to carriage return, the four separators
    0x1c-0x1f, and the blank. *)
Definition is_space (c : ascii) : bool :=
  in_range 9 13 c || in_range 28 31 c || (N_of_ascii c =? 32)%N.

Definition lower_char (c : ascii) : ascii :=
  if is_upper c then ascii_of_N (N_of_ascii c + 32) else c.

(** [s.lower()] *)
Fixpoint lower (s : string) : string :=
  match s with
  | EmptyString => EmptyString
  | String c s' => String (lower_char c) (lower s')
  end.

(** [not s.strip()]: nothing is left once the white space is stripped. *)
Fixpoint blank (s : string) : bool :=
  match s with
  | EmptyString => true
  | String c s' => is_space c && blank s'
  end.

(** [len(s.strip())] *)
Fixpoint lstrip (s : string) : string :=
  match s with
  | EmptyString => EmptyString
  | String c s' => if is_space c then lstrip s' else s
  end.

Fixpoint rev_string (acc s : string) : string :=
  match s with
  | EmptyString => acc
  | String c s' => rev_string (String c acc) s'
  end.

Definition strip (s : string) : string :=
  rev_string "" (lstrip (rev_string "" (lstrip s))).

(** [re.findall(r'\b[a-zA-Z][a-zA-Z0-9]*\b', s)] as the left-to-right scan
    the regex engine performs.  A match can only start where [\b] holds
    and a letter follows, that is at the first character of a maximal run
    of word characters; [[a-zA-Z0-9]*] is greedy, and the closing [\b]
    holds after it only when the run of word characters ends there:
    giving back characters ends the match between two word characters,
    where [\b] fails.  So a run of word characters yields its text when it
    starts with a letter and holds no underscore, and nothing otherwise.

    - [Outside]: the previous character is not a word character (or the
      scan is at the start);
    - [InToken acc]: inside a run that began with a letter and held only
      letters and digits so far ([acc], reversed);
    - [Skip]: inside a run that cannot match any more. *)
Inductive scan_state :=
| Outside
| InToken (acc : string)
| Skip.

Definition emit (st : scan_state) (out : list string) : list string :=
  match st with
  | InToken acc => rev_string "" acc :: out
  | _ => out
  end.

Definition scan_step (st : scan_state) (c : ascii) : scan_state :=
  if is_word_char c then
    match st with
    | Outside => if is_letter c then InToken (String c "") else Skip
    | InToken acc => if is_alnum c then InToken (String c acc) else Skip
    | Skip => Skip
    end
  else Outside.

(** [out] is the reversed list of the tokens found so far. *)
Fixpoint scan (st : scan_state) (out : list string) (s : string) : list string :=
  match s with
  | EmptyString => rev (emit st out)
  | String c s' =>
      scan (scan_step st c)
           (if is_word_char c then out else emit st out) s'
  end.

Definition findall_tokens (s : string) : list string := scan Outside [] s.

(** [InvertedIndex.tokenize]; the guard [if not text] returns the same
    empty list the scan gives on the empty string. *)
Definition tokenize (text : string) : list string :=
  match text with
  | EmptyString => []
  | _ => findall_tokens (lower text)
  end.

End Text.

(** ** Python list operations *)

Section PyList.
Context {A : Type}.

(** [l[:k]]: the first [k] elements, and for a negative [k] all but the
    last [-k]. *)
Definition slice_to (k : Z) (l : list A) : list A :=
  if 0 <=? k then firstn (Z.to_nat k) l
  else firstn (length l - Z.to_nat (- k)) l.

Context {K : Type} (ltb : K → K → bool) (key : A → K).

(** [l.sort(key=key, reverse=True)]: descending, and stable: elements
    whose keys do not compare keep their order.  Python only ever asks
    [a < b] of two keys. *)
Fixpoint insert_desc (x : A) (l : list A) : list A :=
  match l with
  | [] => [x]
  | y :: l' =>
      if ltb (key x) (key y) then y :: insert_desc x l' else x :: y :: l'
  end.

Definition sort_desc (l : list A) : list A := foldr insert_desc [] l.

(** A [dict] in insertion order, with [d[k] = f(d.get(k, dflt))]. *)
Fixpoint upsert {V : Type} `{EqDecision A} (k : A) (dflt : V) (f : V → V)
    (d : list (A * V)) : list (A * V) :=
  match d with
  | [] => [(k, f dflt)]
  | (k', v) :: d' =>
      if decide (k = k') then (k', f v) :: d' else (k', v) :: upsert k dflt f d'
  end.
End PyList.

(** ** Interfaces for what the language leaves open *)

(** Iteration over a [set]: some enumeration of its elements. *)
Class SetIter := {
  set_order : gset string → list string;
  set_order_perm : ∀ X, set_order X ≡ₚ elements X
}.

(** The float operations [InvertedIndex.search] uses. *)
Class FloatOps := {
  float : Type;
  f_zero : float;                 (* 0.0 *)
  f_of_int : Z → float;           (* float(n) *)
  f_truediv : Z → Z → float;      (* n / m on ints *)
  f_log : float → float;          (* math.log *)
  f_sqrt : float → float;         (* math.sqrt *)
  f_div : float → float → float;
  f_mul : float → float → float;
  f_add : float → float → float;
  f_ltb : float → float → bool
}.

(** The interpreter raises [RecursionError] at a call when the calls
    already nest to [sys.getrecursionlimit()].  [frames_left] is the
    number of calls of [_collect_words] that can nest below
    [search_prefix]; it depends on the limit and on the server that
    calls the handler, and is below the limit (1000 unless changed). *)
Class CallStack := {
  frames_left : nat
}.

(** The exceptions the code can raise: [ValueError] and
    [ZeroDivisionError] in the arithmetic of [search], [OverflowError] in
    [price_cents / 100], [RecursionError] in [_collect_words]. *)
Inductive exn := ValueError | ZeroDivisionError | OverflowError | RecursionError.

Inductive outcome (A : Type) :=
| Returns (a : A)
| Raises (e : exn).
Arguments Returns {A} a.
Arguments Raises {A} e.

#[export] Instance outcome_ret : MRet outcome := λ A a, Returns a.
#[export] Instance outcome_bind : MBind outcome := λ A B f m,
  match m with
  | Returns a => f a
  | Raises e => Raises e
  end.

(** A loop whose body may raise. *)
Fixpoint for_each {A B} (body : B → A → outcome B) (acc : B) (l : list A)
    : outcome B :=
  match l with
  | [] => Returns acc
  | x :: l' => acc' ← body acc x; for_each body acc' l'
  end.

(** [pybloom_live.BloomFilter] is a third-party package; the service
    relies on its contract only: a new filter holds nothing, [add] either
    raises (the filter is at capacity) and leaves the filter as it was, or
    sets the bits of the key, and bits are never cleared, so a key that
    was added is reported from then on.  A key that was never added may be
    reported too. *)
Class ExistenceFilter := {
  bloom : Type;
  bloom_new : bloom;
  bloom_add : string → bloom → option bloom;
  bloom_contains : string → bloom → bool;
  bloom_new_contains : ∀ x, bloom_contains x bloom_new = false;
  bloom_add_contains : ∀ x b b',
    bloom_add x b = Some b' → bloom_contains x b' = true;
  bloom_add_mono : ∀ x y b b',
    bloom_add x b = Some b' → bloom_contains y b = true →
    bloom_contains y b' = true
}.

(** ** The product record ([Product], and the dict stored for it) *)

Record Product := {
  product_id : string;
  title : string;
  description : string;
  categories : list string;
  price_cents : Z;
  currency : string;
  images : list string;
  stock : Z;
  metadata : list (string * string)
}.

(** ** InvertedIndex *)

Module InvertedIndex.
Import Text.

Record t := mk {
  index : gmap string (gset string);
  doc_freq : gmap string Z;
  total_docs : Z;
  doc_lengths : gmap string Z
}.

(** [__init__] *)
Definition init : t := mk ∅ ∅ 0 ∅.

Definition category_token (cat : string) : string := "category:" +:+ lower cat.

(** [tokens] of [add_document]: the tokens of the text, then one
    synthetic token per category ([None] and [[]] both add none). *)
Definition document_tokens (text : string) (categories : list string)
    : list string :=
  tokenize text ++ map category_token categories.

(** The loop of [remove_document] visits each [(token, doc_set)] entry
    once, and its body and the clean-up after it touch the two entries
    of that token only; [removed_posting] and [removed_freq] give the
    effect on each. *)
Definition removed_posting (doc_id : string) (doc_set : gset string)
    : option (gset string) :=
  if decide (doc_id ∈ doc_set) then
    if decide (doc_set ∖ {[doc_id]} = ∅) then None
    else Some (doc_set ∖ {[doc_id]})
  else Some doc_set.

Definition removed_freq (doc_id : string) (entry : option (gset string))
    (df : option Z) : option Z :=
  match entry with
  | Some doc_set =>
      if decide (doc_id ∈ doc_set) then
        if decide (doc_set ∖ {[doc_id]} = ∅) then None
        else Some (default 0 df - 1)
      else df
  | None => df
  end.

Definition remove_document (doc_id : string) (S : t) : t :=
  if decide (doc_id ∈ dom (doc_lengths S)) then
    let doc_lengths' := delete doc_id (doc_lengths S) in
    mk (omap (removed_posting doc_id) (index S))
       (merge (removed_freq doc_id) (index S) (doc_freq S))
       (Z.of_nat (size doc_lengths'))
       doc_lengths'
  else S.

(** Body of [for token in unique_tokens].  [self.index[token]] creates an
    empty entry for a new token, which then receives [doc_id]. *)
Definition post (doc_id : string) (S : t) (token : string) : t :=
  let doc_set := default ∅ (index S !! token) in
  if decide (doc_id ∈ doc_set) then S
  else mk (<[token := doc_set ∪ {[doc_id]}]> (index S))
          (<[token := default 0 (doc_freq S !! token) + 1]> (doc_freq S))
          (total_docs S)
          (doc_lengths S).

Definition add_document `{SetIter} (doc_id text : string)
    (categories : list string) (S : t) : t :=
  let tokens := document_tokens text categories in
  let S1 := if decide (doc_id ∈ dom (doc_lengths S))
            then remove_document doc_id S else S in
  let unique_tokens : gset string := list_to_set tokens in
  let S2 := mk (index S1) (doc_freq S1) (total_docs S1)
               (<[doc_id := Z.of_nat (length tokens)]> (doc_lengths S1)) in
  let S3 := foldl (post doc_id) S2 (set_order unique_tokens) in
  mk (index S3) (doc_freq S3) (Z.of_nat (size (doc_lengths S3)))
     (doc_lengths S3).

(** [math.log(self.total_docs / df) if df > 0 else 0]; [math.log] raises
    on a quotient that is not positive. *)
Definition idf_of `{FloatOps} (S : t) (token : string) : outcome float :=
  let df := default 0 (doc_freq S !! token) in
  if 0 <? df then
    if total_docs S <=? 0 then Raises ValueError
    else Returns (f_log (f_truediv (total_docs S) df))
  else Returns (f_of_int 0).

(** [1.0 / math.sqrt(self.doc_lengths.get(doc_id, 1))] *)
Definition tf_of `{FloatOps} (S : t) (doc_id : string) : outcome float :=
  let n := default 1 (doc_lengths S !! doc_id) in
  if n <? 0 then Raises ValueError
  else if n =? 0 then Raises ZeroDivisionError
  else Returns (f_div (f_of_int 1) (f_sqrt (f_of_int n))).

(** Body of [for token in tokens]; [doc_scores] is the [defaultdict(float)]
    in insertion order. *)
Definition score_token `{FloatOps} `{SetIter} (S : t)
    (doc_scores : list (string * float)) (token : string)
    : outcome (list (string * float)) :=
  match index S !! token with
  | None => Returns doc_scores
  | Some doc_set =>
      idf ← idf_of S token;
      for_each (λ acc doc_id,
                  tf ← tf_of S doc_id;
                  Returns (upsert doc_id f_zero (λ v, f_add v (f_mul tf idf)) acc))
               doc_scores (set_order doc_set)
  end.

Definition search `{FloatOps} `{SetIter} (S : t) (query : string) (limit : Z)
    : outcome (list (string * float)) :=
  if blank query then Returns []
  else
    match tokenize query with
    | [] => Returns []
    | tokens =>
        doc_scores ← for_each (score_token S) [] tokens;
        Returns (slice_to limit (sort_desc f_ltb snd doc_scores))
    end.

(** Histories of an index.  [tracks S D]: [S] is the index after some
    sequence of [add_document] and [remove_document] calls on a new
    index, and [D] gives the token list of every document it holds. *)
Inductive tracks `{SetIter} : t → gmap string (list string) → Prop :=
| tracks_init : tracks init ∅
| tracks_add S D doc_id text categories :
    tracks S D →
    tracks (add_document doc_id text categories S)
           (<[doc_id := document_tokens text categories]> D)
| tracks_remove S D doc_id :
    tracks S D →
    tracks (remove_document doc_id S) (delete doc_id D).

Definition reachable `{SetIter} (S : t) : Prop := ∃ D, tracks S D.

(** What every history keeps true. *)
Record inv (S : t) (D : gmap string (list string)) : Prop := {
  inv_postings : ∀ token doc_id,
    (∃ doc_set, index S !! token = Some doc_set ∧ doc_id ∈ doc_set)
    ↔ (∃ tokens, D !! doc_id = Some tokens ∧ token ∈ tokens);
  inv_nonempty : ∀ token doc_set,
    index S !! token = Some doc_set → doc_set ≠ ∅;
  inv_freq : ∀ token,
    doc_freq S !! token = (λ doc_set, Z.of_nat (size doc_set)) <$> index S !! token;
  inv_lengths :
    doc_lengths S = (λ tokens, Z.of_nat (length tokens)) <$> D;
  inv_total : total_docs S = Z.of_nat (size (doc_lengths S))
}.

End InvertedIndex.

(** ** AutocompleteTrie *)

Module AutocompleteTrie.
Import Text.

(** [TrieNode]; [children] is the dict of the node in insertion order. *)
#[local] Unset Elimination Schemes.
Inductive TrieNode :=
| Node (children : list (ascii * TrieNode)) (is_word : bool) (frequency : Z).
#[local] Set Elimination Schemes.

Definition children (n : TrieNode) : list (ascii * TrieNode) :=
  match n with Node cs _ _ => cs end.
Definition is_word (n : TrieNode) : bool :=
  match n with Node _ w _ => w end.
Definition frequency (n : TrieNode) : Z :=
  match n with Node _ _ f => f end.

(** [TrieNode()], and the root of a new trie. *)
Definition empty_node : TrieNode := Node [] false 0.

(** The descent of [insert] from [node] along [word], rebuilt on the way
    back: a missing child is created at the end of [children]. *)
Fixpoint insert_at (word : string) (freq : Z) (node : TrieNode) : TrieNode :=
  match word with
  | EmptyString => Node (children node) true (frequency node + freq)
  | String char word' =>
      Node (upsert char empty_node (insert_at word' freq) (children node))
           (is_word node) (frequency node)
  end.

Definition insert (word : string) (freq : Z) (root : TrieNode) : TrieNode :=
  insert_at (lower word) freq root.

(** [node.children[char]], when [char in node.children]. *)
Fixpoint child (char : ascii) (cs : list (ascii * TrieNode)) : option TrieNode :=
  match cs with
  | [] => None
  | (c, n) :: cs' => if decide (char = c) then Some n else child char cs'
  end.

(** "Navigate to prefix" *)
Fixpoint descend (prefix : string) (node : TrieNode) : option TrieNode :=
  match prefix with
  | EmptyString => Some node
  | String char prefix' =>
      match child char (children node) with
      | None => None
      | Some node' => descend prefix' node'
      end
  end.

(** [_collect_words], which appends to [suggestions].  The method calls
    itself for every child, so the calls nest as deep as the trie below
    [node]; [depth] is the number of calls that can still nest, this one
    included, and with none left the call raises. *)
Fixpoint collect_words (depth : nat) (node : TrieNode) (prefix : string)
    (suggestions : list (string * Z)) : outcome (list (string * Z)) :=
  match depth with
  | O => Raises RecursionError
  | S depth' =>
      let suggestions :=
        if is_word node then (suggestions ++ [(prefix, frequency node)])%list
        else suggestions in
      for_each (λ suggestions '(char, child),
                  collect_words depth' child (prefix +:+ String char "")
                                suggestions)
               suggestions (children node)
  end.

(** [search_prefix]; an exception of [_collect_words] leaves through
    it. *)
Definition search_prefix `{CallStack} (root : TrieNode) (prefix : string)
    (limit : Z) : outcome (list string) :=
  match prefix with
  | EmptyString => Returns []
  | _ =>
      let prefix := lower prefix in
      match descend prefix root with
      | None => Returns []
      | Some node =>
          suggestions ← collect_words frames_left node prefix [];
          Returns (map fst (slice_to limit (sort_desc Z.ltb snd suggestions)))
      end
  end.

(** The pairs a traversal of the subtree of [node] meets, in its order:
    the node's own word first, then the words below each child, the
    children in the order of the dict. *)
Fixpoint words_below (node : TrieNode) (prefix : string) : list (string * Z) :=
  match node with
  | Node cs w f =>
      ((if w then [(prefix, f)] else [])
       ++ flat_map (λ '(char, n), words_below n (prefix +:+ String char "")) cs)%list
  end.

(** The number of levels of the subtree of [node], which is the depth
    to which the calls of a traversal nest. *)
Fixpoint height (node : TrieNode) : nat :=
  match node with
  | Node cs _ _ => S (fold_right (λ cn h, Nat.max (height (snd cn)) h) O cs)
  end.

(** The depth of the traversal [search_prefix] starts for [prefix]; none
    is started when no word of the trie has the prefix. *)
Definition frames_needed (root : TrieNode) (prefix : string) : nat :=
  match descend prefix root with
  | Some node => height node
  | None => O
  end.

(** The words of the subtree a prefix leads to, most frequent first, cut
    to [limit]. *)
Definition ranked_below (root : TrieNode) (prefix : string) (limit : Z)
    : list string :=
  match descend prefix root with
  | None => []
  | Some node =>
      map fst (slice_to limit (sort_desc Z.ltb snd (words_below node prefix)))
  end.

(** A dict has one entry per key, at every node. *)
Fixpoint wf (node : TrieNode) : Prop :=
  match node with
  | Node cs _ _ =>
      NoDup cs.*1 ∧ fold_right (λ cn rest, wf (snd cn) ∧ rest) True cs
  end.

(** What [insert] keeps true below the root: a node is a word or has a
    child, so every branch ends in a word. *)
Fixpoint pruned (node : TrieNode) : Prop :=
  match node with
  | Node cs _ _ =>
      fold_right (λ cn rest,
                    ((is_word (snd cn) = true ∨ children (snd cn) ≠ [])
                     ∧ pruned (snd cn)) ∧ rest)
                 True cs
  end.

(** The words of the trie that start with [prefix], with their
    frequencies, in the order a traversal from the root meets them. *)
Definition words_with_prefix (root : TrieNode) (prefix : string)
    : list (string * Z) :=
  filter (λ e, String.prefix prefix (fst e) = true) (words_below root "").

(** Tries built by [insert] from the empty trie. *)
Inductive reachable : TrieNode → Prop :=
| reachable_empty : reachable empty_node
| reachable_insert word freq root :
    reachable root → reachable (insert word freq root).

End AutocompleteTrie.

(** ** RecommendationEngine *)

Module RecommendationEngine.
Import Text.

(** [view_matrix] maps a product to its [Counter], kept in insertion
    order, which is the order [most_common] falls back on. *)
Record t := mk {
  view_matrix : gmap string (list (string * Z));
  category_matrix : gmap string (gset string);
  price_ranges : gmap string (list string)
}.

Definition init : t := mk ∅ ∅ ∅.

(** Body of the loop of [record_view]. *)
Definition view (product_id : string) (E : t) (other_id : string) : t :=
  if decide (other_id ≠ product_id) then
    let counter := default [] (view_matrix E !! product_id) in
    mk (<[product_id := upsert other_id 0 (λ c, c + 1) counter]> (view_matrix E))
       (category_matrix E) (price_ranges E)
  else E.

Definition record_view (product_id : string) (session_products : list string)
    (E : t) : t :=
  foldl (view product_id) E session_products.

(** [price_cents / 100] is the double nearest to the quotient, and
    [OverflowError] when that is past the largest double: the quotient
    is then at least [2^1024 - 2^970], half a step past it, in absolute
    value. *)
Definition largest_dollars : Z := 2 ^ 1024 - 2 ^ 970.

Definition dollars_overflow (price_cents : Z) : bool :=
  100 * largest_dollars <=? Z.abs price_cents.

(** The price range.  Rounding to the nearest double keeps the order and
    the bounds are doubles, so [price_cents / 100 < b] is
    [price_cents < 100 * b]. *)
Definition price_range (price_cents : Z) : outcome string :=
  if dollars_overflow price_cents then Raises OverflowError
  else Returns
    (if price_cents <? 5000 then "0-50"
     else if price_cents <? 10000 then "50-100"
     else if price_cents <? 20000 then "100-200"
     else if price_cents <? 50000 then "200-500"
     else "500+").

(** [add_product_metadata]: how the call ends, and the engine as it
    leaves it.  The category sets are written before the price is
    divided, so they keep the product when the division raises. *)
Definition add_product_metadata (product_id : string) (categories : list string)
    (price_cents : Z) (E : t) : outcome () * t :=
  let cm := foldl (λ cm category,
                     <[lower category :=
                         default ∅ (cm !! lower category) ∪ {[product_id]}]> cm)
                  (category_matrix E) categories in
  match price_range price_cents with
  | Raises e => (Raises e, mk (view_matrix E) cm (price_ranges E))
  | Returns r =>
      (Returns (),
       mk (view_matrix E) cm
          (<[r := (default [] (price_ranges E !! r) ++ [product_id])%list]>
             (price_ranges E)))
  end.

(** [Counter.most_common(n)] is [heapq.nlargest(n, items, key=count)]:
    the [n] first of the items sorted by descending count, stable, and
    nothing for [n <= 0]. *)
Definition most_common (n : Z) (counter : list (string * Z)) : list (string * Z) :=
  firstn (Z.to_nat n) (sort_desc Z.ltb snd counter).

(** The fallback loop of [get_recommendations] with its [break]. *)
Fixpoint fill `{SetIter} (E : t) (product_id : string) (limit : Z)
    (cats : list string) (recommendations : list string) (reason : string)
    : list string * string :=
  match cats with
  | [] => (recommendations, reason)
  | category :: cats' =>
      let similar_products :=
        filter (λ pid, pid ≠ product_id)
               (set_order (default ∅ (category_matrix E !! lower category))) in
      let recommendations := (recommendations ++ similar_products)%list in
      if limit <=? Z.of_nat (length recommendations) then
        (slice_to limit recommendations, "similar products in " +:+ category)
      else fill E product_id limit cats' recommendations reason
  end.

(** [products_store] is the module-level store the method reads. *)
Definition get_recommendations `{SetIter} (E : t)
    (products_store : gmap string Product) (product_id : string) (limit : Z)
    : list string * string :=
  let '(recommendations, reason) :=
    match view_matrix E !! product_id with
    | Some counter =>
        match most_common limit counter with
        | [] => ([], "")
        | coviewed => (map fst coviewed, "frequently viewed together")
        end
    | None => ([], "")
    end in
  if Z.of_nat (length recommendations) <? limit then
    match products_store !! product_id with
    | Some product =>
        fill E product_id limit (categories product) recommendations reason
    | None => (recommendations, reason)
    end
  else (recommendations, reason).

(** The co-view part of the recommendations. *)
Definition coviewed (E : t) (product_id : string) (limit : Z) : list string :=
  match view_matrix E !! product_id with
  | Some counter => map fst (most_common limit counter)
  | None => []
  end.

(** What [record_view] keeps true of every counter: it has an entry, one
    per partner, and none for its own product. *)
Definition counters_ok (E : t) : Prop :=
  ∀ product_id counter,
    view_matrix E !! product_id = Some counter →
    counter ≠ [] ∧ NoDup counter.*1 ∧ product_id ∉ counter.*1.

(** Engines built by the two mutating methods from a new engine. *)
Inductive reachable : t → Prop :=
| reachable_init : reachable init
| reachable_view E product_id session_products :
    reachable E → reachable (record_view product_id session_products E)
| reachable_metadata E product_id categories price_cents :
    reachable E →
    reachable (snd (add_product_metadata product_id categories price_cents E)).

End RecommendationEngine.

(** ** The service: module-level state and request handlers *)

Module SearchResult.
Record t := mk {
  product_id : string;
  title : string;
  score : Q;
  price_cents : Z;
  currency : string;
  stock : Z
}.
End SearchResult.

Module Service.
Import Text.

(** [a < b] on scores. *)
Definition Qltb (a b : Q) : bool := negb (Qle_bool b a).

(** [len(set(query_tokens) & set(field_tokens))] *)
Definition matches (query_tokens field_tokens : list string) : Z :=
  Z.of_nat (size ((list_to_set query_tokens : gset string)
                    ∩ list_to_set field_tokens)).

(** The score is a float in the source; every term is a multiple of one
    half, so the float sum is exact and [Q] computes the same value. *)
Definition calculate_relevance_score (product : Product)
    (query_tokens : list string) : Q :=
  let score := 0%Q in
  let title_tokens := tokenize (title product) in
  let desc_tokens := tokenize (description product) in
  let title_matches := matches query_tokens title_tokens in
  let score := (score + inject_Z title_matches * 3)%Q in
  let desc_matches := matches query_tokens desc_tokens in
  let score := (score + inject_Z desc_matches * 1)%Q in
  let categories := map lower (categories product) in
  let category_matches := matches query_tokens categories in
  let score := (score + inject_Z category_matches * 2)%Q in
  if 0 <? stock product then (score + (1 # 2))%Q else score.

(** What a handler gives back: a body, or [HTTPException(status_code)]
    (the detail text is not modelled). *)
Inductive response (A : Type) :=
| Ok (body : A)
| HTTPException (status_code : Z).
Arguments Ok {A} body.
Arguments HTTPException {A} status_code.

Record SearchResponse := {
  results : list SearchResult.t;
  total : Z;
  query : string;
  filters : option (option string * option Z * option Z)
}.

Record RecommendationResult := {
  product_ids : list string;
  reason : string
}.

Section Handlers.
Context `{FloatOps} `{SetIter} `{ExistenceFilter} `{CallStack}.

(** The module-level objects. *)
Record state := {
  inverted_index : InvertedIndex.t;
  autocomplete_trie : AutocompleteTrie.TrieNode;
  bloom_filter : bloom;
  recommendation_engine : RecommendationEngine.t;
  products_store : gmap string Product;
  search_analytics : gmap string Z
}.

Definition init : state :=
  {| inverted_index := InvertedIndex.init;
     autocomplete_trie := AutocompleteTrie.empty_node;
     bloom_filter := bloom_new;
     recommendation_engine := RecommendationEngine.init;
     products_store := ∅;
     search_analytics := ∅ |}.

(** [index_product].  Every exception of the body is answered with 500,
    and what was written before it stays: the store when
    [bloom_filter.add] raises; the store, the filter, the index, the trie
    and the category sets when [add_product_metadata] raises at the end. *)
Definition index_product (product : Product) (st : state)
    : response string * state :=
  let pid := product_id product in
  let store := <[pid := product]> (products_store st) in
  match bloom_add pid (bloom_filter st) with
  | None =>
      (HTTPException 500,
       {| inverted_index := inverted_index st;
          autocomplete_trie := autocomplete_trie st;
          bloom_filter := bloom_filter st;
          recommendation_engine := recommendation_engine st;
          products_store := store;
          search_analytics := search_analytics st |})
  | Some filter =>
      let search_text := title product +:+ " " +:+ description product in
      let trie :=
        foldl (λ tr token,
                 if 2 <? Z.of_nat (String.length token)
                 then AutocompleteTrie.insert token 1 tr else tr)
              (autocomplete_trie st) (tokenize (title product)) in
      let trie :=
        foldl (λ tr category, AutocompleteTrie.insert category 1 tr)
              trie (categories product) in
      let metadata :=
        RecommendationEngine.add_product_metadata
          pid (categories product) (price_cents product)
          (recommendation_engine st) in
      (match fst metadata with
       | Returns _ => Ok pid
       | Raises _ => HTTPException 500
       end,
       {| inverted_index :=
            InvertedIndex.add_document pid search_text (categories product)
                                       (inverted_index st);
          autocomplete_trie := trie;
          bloom_filter := filter;
          recommendation_engine := snd metadata;
          products_store := store;
          search_analytics := search_analytics st |})
  end.

(** The three filters of [search_products]; [None], [0] and the empty
    string are all falsy and switch a filter off. *)
Definition category_rejects (category : option string) (product : Product) : bool :=
  match category with
  | None | Some EmptyString => false
  | Some c => negb (bool_decide (lower c ∈ map lower (categories product)))
  end.

Definition min_price_rejects (min_price : option Z) (product : Product) : bool :=
  match min_price with
  | None | Some 0 => false
  | Some m => price_cents product <? m
  end.

Definition max_price_rejects (max_price : option Z) (product : Product) : bool :=
  match max_price with
  | None | Some 0 => false
  | Some m => m <? price_cents product
  end.

Definition to_result (product : Product) (relevance_score : Q) : SearchResult.t :=
  SearchResult.mk (product_id product) (title product) relevance_score
                  (price_cents product) (currency product) (stock product).

(** The loop over [search_results], with its [continue]s and [break]. *)
Fixpoint gather (store : gmap string Product) (q : string) (limit : Z)
    (category : option string) (min_price max_price : option Z)
    (search_results : list (string * float)) (results : list SearchResult.t)
    : list SearchResult.t :=
  match search_results with
  | [] => results
  | (pid, _) :: rest =>
      let continue :=
        gather store q limit category min_price max_price rest results in
      match store !! pid with
      | None => continue
      | Some product =>
          if category_rejects category product then continue
          else if min_price_rejects min_price product then continue
          else if max_price_rejects max_price product then continue
          else
            let query_tokens := tokenize q in
            let relevance_score :=
              calculate_relevance_score product query_tokens in
            let results := (results ++ [to_result product relevance_score])%list in
            if limit <=? Z.of_nat (length results) then results
            else gather store q limit category min_price max_price rest results
      end
  end.

Definition search_products (q : string) (limit : Z) (category : option string)
    (min_price max_price : option Z) (st : state)
    : response SearchResponse * state :=
  if blank q then
    (Ok {| results := []; total := 0; query := q; filters := None |}, st)
  else
    let analytics :=
      <[lower q := default 0 (search_analytics st !! lower q) + 1]>
        (search_analytics st) in
    let st' :=
      {| inverted_index := inverted_index st;
         autocomplete_trie := autocomplete_trie st;
         bloom_filter := bloom_filter st;
         recommendation_engine := recommendation_engine st;
         products_store := products_store st;
         search_analytics := analytics |} in
    match InvertedIndex.search (inverted_index st) q (limit * 2) with
    | Raises _ => (HTTPException 500, st')
    | Returns search_results =>
        let results :=
          gather (products_store st) q limit category min_price max_price
                 search_results [] in
        let results := sort_desc Qltb SearchResult.score results in
        (Ok {| results := results;
               total := Z.of_nat (length results);
               query := q;
               filters := Some (category, min_price, max_price) |},
         st')
    end.

(** [autocomplete]; the state is only read. *)
Definition autocomplete (q : string) (limit : Z) (st : state)
    : response (list string) :=
  if Z.of_nat (String.length (strip q)) <? 2 then Ok []
  else
    match AutocompleteTrie.search_prefix (autocomplete_trie st) q limit with
    | Returns suggestions => Ok suggestions
    | Raises _ => HTTPException 500
    end.

(** The recommendations handler: [HTTPException] passes through the
    [except] clauses unchanged, and nothing else in the body raises. *)
Definition get_recommendations (product_id : string) (limit : Z) (st : state)
    : response RecommendationResult :=
  if negb (bloom_contains product_id (bloom_filter st)) then HTTPException 404
  else
    let '(recommendations, reason) :=
      RecommendationEngine.get_recommendations
        (recommendation_engine st) (products_store st) product_id limit in
    Ok {| product_ids := recommendations; reason := reason |}.

(** [record_product_view]: a missing or empty [product_id] and an empty
    [session_products] record nothing. *)
Definition record_product_view (product_id : option string)
    (session_products : list string) (st : state) : state :=
  match product_id, session_products with
  | Some pid, _ :: _ =>
      if decide (pid = "") then st
      else
        {| inverted_index := inverted_index st;
           autocomplete_trie := autocomplete_trie st;
           bloom_filter := bloom_filter st;
           recommendation_engine :=
             RecommendationEngine.record_view pid session_products
                                              (recommendation_engine st);
           products_store := products_store st;
           search_analytics := search_analytics st |}
  | _, _ => st
  end.

(** [clear_all_data] *)
Definition clear_all_data (st : state) : state := init.

(** The requests that change the state, and the states the service can
    be in. *)
Inductive request :=
| IndexProduct (product : Product)
| SearchProducts (q : string) (limit : Z) (category : option string)
    (min_price max_price : option Z)
| RecordProductView (product_id : option string) (session_products : list string)
| ClearAllData.

Definition handle (st : state) (r : request) : state :=
  match r with
  | IndexProduct product => snd (index_product product st)
  | SearchProducts q limit category min_price max_price =>
      snd (search_products q limit category min_price max_price st)
  | RecordProductView product_id session_products =>
      record_product_view product_id session_products st
  | ClearAllData => clear_all_data st
  end.

Definition run (rs : list request) : state := foldl handle init rs.

Inductive reachable : state → Prop :=
| reachable_init : reachable init
| reachable_handle st r : reachable st → reachable (handle st r).

(** [indexed st pid]: an [index_product] request for [pid] was answered
    with success, and no [clear_all_data] came after it. *)
Inductive indexed : state → string → Prop :=
| indexed_now product st :
    fst (index_product product st) = Ok (product_id product) →
    indexed (snd (index_product product st)) (product_id product)
| indexed_later st r pid :
    indexed st pid → r ≠ ClearAllData → indexed (handle st r) pid.

(** What the loop of [search_products] makes of the candidates of the
    index: the stored products that pass the filters, in the order of the
    candidates, ... *)
Definition passes (category : option string) (min_price max_price : option Z)
    (product : Product) : bool :=
  negb (category_rejects category product)
  && negb (min_price_rejects min_price product)
  && negb (max_price_rejects max_price product).

Definition accepted (store : gmap string Product) (category : option string)
    (min_price max_price : option Z) (search_results : list (string * float))
    : list Product :=
  List.filter (passes category min_price max_price)
              (omap (λ hit, store !! fst hit) search_results).

(** ... as many of them as the [break] lets through: [limit], and one for
    a [limit] below 1, since the length is compared after the append. *)
Definition kept (limit : Z) (products : list Product) : list Product :=
  firstn (Z.to_nat (Z.max 1 limit)) products.

Definition scored (q : string) (product : Product) : SearchResult.t :=
  to_result product (calculate_relevance_score product (tokenize q)).

(** Two answers of [search_products] that differ at most in the echoed
    filters: the same state afterwards, and the same results, total and
    query, or the same error. *)
Definition same_search (a b : response SearchResponse * state) : Prop :=
  snd a = snd b
  ∧ match fst a, fst b with
    | Ok x, Ok y =>
        results x = results y ∧ total x = total y ∧ query x = query y
    | HTTPException c, HTTPException d => c = d
    | _, _ => False
    end.

End Handlers.
End Service.

(** ** The relevance score in the words of the specification *)

(** "distinct query tokens appearing in" a list of field tokens. *)
Definition distinct_hits (query_tokens field_tokens : list string) : Z :=
  Z.of_nat (length (filter (λ token, token ∈ field_tokens)
                           (remove_dups query_tokens))).

(** +3 per title hit, +1 per description hit, +2 per category hit
    (lower-cased labels), +0.5 when in stock. *)
Definition weighted_overlap (product : Product) (query_tokens : list string) : Q :=
  (3 * inject_Z (distinct_hits query_tokens (Text.tokenize (title product)))
   + 1 * inject_Z (distinct_hits query_tokens (Text.tokenize (description product)))
   + 2 * inject_Z (distinct_hits query_tokens (map Text.lower (categories product)))
   + (if 0 <? stock product then 1 # 2 else 0))%Q.

(** ** Instances to run the model on *)

(** Sets enumerated in the order of [elements]. *)
#[export] Instance elements_order : SetIter :=
  {| set_order := elements; set_order_perm := λ X, reflexivity _ |}.

(** A server that calls the handlers some way below the default limit of
    1000 nested calls, and an interpreter set to a very low limit. *)
#[export] Instance server_stack : CallStack := {| frames_left := 900 |}.

Definition shallow_stack : CallStack := {| frames_left := 3 |}.

(** A small filter with the shape of the real one: two hash slices of
    64 bits each, a count of the keys that set a new bit, and a capacity
    beyond which [add] raises. *)
Module SmallBloom.

Record t := mk { bits : gset N; count : Z }.

Definition capacity : Z := 100000.

Fixpoint code_sum (s : string) : N :=
  match s with
  | EmptyString => 0
  | String c s' => N_of_ascii c + code_sum s'
  end.

Definition hashes (key : string) : list N :=
  [ (code_sum key mod 64)%N;
    (64 + (31 * N.of_nat (String.length key) + code_sum key) mod 64)%N ].

Definition contains (key : string) (b : t) : bool :=
  forallb (λ h, bool_decide (h ∈ bits b)) (hashes key).

Definition add (key : string) (b : t) : option t :=
  if capacity <? count b then None
  else Some (mk (bits b ∪ list_to_set (hashes key))
                (if contains key b then count b else count b + 1)).

Definition new : t := mk ∅ 0.

End SmallBloom.

(** Rationals in place of floats: exact sums, products and quotients, a
    few Newton steps for the square root, and the first term of the
    area-tangent series for the logarithm.  Only good for running
    examples: the order of close scores can differ from the float one. *)
Module Rational.

Definition log (x : Q) : Q := Qred (2 * (x - 1) / (x + 1))%Q.

Definition newton (x y : Q) : Q := Qred ((y + x / y) / 2)%Q.

Definition sqrt (x : Q) : Q := newton x (newton x (newton x ((1 + x) / 2)%Q)).

End Rational.

#[export] Instance rational_floats : FloatOps :=
  {| float := Q;
     f_zero := 0%Q;
     f_of_int := inject_Z;
     f_truediv := λ n m, (inject_Z n / inject_Z m)%Q;
     f_log := Rational.log;
     f_sqrt := Rational.sqrt;
     f_div := Qdiv;
     f_mul := Qmult;
     f_add := Qplus;
     f_ltb := Service.Qltb |}.

(** ** Sample data *)

Module Sample.

(** Two documents that share a token and a category. *)
Definition shoes_index : InvertedIndex.t :=
  InvertedIndex.add_document "P2" "Blue Hiking Boots" ["Shoes"]
    (InvertedIndex.add_document "P1" "Red Running Shoes" ["Shoes"]
       InvertedIndex.init).

Definition shoes_docs : gmap string (list string) :=
  <["P2" := InvertedIndex.document_tokens "Blue Hiking Boots" ["Shoes"]]>
    (<["P1" := InvertedIndex.document_tokens "Red Running Shoes" ["Shoes"]]> ∅).

(** Two documents with the same text. *)
Definition twin_index : InvertedIndex.t :=
  InvertedIndex.add_document "b" "x" []
    (InvertedIndex.add_document "a" "x" [] InvertedIndex.init).

End Sample.

Module TrieSample.
Import AutocompleteTrie.

(** "camera" inserted ten times, then "camisole" once. *)
Definition camera_trie : TrieNode :=
  insert "camisole" 1 (Nat.iter 10 (insert "camera" 1) empty_node).

(** "cb" inserted before "ca", once each. *)
Definition tie_trie : TrieNode :=
  insert "ca" 1 (insert "cb" 1 empty_node).

(** A word of [n] letters. *)
Fixpoint long_word (n : nat) : string :=
  match n with
  | O => ""
  | S n' => String "a"%char (long_word n')
  end.

End TrieSample.

#[export, refine] Instance small_bloom : ExistenceFilter :=
  {| bloom := SmallBloom.t;
     bloom_new := SmallBloom.new;
     bloom_add := SmallBloom.add;
     bloom_contains := SmallBloom.contains |}.
Proof.
  - intros x. reflexivity.
  - intros x b b'. unfold SmallBloom.add, SmallBloom.contains.
    destruct (SmallBloom.capacity <? SmallBloom.count b); [done|].
    intros [= <-]. simpl.
    rewrite !bool_decide_eq_true_2; [done | set_solver..].
  - intros x y b b'. unfold SmallBloom.add, SmallBloom.contains.
    destruct (SmallBloom.capacity <? SmallBloom.count b); [done|].
    intros [= <-]. simpl.
    rewrite !andb_true_r, !andb_true_iff, !bool_decide_eq_true. set_solver.
Defined.

Module Catalog.

Definition book (pid ttl : string) (cats : list string) : Product :=
  {| product_id := pid; title := ttl; description := "";
     categories := cats; price_cents := 1299; currency := "USD";
     images := []; stock := 4; metadata := [] |}.

(** Products A and B share the category "Books". *)
Definition book_a : Product := book "A" "Dune" ["Books"].
Definition book_b : Product := book "B" "Emma" ["Books"].

(** Products A and B share two categories. *)
Definition novel_a : Product := book "A" "Dune" ["Books"; "Fiction"].
Definition novel_b : Product := book "B" "Emma" ["Books"; "Fiction"].

(** The two products of the first scenario of the specification. *)
Definition shoes_p1 : Product :=
  {| product_id := "P1"; title := "Red Running Shoes"; description := "";
     categories := ["Shoes"]; price_cents := 4999; currency := "USD";
     images := []; stock := 3; metadata := [] |}.
Definition shoes_p2 : Product :=
  {| product_id := "P2"; title := "Blue Hiking Boots"; description := "";
     categories := ["Shoes"]; price_cents := 8999; currency := "USD";
     images := []; stock := 1; metadata := [] |}.

(** A short document that names shoes in its description only. *)
Definition laces : Product :=
  {| product_id := "P3"; title := "Laces"; description := "shoes";
     categories := []; price_cents := 499; currency := "USD";
     images := []; stock := 0; metadata := [] |}.

(** A price that [price_cents / 100] cannot turn into a double. *)
Definition priceless : Product :=
  {| product_id := "P4"; title := "Crown Jewels"; description := "";
     categories := ["Jewels"]; price_cents := 10 ^ 400; currency := "USD";
     images := []; stock := 1; metadata := [] |}.

End Catalog.

Module EngineSample.
Import RecommendationEngine.

(** A and B registered under "Books", no view recorded. *)
Definition books_engine : t :=
  snd (add_product_metadata "B" ["Books"] 1299
         (snd (add_product_metadata "A" ["Books"] 1299 init))).

Definition books_store : gmap string Product :=
  <["B" := Catalog.book_b]> (<["A" := Catalog.book_a]> ∅).

(** A and B registered under "Books" and "Fiction". *)
Definition novels_engine : t :=
  snd (add_product_metadata "B" ["Books"; "Fiction"] 1299
         (snd (add_product_metadata "A" ["Books"; "Fiction"] 1299 init))).

Definition novels_store : gmap string Product :=
  <["B" := Catalog.novel_b]> (<["A" := Catalog.novel_a]> ∅).

(** A is in "Books" with B and in "Fiction" with C. *)
Definition shelves_engine : t :=
  snd (add_product_metadata "C" ["Fiction"] 1299
         (snd (add_product_metadata "B" ["Books"] 1299
                 (snd (add_product_metadata "A" ["Books"; "Fiction"] 1299
                         init))))).

Definition shelves_store : gmap string Product :=
  <["A" := Catalog.novel_a]> ∅.

End EngineSample.

Module ServiceSample.
Import Service.

(** The catalog of the first scenario, served with the sample instances. *)
Definition shoes_service : state :=
  run [IndexProduct Catalog.shoes_p1; IndexProduct Catalog.shoes_p2].

Definition books_service : state :=
  run [IndexProduct Catalog.book_a; IndexProduct Catalog.book_b].

(** Three products, two of which match the query "shoes". *)
Definition laces_service : state :=
  run [IndexProduct Catalog.shoes_p1; IndexProduct Catalog.shoes_p2;
       IndexProduct Catalog.laces].

End ServiceSample.

Module HistorySample.

(** The documents of [Sample.shoes_index], reached by another history:
    P2 first, a third document in between, removed again at the end. *)
Definition shoes_index_again : InvertedIndex.t :=
  InvertedIndex.remove_document "P3"
    (InvertedIndex.add_document "P1" "Red Running Shoes" ["Shoes"]
       (InvertedIndex.add_document "P3" "Green Trail Shoes" ["Outdoor"]
          (InvertedIndex.add_document "P2" "Blue Hiking Boots" ["Shoes"]
             InvertedIndex.init))).

End HistorySample.

(** ** The shape of a token *)

Module TokenShape.
Import Text.

Fixpoint all_chars (p : ascii → bool) (s : string) : bool :=
  match s with
  | EmptyString => true
  | String c s' => p c && all_chars p s'
  end.

Definition lower_alnum (c : ascii) : bool := is_lower c || is_digit c.

(** A lower-case letter followed by lower-case letters and digits. *)
Definition token_ok (t : string) : bool :=
  match t with
  | EmptyString => false
  | String c rest => is_lower c && all_chars lower_alnum rest
  end.

(** The accumulator of [InToken]: the token read so far, backwards. *)
Fixpoint ends_in_letter (acc : string) : bool :=
  match acc with
  | EmptyString => false
  | String c EmptyString => is_lower c
  | String _ acc' => ends_in_letter acc'
  end.

(** What the scan keeps true of its state on lower-case input. *)
Definition state_ok (st : scan_state) : Prop :=
  match st with
  | InToken acc => ends_in_letter acc = true ∧ all_chars lower_alnum acc = true
  | _ => True
  end.

End TokenShape.

Module TrieLookup.
Import AutocompleteTrie.

(** The frequency counter at the node a word leads to, 0 when the trie
    has no such node. *)
Definition counter (root : TrieNode) (word : string) : Z :=
  match descend word root with
  | Some node => frequency node
  | None => 0
  end.

(** The frequency of a word the trie holds: its node exists and is
    marked [is_word]. *)
Definition word_frequency (root : TrieNode) (word : string) : option Z :=
  match descend word root with
  | Some node => if is_word node then Some (frequency node) else None
  | None => None
  end.

End TrieLookup.

Module CoView.
Import RecommendationEngine.

(** [counter[key]] on a [Counter]: 0 for a missing key. *)
Fixpoint count_of (key : string) (counter : list (string * Z)) : Z :=
  match counter with
  | [] => 0
  | (k, v) :: counter' => if decide (key = k) then v else count_of key counter'
  end.

(** [view_matrix[a][b]], read without creating entries. *)
Definition co_views (E : t) (a b : string) : Z :=
  count_of b (default [] (view_matrix E !! a)).

(** How often [b] occurs in a session. *)
Definition occurrences (b : string) (session_products : list string) : Z :=
  Z.of_nat (length (filter (λ x, x = b) session_products)).

End CoView.

(** ** Search analytics *)

(** Iteration over the [search_analytics] dict: its items in insertion
    order, which the map does not record, so some enumeration of them. *)
Class DictIter := {
  dict_order : gmap string Z → list (string * Z);
  dict_order_perm : ∀ m, dict_order m ≡ₚ map_to_list m
}.

#[export] Instance map_to_list_order : DictIter :=
  {| dict_order := map_to_list; dict_order_perm := λ m, reflexivity _ |}.

Module Analytics.
Import Service.

Record report := {
  top_searches : list (string * Z);
  total_searches : Z;
  unique_queries : Z;
  indexed_products : Z
}.

(** [sum(values)] *)
Definition sum_values (items : list (string * Z)) : Z :=
  foldl Z.add 0 (map snd items).

Section Handler.
Context `{FloatOps} `{SetIter} `{ExistenceFilter} `{DictIter}.

(** [get_search_analytics] *)
Definition get_search_analytics (st : state) : report :=
  let items := dict_order (search_analytics st) in
  {| top_searches := slice_to 20 (sort_desc Z.ltb snd items);
     total_searches := sum_values items;
     unique_queries := Z.of_nat (size (search_analytics st));
     indexed_products := Z.of_nat (size (products_store st)) |}.

End Handler.

(** The searches with a query that is not blank since the last
    [clear_all_data]. *)
Definition counted (n : Z) (r : request) : Z :=
  match r with
  | SearchProducts q _ _ _ _ => if Text.blank q then n else n + 1
  | ClearAllData => 0
  | _ => n
  end.

Definition searches_since_clear (rs : list request) : Z := foldl counted 0 rs.

End Analytics.

Module Links.
Import Service.

Section Links.
Context `{FloatOps} `{SetIter} `{ExistenceFilter}.

(** What ties the index, the filter and the category sets to the store. *)
Definition linked (st : state) : Prop :=
  (∀ pid, pid ∈ dom (InvertedIndex.doc_lengths (inverted_index st)) →
     is_Some (products_store st !! pid)
     ∧ bloom_contains pid (bloom_filter st) = true)
  ∧ (∀ c members x,
       RecommendationEngine.category_matrix (recommendation_engine st) !! c
       = Some members →
       x ∈ members → is_Some (products_store st !! x)).

End Links.
End Links.

Module StaleSample.
Import Service.

(** A is indexed under "Books", then again under "Toys"; B is in
    "Books". *)
Definition toy_a : Product := Catalog.book "A" "Dune" ["Toys"].

Definition first_index : state := run [IndexProduct Catalog.book_a].

Definition reindexed : state :=
  run [IndexProduct Catalog.book_a; IndexProduct toy_a;
       IndexProduct Catalog.book_b].

End StaleSample.

Module QueryLog.
Import Service.

(** The lower-cased queries, blank ones left out, searched since the
    last [clear_all_data]. *)
Definition logged (qs : gset string) (r : request) : gset string :=
  match r with
  | SearchProducts q _ _ _ _ => if Text.blank q then qs else qs ∪ {[Text.lower q]}
  | ClearAllData => ∅
  | _ => qs
  end.

Definition queries_since_clear (rs : list request) : gset string :=
  foldl logged ∅ rs.

End QueryLog.

(** * Properties *)

(** ** Lists *)

Section PyListFacts.
Context {A : Type}.
Implicit Types l : list A.

Lemma slice_to_nonneg k l : 0 ≤ k → slice_to k l = firstn (Z.to_nat k) l.
Proof. intros Hk. unfold slice_to. destruct (Z.leb_spec 0 k); [done | lia]. Qed.

Lemma slice_to_length k l : 0 ≤ k → Z.of_nat (length (slice_to k l)) ≤ k.
Proof.
  intros Hk. rewrite slice_to_nonneg by done.
  rewrite length_firstn. lia.
Qed.

Lemma slice_to_prefix k l : ∃ rest, l = (slice_to k l ++ rest)%list.
Proof.
  unfold slice_to. destruct (0 <=? k);
    eexists; symmetry; apply firstn_skipn.
Qed.

Lemma slice_to_elem k l x : x ∈ slice_to k l → x ∈ l.
Proof.
  destruct (slice_to_prefix k l) as [rest Hl]. intros Hx.
  rewrite Hl. apply elem_of_app. by left.
Qed.

Lemma slice_to_nil k : slice_to k (@nil A) = [].
Proof. unfold slice_to. destruct (0 <=? k); apply firstn_nil. Qed.

Lemma slice_to_all k l : Z.of_nat (length l) ≤ k → slice_to k l = l.
Proof.
  intros Hk. rewrite slice_to_nonneg by lia.
  apply firstn_all2. lia.
Qed.

Lemma firstn_elem n l x : x ∈ firstn n l → x ∈ l.
Proof.
  intros Hx. rewrite <- (firstn_skipn n l). apply elem_of_app. by left.
Qed.

Lemma firstn_NoDup n l : NoDup l → NoDup (firstn n l).
Proof.
  intros Hl. rewrite <- (firstn_skipn n l) in Hl.
  by apply NoDup_app in Hl as [? _].
Qed.

Context {K : Type} (ltb : K → K → bool) (key : A → K).

Lemma insert_desc_perm x l : insert_desc ltb key x l ≡ₚ x :: l.
Proof.
  induction l as [|y l IH]; simpl; [done|].
  destruct (ltb (key x) (key y)); [|done].
  rewrite IH. apply Permutation_swap.
Qed.

Lemma sort_desc_perm l : sort_desc ltb key l ≡ₚ l.
Proof.
  induction l as [|x l IH]; simpl; [done|].
  rewrite insert_desc_perm. by constructor.
Qed.

Lemma sort_desc_elem l x : x ∈ sort_desc ltb key l ↔ x ∈ l.
Proof. by rewrite sort_desc_perm. Qed.

Lemma sort_desc_length l : length (sort_desc ltb key l) = length l.
Proof. apply Permutation_length, sort_desc_perm. Qed.

(** Sortedness, for a comparison that decides an order [R] on keys:
    [R a b] reads "[a] may come before [b]". *)
Section Sorted.
Context (R : K → K → Prop).
Hypothesis ltb_true : ∀ a b, ltb a b = true → R b a.
Hypothesis ltb_false : ∀ a b, ltb a b = false → R a b.
Hypothesis R_trans : ∀ a b c, R a b → R b c → R a c.

Let before (x y : A) : Prop := R (key x) (key y).

Lemma insert_desc_sorted x l :
  StronglySorted before l → StronglySorted before (insert_desc ltb key x l).
Proof.
  induction 1 as [|y l Hl IH Hy]; simpl.
  - repeat constructor.
  - destruct (ltb (key x) (key y)) eqn:E.
    + constructor; [done|].
      apply List.Forall_forall. intros z Hz.
      rewrite <- list_elem_of_In, insert_desc_perm in Hz.
      apply elem_of_cons in Hz as [->|Hz].
      * by apply ltb_true.
      * rewrite List.Forall_forall in Hy. by apply Hy, list_elem_of_In.
    + constructor; [by constructor|].
      constructor; [by apply ltb_false|].
      eapply Forall_impl; [exact Hy|].
      intros z Hz. eapply R_trans; [by apply ltb_false|done].
Qed.

Lemma sort_desc_sorted l : StronglySorted before (sort_desc ltb key l).
Proof.
  induction l; simpl; [constructor | by apply insert_desc_sorted].
Qed.
End Sorted.

(** Stability: the elements with a given key keep their order. *)
Section Stable.
Context `{EqDecision K}.
Hypothesis ltb_irrefl : ∀ a, ltb a a = false.

Lemma insert_desc_filter k x l :
  filter (λ e, key e = k) (insert_desc ltb key x l)
  = filter (λ e, key e = k) (x :: l).
Proof.
  induction l as [|y l IH]; simpl; [done|].
  destruct (ltb (key x) (key y)) eqn:E; [|done].
  rewrite !filter_cons in *.
  destruct (decide (key y = k)) as [Hy|Hy];
    destruct (decide (key x = k)) as [Hx|Hx]; try (by rewrite IH).
  rewrite Hx, <- Hy, ltb_irrefl in E. done.
Qed.

Lemma sort_desc_stable k l :
  filter (λ e, key e = k) (sort_desc ltb key l) = filter (λ e, key e = k) l.
Proof.
  induction l as [|x l IH]; simpl; [done|].
  rewrite insert_desc_filter, !filter_cons, IH. done.
Qed.

(** The head of the sorted list is the first element of the input to
    carry its key. *)
Lemma sort_desc_head l e rest :
  sort_desc ltb key l = e :: rest →
  ∃ l1 l2, l = (l1 ++ e :: l2)%list ∧ ∀ e', e' ∈ l1 → key e' ≠ key e.
Proof.
  intros Hs. pose proof (sort_desc_stable (key e) l) as Hst.
  rewrite Hs, filter_cons, decide_True in Hst by done.
  clear Hs. revert Hst. generalize (filter (λ e0, key e0 = key e) rest).
  intros tl. induction l as [|x l IH]; intros Hst; [done|].
  rewrite filter_cons in Hst. destruct (decide (key x = key e)) as [Hx|Hx].
  - injection Hst as -> _. exists [], l. split; [done|]. intros ? []%elem_of_nil.
  - destruct (IH Hst) as (l1 & l2 & -> & Hl1).
    exists (x :: l1), l2. split; [done|].
    intros e' [->|He']%elem_of_cons; [done | by apply Hl1].
Qed.
End Stable.

End PyListFacts.

Lemma upsert_keys {A V : Type} `{EqDecision A} (k : A) (dflt : V) (f : V → V)
    (d : list (A * V)) :
  (upsert k dflt f d).*1 = if decide (k ∈ d.*1) then d.*1 else (d.*1 ++ [k])%list.
Proof.
  induction d as [|[k' v] d IH]; [done|].
  cbn [upsert fmap list_fmap fst].
  - destruct (decide (k = k')) as [->|Hk]; cbn [fmap list_fmap fst].
    + rewrite decide_True; [done | apply elem_of_cons; by left].
    + rewrite IH. destruct (decide (k ∈ d.*1)) as [Hin|Hin].
      * rewrite decide_True; [done | apply elem_of_cons; by right].
      * rewrite decide_False; [done|].
        intros [?|?]%elem_of_cons; done.
Qed.

Lemma upsert_not_nil {A V : Type} `{EqDecision A} (k : A) (dflt : V) (f : V → V)
    (d : list (A * V)) :
  upsert k dflt f d ≠ [].
Proof. destruct d as [|[k' v] d]; simpl; [done|]. by destruct (decide (k = k')). Qed.

Lemma for_each_inv {A B : Type} (P : B → Prop) (body : B → A → outcome B) l :
  ∀ acc, P acc →
  (∀ b a, a ∈ l → P b → ∃ b', body b a = Returns b' ∧ P b') →
  ∃ b', for_each body acc l = Returns b' ∧ P b'.
Proof.
  induction l as [|x l IH]; intros acc Hacc Hbody; simpl.
  - by exists acc.
  - destruct (Hbody acc x) as (b' & Hb' & HP); [by left | done |].
    rewrite Hb'. simpl. apply IH; [done|].
    intros b a Ha. apply Hbody. by right.
Qed.

(** ** Text *)

Example tokenize_title :
  Text.tokenize "Red Running-Shoes 2nd_gen x1" = ["red"; "running"; "shoes"; "x1"].
Proof. reflexivity. Qed.

Example tokenize_blank : Text.tokenize "  -- 42 " = [].
Proof. reflexivity. Qed.

(** ** InvertedIndex *)

Section SetIterFacts.
Context `{SetIter}.

Lemma set_order_elem X x : x ∈ set_order X ↔ x ∈ X.
Proof. by rewrite set_order_perm, elem_of_elements. Qed.

Lemma set_order_NoDup X : NoDup (set_order X).
Proof. rewrite set_order_perm. apply NoDup_elements. Qed.

Lemma set_order_tokens (tokens : list string) x :
  x ∈ set_order (list_to_set tokens) ↔ x ∈ tokens.
Proof. by rewrite set_order_elem, elem_of_list_to_set. Qed.
End SetIterFacts.

Lemma posted_then_discarded (doc_set : gset string) (doc_id : string) :
  doc_id ∉ doc_set → (doc_set ∪ {[doc_id]}) ∖ {[doc_id]} = doc_set.
Proof. set_solver. Qed.

Module InvertedIndexFacts.
Import InvertedIndex.

Section Invariant.
Context `{SetIter}.

Lemma inv_init : inv init ∅.
Proof.
  split; simpl; try done.
  intros token doc_id. split; intros (? & Hl & _); by rewrite lookup_empty in Hl.
Qed.

Lemma inv_absent S D doc_id :
  inv S D → doc_id ∉ dom (doc_lengths S) → D !! doc_id = None.
Proof.
  intros HI Hd. rewrite (inv_lengths _ _ HI), dom_fmap, not_elem_of_dom in Hd.
  done.
Qed.

Lemma inv_not_posted S D doc_id token doc_set :
  inv S D → D !! doc_id = None → index S !! token = Some doc_set →
  doc_id ∉ doc_set.
Proof.
  intros HI HD Hl Hin.
  destruct (proj1 (inv_postings _ _ HI token doc_id)) as (? & HD' & _); [eauto|].
  congruence.
Qed.

Lemma remove_document_inv S D doc_id :
  inv S D → inv (remove_document doc_id S) (delete doc_id D).
Proof.
  intros HI. unfold remove_document.
  destruct (decide (doc_id ∈ dom (doc_lengths S))) as [Hin|Hout]; last first.
  { rewrite delete_id; [done | by eapply inv_absent]. }
  split; simpl.
  - intros token y. rewrite lookup_omap.
    split.
    + intros (ds & Hl & Hy).
      destruct (index S !! token) as [doc_set|] eqn:E; [|done]. simpl in Hl.
      unfold removed_posting in Hl.
      assert (y ∈ doc_set ∧ y ≠ doc_id) as [Hyd Hne].
      { repeat case_decide; simplify_eq; set_solver. }
      destruct (proj1 (inv_postings _ _ HI token y)) as (tokens & HD & Ht);
        [eauto|].
      exists tokens. by rewrite lookup_delete_ne.
    + intros (tokens & HD & Ht).
      destruct (decide (doc_id = y)) as [->|Hne];
        [by rewrite lookup_delete_eq in HD|].
      rewrite lookup_delete_ne in HD by done.
      destruct (proj2 (inv_postings _ _ HI token y)) as (doc_set & Hl & Hy);
        [eauto|].
      rewrite Hl. simpl. unfold removed_posting.
      destruct (decide (doc_id ∈ doc_set));
        [destruct (decide (doc_set ∖ {[doc_id]} = ∅)); [exfalso; set_solver|]|];
        eexists; (split; [done | set_solver]).
  - intros token ds. rewrite lookup_omap.
    destruct (index S !! token) as [doc_set|] eqn:E; [|done]. simpl.
    unfold removed_posting. intros Hl.
    repeat case_decide; simplify_eq; [done|].
    by eapply inv_nonempty.
  - intros token. rewrite lookup_merge, lookup_omap, (inv_freq _ _ HI token).
    destruct (index S !! token) as [doc_set|] eqn:E; [|done]. simpl.
    unfold removed_posting.
    destruct (decide (doc_id ∈ doc_set)) as [Hd|Hd]; [|done].
    destruct (decide (doc_set ∖ {[doc_id]} = ∅)) as [He|He]; [done|]. simpl.
    f_equal. rewrite size_difference by set_solver.
    rewrite size_singleton.
    assert (size doc_set ≠ 0%nat); [|lia].
    intros ->%size_empty_inv%leibniz_equiv. set_solver.
  - by rewrite (inv_lengths _ _ HI), fmap_delete.
  - done.
Qed.

(** The loop of [add_document], token by token. *)
Lemma post_loop doc_id S tokens :
  let S' := foldl (post doc_id) S tokens in
  (∀ token,
     index S' !! token
     = if decide (token ∈ tokens)
       then Some (default ∅ (index S !! token) ∪ {[doc_id]})
       else index S !! token)
  ∧ (∀ token,
     doc_freq S' !! token
     = if decide (token ∈ tokens ∧ doc_id ∉ default ∅ (index S !! token))
       then Some (default 0 (doc_freq S !! token) + 1)
       else doc_freq S !! token)
  ∧ total_docs S' = total_docs S
  ∧ doc_lengths S' = doc_lengths S.
Proof.
  induction tokens as [|a tokens IH] using rev_ind; simpl.
  { repeat split; intros; try done.
    all: rewrite decide_False; [done | set_solver]. }
  rewrite foldl_app. simpl.
  destruct IH as (Hidx & Hdf & Htot & Hlen).
  remember (foldl (post doc_id) S tokens) as S1 eqn:HS1. clear HS1.
  unfold post.
  destruct (decide (doc_id ∈ default ∅ (index S1 !! a))) as [Hin|Hin]; simpl.
  - (* [doc_id] is already posted under [a] *)
    repeat split; try done.
    + intros token. rewrite Hidx.
      destruct (decide (token = a)) as [->|Hne].
      * rewrite (decide_True (P := a ∈ (tokens ++ [a])%list)) by set_solver.
        rewrite Hidx in Hin.
        destruct (decide (a ∈ tokens)); [done|].
        destruct (index S !! a) as [ds|] eqn:E; simpl in *; [|set_solver].
        f_equal. set_solver.
      * destruct (decide (token ∈ tokens));
          [rewrite decide_True | rewrite decide_False]; set_solver.
    + intros token. rewrite Hdf.
      destruct (decide (token = a)) as [->|Hne].
      * rewrite Hidx in Hin.
        destruct (decide (a ∈ tokens)) as [Ha|Ha].
        -- destruct (decide (doc_id ∉ default ∅ (index S !! a)));
             [rewrite !decide_True | rewrite !decide_False]; set_solver.
        -- rewrite !decide_False; set_solver.
      * destruct (decide (token ∈ tokens ∧ doc_id ∉ default ∅ (index S !! token)));
          [rewrite decide_True | rewrite decide_False]; set_solver.
  - (* a new posting *)
    repeat split; try done.
    + intros token. destruct (decide (token = a)) as [->|Hne].
      * rewrite lookup_insert_eq.
        rewrite (decide_True (P := a ∈ (tokens ++ [a])%list)) by set_solver.
        f_equal. rewrite Hidx.
        destruct (decide (a ∈ tokens)); simpl; [set_solver | done].
      * rewrite lookup_insert_ne, Hidx by done.
        destruct (decide (token ∈ tokens));
          [rewrite decide_True | rewrite decide_False]; set_solver.
    + intros token. destruct (decide (token = a)) as [->|Hne].
      * rewrite lookup_insert_eq.
        rewrite Hidx in Hin. rewrite Hdf.
        destruct (decide (a ∈ tokens)) as [Ha|Ha]; simpl in Hin; [set_solver|].
        rewrite (decide_False (P := a ∈ tokens ∧ _)) by tauto.
        rewrite decide_True; [done | split; [set_solver | done]].
      * rewrite lookup_insert_ne, Hdf by done.
        destruct (decide (token ∈ tokens ∧ doc_id ∉ default ∅ (index S !! token)));
          [rewrite decide_True | rewrite decide_False]; set_solver.
Qed.

Lemma add_document_inv S D doc_id text categories :
  inv S D →
  inv (add_document doc_id text categories S)
      (<[doc_id := document_tokens text categories]> D).
Proof.
  intros HI. unfold add_document.
  set (tokens := document_tokens text categories).
  set (S1 := if decide (doc_id ∈ dom (doc_lengths S))
             then remove_document doc_id S else S).
  assert (inv S1 (delete doc_id D)) as HI1.
  { subst S1. case_decide.
    - by apply remove_document_inv.
    - rewrite delete_id; [done | by eapply inv_absent]. }
  clearbody S1. clear HI.
  set (S2 := mk (index S1) (doc_freq S1) (total_docs S1)
                (<[doc_id := Z.of_nat (length tokens)]> (doc_lengths S1))).
  destruct (post_loop doc_id S2 (set_order (list_to_set tokens)))
    as (Hidx & Hdf & _ & Hlen).
  simpl in Hidx, Hdf, Hlen.
  assert (∀ token, doc_id ∉ default ∅ (index S1 !! token)) as Hfresh.
  { intros token. destruct (index S1 !! token) as [ds|] eqn:E; simpl; [|set_solver].
    eapply inv_not_posted; [exact HI1 | apply lookup_delete_eq | exact E]. }
  split; simpl.
  - intros token y. rewrite Hidx.
    destruct (decide (y = doc_id)) as [->|Hne].
    + rewrite lookup_insert_eq. split.
      * intros (ds & Hl & Hy). exists tokens. split; [done|].
        destruct (decide (token ∈ set_order (list_to_set tokens))) as [Ht|Ht];
          [by apply set_order_tokens|].
        specialize (Hfresh token). rewrite Hl in Hfresh. done.
      * intros (? & [= <-] & Ht).
        rewrite decide_True by by apply set_order_tokens.
        eexists. split; [done | set_solver].
    + rewrite lookup_insert_ne by done.
      rewrite <- (lookup_delete_ne D doc_id y) by done.
      rewrite <- (inv_postings _ _ HI1 token y).
      case_decide; [|done].
      split.
      * intros (ds & [= <-] & Hy).
        destruct (index S1 !! token) as [ds|] eqn:E; simpl in *; [|set_solver].
        exists ds. split; [done | set_solver].
      * intros (ds & -> & Hy). eexists. split; [done|]. simpl. set_solver.
  - intros token ds. rewrite Hidx. case_decide.
    + intros [= <-]. set_solver.
    + by eapply inv_nonempty.
  - intros token. rewrite Hdf, Hidx. specialize (Hfresh token).
    case_decide as Ht.
    + destruct Ht as [Ht _]. rewrite decide_True by done. simpl. f_equal.
      rewrite (inv_freq _ _ HI1 token).
      destruct (index S1 !! token) as [ds|] eqn:E;
        cbv [default from_option id fmap option_fmap option_map] in *.
      * rewrite size_union by set_solver. rewrite size_singleton. lia.
      * rewrite union_empty_l_L, size_singleton. done.
    + rewrite decide_False by tauto. by apply (inv_freq _ _ HI1).
  - rewrite Hlen. rewrite (inv_lengths _ _ HI1).
    rewrite fmap_delete, insert_delete_eq, fmap_insert. done.
  - by rewrite Hlen.
Qed.

Lemma tracks_inv S D : tracks S D → inv S D.
Proof.
  induction 1; [apply inv_init | by apply add_document_inv
               | by apply remove_document_inv].
Qed.

Lemma reachable_inv S : reachable S → ∃ D, inv S D.
Proof. intros [D HD]. exists D. by apply tracks_inv. Qed.

(** C1. In every index reached by [add_document] and [remove_document]
    calls, every token of [index] has a posting set that is not empty and
    whose cardinality is the token's [doc_freq]. *)
Theorem postings_match_doc_freq S token doc_set :
  reachable S →
  index S !! token = Some doc_set →
  doc_set ≠ ∅ ∧ doc_freq S !! token = Some (Z.of_nat (size doc_set)).
Proof.
  intros [D HI]%reachable_inv Hl. split.
  - by eapply inv_nonempty.
  - by rewrite (inv_freq _ _ HI token), Hl.
Qed.

(** The counters and the postings have the same tokens. *)
Lemma doc_freq_dom S : reachable S → dom (doc_freq S) = dom (index S).
Proof.
  intros [D HI]%reachable_inv. apply set_eq. intros token.
  rewrite !elem_of_dom, (inv_freq _ _ HI token). apply fmap_is_Some.
Qed.

(** C2. On a reachable index that does not hold [doc_id], adding a
    document under [doc_id] and then removing it gives the index back:
    the same postings, counters, lengths and total. *)
Theorem add_then_remove S doc_id text categories :
  reachable S →
  doc_id ∉ dom (doc_lengths S) →
  remove_document doc_id (add_document doc_id text categories S) = S.
Proof.
  intros [D HI]%reachable_inv Hout.
  pose proof (inv_absent _ _ _ HI Hout) as HD.
  unfold add_document. rewrite decide_False by done.
  set (tokens := document_tokens text categories).
  set (S2 := mk (index S) (doc_freq S) (total_docs S)
                (<[doc_id := Z.of_nat (length tokens)]> (doc_lengths S))).
  destruct (post_loop doc_id S2 (set_order (list_to_set tokens)))
    as (Hidx & Hdf & _ & Hlen).
  simpl in Hidx, Hdf, Hlen.
  assert (∀ token, doc_id ∉ default ∅ (index S !! token)) as Hfresh.
  { intros token. destruct (index S !! token) as [ds|] eqn:E; simpl; [|set_solver].
    by eapply inv_not_posted. }
  unfold remove_document. simpl. rewrite Hlen.
  rewrite decide_True by (rewrite dom_insert_L; set_solver).
  rewrite delete_insert_eq, delete_id by by apply not_elem_of_dom.
  rewrite <- (inv_total _ _ HI).
  destruct S as [idx df tot dl]. simpl in *. f_equal.
  - apply map_eq. intros token. rewrite lookup_omap, Hidx.
    specialize (Hfresh token). unfold removed_posting.
    case_decide as Ht; simpl.
    + rewrite decide_True by set_solver.
      rewrite posted_then_discarded by done.
      destruct (idx !! token) as [ds|] eqn:E; simpl.
      * rewrite decide_False; [done | by eapply (inv_nonempty _ _ HI)].
      * by rewrite decide_True.
    + destruct (idx !! token) as [ds|] eqn:E; simpl in *; [|done].
      by rewrite decide_False.
  - apply map_eq. intros token. rewrite lookup_merge, Hidx, Hdf.
    specialize (Hfresh token).
    pose proof (inv_freq _ _ HI token) as Hf. simpl in Hf.
    unfold removed_freq.
    destruct (decide (token ∈ set_order (list_to_set tokens))) as [Ht|Ht].
    + rewrite decide_True by done. simpl.
      rewrite decide_True by set_solver.
      rewrite posted_then_discarded by done.
      destruct (idx !! token) as [ds|] eqn:E; simpl.
      * rewrite decide_False by by eapply (inv_nonempty _ _ HI).
        rewrite Hf. simpl. f_equal. lia.
      * rewrite decide_True by done. by rewrite Hf.
    + rewrite decide_False by tauto.
      destruct (idx !! token) as [ds|] eqn:E; simpl in *.
      * rewrite decide_False by done. by destruct (df !! token).
      * by destruct (df !! token).
Qed.

End Invariant.
End InvertedIndexFacts.

Module SearchFacts.
Import InvertedIndex InvertedIndexFacts.

Section Search.
Context `{FloatOps} `{SetIter}.

Lemma inv_total_pos S D doc_id tokens :
  inv S D → D !! doc_id = Some tokens → 0 < total_docs S.
Proof.
  intros HI HD. rewrite (inv_total _ _ HI), (inv_lengths _ _ HI), map_size_fmap.
  assert (size D ≠ 0%nat); [|lia].
  intros HD0%map_size_empty_inv. by rewrite HD0 in HD.
Qed.

Lemma idf_of_returns S D token doc_set doc_id :
  inv S D → index S !! token = Some doc_set → doc_id ∈ doc_set →
  ∃ idf, idf_of S token = Returns idf.
Proof.
  intros HI Hl Hd. unfold idf_of.
  destruct (proj1 (inv_postings _ _ HI token doc_id)) as (tokens & HD & _);
    [eauto|].
  pose proof (inv_total_pos _ _ _ _ HI HD).
  destruct (0 <? _); [|eauto].
  destruct (Z.leb_spec (total_docs S) 0); [lia | eauto].
Qed.

Lemma tf_of_returns S D token doc_set doc_id :
  inv S D → index S !! token = Some doc_set → doc_id ∈ doc_set →
  ∃ tf, tf_of S doc_id = Returns tf.
Proof.
  intros HI Hl Hd. unfold tf_of.
  destruct (proj1 (inv_postings _ _ HI token doc_id)) as (tokens & HD & Ht);
    [eauto|].
  rewrite (inv_lengths _ _ HI), lookup_fmap, HD. simpl.
  destruct tokens as [|t0 tokens]; [by apply elem_of_nil in Ht|].
  destruct (Z.ltb_spec (Z.of_nat (length (t0 :: tokens))) 0); [lia|].
  destruct (Z.eqb_spec (Z.of_nat (length (t0 :: tokens))) 0);
    [simpl in *; lia | eauto].
Qed.

(** Every document scored for a query token holds that token. *)
Lemma score_token_returns S D (query_tokens : list string) doc_scores token :
  inv S D → token ∈ query_tokens →
  (∀ doc_id, doc_id ∈ doc_scores.*1 →
     ∃ tokens t, D !! doc_id = Some tokens ∧ t ∈ tokens ∧ t ∈ query_tokens) →
  ∃ doc_scores',
    score_token S doc_scores token = Returns doc_scores'
    ∧ ∀ doc_id, doc_id ∈ doc_scores'.*1 →
        ∃ tokens t, D !! doc_id = Some tokens ∧ t ∈ tokens ∧ t ∈ query_tokens.
Proof.
  intros HI Htok Hacc. unfold score_token.
  destruct (index S !! token) as [doc_set|] eqn:E; [|eauto].
  destruct (decide (doc_set = ∅)) as [->|Hne].
  { by destruct (inv_nonempty _ _ HI token ∅ E). }
  apply set_choose_L in Hne as [d0 Hd0].
  destruct (idf_of_returns S D token doc_set d0) as [idf ->]; [done..|].
  simpl.
  apply (for_each_inv
    (λ acc : list (string * float), ∀ doc_id, doc_id ∈ acc.*1 →
       ∃ tokens t, D !! doc_id = Some tokens ∧ t ∈ tokens ∧ t ∈ query_tokens));
    [done|].
  intros acc doc_id Hd%set_order_elem Hb.
  destruct (tf_of_returns S D token doc_set doc_id) as [tf ->]; [done..|].
  simpl. eexists. split; [done|].
  intros y. rewrite upsert_keys.
  case_decide; [by apply Hb|].
  intros [Hy| ->%list_elem_of_singleton]%elem_of_app; [by apply Hb|].
  destruct (proj1 (inv_postings _ _ HI token doc_id)) as (tokens & HD & Ht);
    eauto.
Qed.

(** [search] on a tracked index: it returns, and what it returns. *)
Lemma search_tracked S D query limit :
  tracks S D →
  ∃ results,
    search S query limit = Returns results
    ∧ (0 ≤ limit → Z.of_nat (length results) ≤ limit)
    ∧ (∀ doc_id score, (doc_id, score) ∈ results →
         ∃ tokens t,
           D !! doc_id = Some tokens ∧ t ∈ tokens ∧ t ∈ Text.tokenize query)
    ∧ (Text.tokenize query = [] → results = []).
Proof.
  intros HI%tracks_inv. unfold search.
  destruct (Text.blank query).
  { exists []. repeat split; [simpl; lia | intros ?? []%elem_of_nil]. }
  destruct (Text.tokenize query) as [|t0 ts] eqn:Etok.
  { exists []. repeat split; [simpl; lia | intros ?? []%elem_of_nil]. }
  destruct (for_each_inv
    (λ acc : list (string * float), ∀ doc_id, doc_id ∈ acc.*1 →
       ∃ tokens t, D !! doc_id = Some tokens ∧ t ∈ tokens ∧ t ∈ t0 :: ts)
    (score_token S) (t0 :: ts) []) as (doc_scores & Hrun & Hkeys).
  - intros ? []%elem_of_nil.
  - intros acc token Htok Hacc. by eapply score_token_returns.
  - rewrite Hrun. simpl. eexists. split; [done|].
    split; [apply slice_to_length|]. split; [|done].
    intros doc_id score Hin%slice_to_elem%sort_desc_elem.
    apply Hkeys. apply list_elem_of_fmap. by exists (doc_id, score).
Qed.

(** C3. On a reachable index [search] returns; the result has at most
    [limit] entries, [limit] being a count, that is [limit >= 0]; every
    returned id is a document that holds one of the query's tokens; a
    query without tokens gives the empty list. *)
Theorem search_bounded_and_matching S D query limit :
  tracks S D →
  ∃ results,
    search S query limit = Returns results
    ∧ (0 ≤ limit → Z.of_nat (length results) ≤ limit)
    ∧ (∀ doc_id score, (doc_id, score) ∈ results →
         ∃ tokens t,
           D !! doc_id = Some tokens ∧ t ∈ tokens ∧ t ∈ Text.tokenize query)
    ∧ (Text.tokenize query = [] → results = []).
Proof. apply search_tracked. Qed.

End Search.
End SearchFacts.

(** ** The index claims on sample data *)

Lemma shoes_index_tracked : InvertedIndex.tracks Sample.shoes_index Sample.shoes_docs.
Proof. repeat constructor. Qed.

Lemma postings_match_doc_freq_witness :
  InvertedIndex.index Sample.shoes_index !! "category:shoes" = Some {[ "P1"; "P2" ]}
  ∧ ({[ "P1"; "P2" ]} : gset string) ≠ ∅
  ∧ InvertedIndex.doc_freq Sample.shoes_index !! "category:shoes"
    = Some (Z.of_nat (size ({[ "P1"; "P2" ]} : gset string))).
Proof.
  assert (InvertedIndex.index Sample.shoes_index !! "category:shoes"
          = Some {[ "P1"; "P2" ]}) as Hl by (vm_compute; reflexivity).
  split; [exact Hl|].
  apply (InvertedIndexFacts.postings_match_doc_freq Sample.shoes_index);
    [|exact Hl].
  exists Sample.shoes_docs. apply shoes_index_tracked.
Defined.

Lemma add_then_remove_witness :
  InvertedIndex.remove_document "P3"
    (InvertedIndex.add_document "P3" "Green Trail Shoes" ["Shoes"; "Outdoor"]
       Sample.shoes_index)
  = Sample.shoes_index.
Proof.
  apply InvertedIndexFacts.add_then_remove.
  - exists Sample.shoes_docs. apply shoes_index_tracked.
  - vm_compute. intros Hin. discriminate Hin.
Defined.

Lemma search_bounded_and_matching_witness :
  ∃ results,
    InvertedIndex.search Sample.shoes_index "red shoes" 10 = Returns results
    ∧ (0 ≤ 10 → Z.of_nat (length results) ≤ 10)
    ∧ (∀ doc_id score, (doc_id, score) ∈ results →
         ∃ tokens t,
           Sample.shoes_docs !! doc_id = Some tokens ∧ t ∈ tokens
           ∧ t ∈ Text.tokenize "red shoes")
    ∧ (Text.tokenize "red shoes" = [] → results = []).
Proof.
  apply (SearchFacts.search_bounded_and_matching
           Sample.shoes_index Sample.shoes_docs "red shoes" 10).
  apply shoes_index_tracked.
Defined.

(** A negative [limit] is no count, and the handler never passes one:
    the slice then counts from the end, and with two matching documents
    [search(q, -1)] drops the last candidate and returns the other. *)
Lemma search_negative_limit :
  ∃ results,
    InvertedIndex.search Sample.twin_index "x" (-1) = Returns results
    ∧ length results = 1%nat
    ∧ ¬ (Z.of_nat (length results) ≤ -1).
Proof.
  eexists. split; [vm_compute; reflexivity|]. split; [reflexivity|].
  simpl. lia.
Qed.

(** ** Strings *)

Lemma append_String c (s t : string) : String c s +:+ t = String c (s +:+ t).
Proof. reflexivity. Qed.

Lemma append_empty_l (t : string) : "" +:+ t = t.
Proof. reflexivity. Qed.

Lemma append_empty_r (s : string) : s +:+ "" = s.
Proof. induction s as [|c s IH]; [done|]. by rewrite append_String, IH. Qed.

Lemma append_assoc (a b c : string) : (a +:+ b) +:+ c = a +:+ (b +:+ c).
Proof. induction a as [|x a IH]; [done|]. by rewrite !append_String, IH. Qed.

Lemma append_cancel (a s1 s2 : string) : a +:+ s1 = a +:+ s2 → s1 = s2.
Proof.
  induction a as [|x a IH]; [done|]. rewrite !append_String. intros [= ?]. auto.
Qed.

Lemma prefix_spec (p w : string) :
  String.prefix p w = true ↔ ∃ s, w = p +:+ s.
Proof.
  revert w. induction p as [|c p IH]; intros [|c' w]; simpl.
  - split; [by exists "" | done].
  - split; [by exists (String c' w) | done].
  - split; [done | by intros [? ?]].
  - destruct (Ascii.ascii_dec c c') as [->|Hne].
    + rewrite IH. split; intros [s Hs]; exists s;
        rewrite ?append_String in *; congruence.
    + split; [done | intros [s [= ? ?]]; done].
Qed.

Lemma prefix_self_append (a s : string) : String.prefix a (a +:+ s) = true.
Proof. apply prefix_spec. by exists s. Qed.

Lemma prefix_longer (a p : string) c :
  String.prefix (a +:+ String c p) a = true → False.
Proof.
  intros [s Hs]%prefix_spec. rewrite append_assoc in Hs.
  rewrite <- (append_empty_r a) in Hs at 1.
  by apply append_cancel in Hs.
Qed.

Lemma prefix_branch (a p w : string) c c' :
  String.prefix (a +:+ String c' "") w = true →
  String.prefix ((a +:+ String c "") +:+ p) w = true → c = c'.
Proof.
  intros [s1 ->]%prefix_spec [s2 Hs]%prefix_spec.
  rewrite !append_assoc in Hs. apply append_cancel in Hs.
  rewrite !append_String in Hs. congruence.
Qed.

Lemma prefix_weaken (a b w : string) :
  String.prefix (a +:+ b) w = true → String.prefix a w = true.
Proof.
  intros [s ->]%prefix_spec. rewrite append_assoc. apply prefix_self_append.
Qed.

(** ** AutocompleteTrie *)

Lemma filter_none {A} (P : A → Prop) `{∀ x, Decision (P x)} (l : list A) :
  (∀ x, x ∈ l → ¬ P x) → filter P l = [].
Proof.
  induction l as [|x l IH]; intros Hl; [done|].
  rewrite filter_cons_False by (apply Hl; by left).
  apply IH. intros y Hy. apply Hl. by right.
Qed.

Lemma filter_all {A} (P : A → Prop) `{∀ x, Decision (P x)} (l : list A) :
  (∀ x, x ∈ l → P x) → filter P l = l.
Proof.
  induction l as [|x l IH]; intros Hl; [done|].
  rewrite filter_cons_True by (apply Hl; by left).
  f_equal. apply IH. intros y Hy. apply Hl. by right.
Qed.

Lemma upsert_Forall {A V} `{EqDecision A} (P : V → Prop) (k : A) dflt f
    (d : list (A * V)) :
  P (f dflt) → (∀ v, P v → P (f v)) →
  Forall (λ kv, P kv.2) d → Forall (λ kv, P kv.2) (upsert k dflt f d).
Proof.
  intros Hd Hf. induction 1 as [|[k' v] d Hv Hrest IH]; simpl.
  - by repeat constructor.
  - destruct (decide (k = k')); constructor; simpl in *; auto.
Qed.

Lemma upsert_NoDup {A V} `{EqDecision A} (k : A) (dflt : V) f (d : list (A * V)) :
  NoDup d.*1 → NoDup (upsert k dflt f d).*1.
Proof.
  intros Hd. rewrite upsert_keys. case_decide; [done|].
  apply NoDup_app. split; [done|]. split; [|apply NoDup_singleton].
  intros x Hx ->%list_elem_of_singleton. done.
Qed.

Module TrieFacts.
Import AutocompleteTrie.

Lemma TrieNode_ind (P : TrieNode → Prop) :
  (∀ cs w f, Forall (λ cn, P cn.2) cs → P (Node cs w f)) → ∀ node, P node.
Proof.
  intros step. fix rec 1. intros [cs w f]. apply step.
  induction cs as [|[c n] cs IH]; constructor; [apply rec | exact IH].
Qed.

Lemma wf_Node cs w f :
  wf (Node cs w f) ↔ NoDup cs.*1 ∧ Forall (λ cn, wf cn.2) cs.
Proof.
  simpl. apply and_iff_compat_l.
  induction cs as [|cn cs IH]; simpl; [by split|].
  rewrite Forall_cons, IH. done.
Qed.

Lemma wf_empty_node : wf empty_node.
Proof. apply wf_Node. split; [apply NoDup_nil_2 | constructor]. Qed.

Lemma insert_at_wf word freq node : wf node → wf (insert_at word freq node).
Proof.
  revert node. induction word as [|c word IH]; intros [cs w f];
    cbn [insert_at children is_word frequency].
  - by rewrite !wf_Node.
  - intros [Hk Hc]%wf_Node. apply wf_Node. split.
    + by apply upsert_NoDup.
    + apply (upsert_Forall wf); [apply IH, wf_empty_node | apply IH | done].
Qed.

Lemma reachable_wf root : reachable root → wf root.
Proof.
  induction 1; [apply wf_empty_node | by apply insert_at_wf].
Qed.

Lemma child_elem char cs node : child char cs = Some node → (char, node) ∈ cs.
Proof.
  induction cs as [|[c n] cs IH]; simpl; [done|].
  destruct (decide (char = c)) as [->|]; [intros [= ->]; by left|].
  intros Hc. right. by apply IH.
Qed.

Lemma child_absent char cs : char ∉ cs.*1 → child char cs = None.
Proof.
  induction cs as [|[c n] cs IH]; simpl; [done|].
  intros Hc. destruct (decide (char = c)) as [->|].
  - destruct Hc. by left.
  - apply IH. intros ?. apply Hc. by right.
Qed.

(** Every word met below [node] extends the string that leads to it. *)
Lemma words_below_extend node :
  ∀ a e, e ∈ words_below node a → String.prefix a e.1 = true.
Proof.
  induction node as [cs w f IH] using TrieNode_ind. intros a e. simpl.
  intros [He|He]%elem_of_app.
  - destruct w; [|by apply elem_of_nil in He].
    apply list_elem_of_singleton in He as ->. simpl.
    rewrite <- (append_empty_r a) at 2. apply prefix_self_append.
  - apply list_elem_of_In, in_flat_map in He as ([c n] & Hcn & He).
    rewrite List.Forall_forall in IH. specialize (IH _ Hcn). simpl in IH.
    apply list_elem_of_In, IH in He. by eapply prefix_weaken.
Qed.

(** Filtering the words below the children of a node by a property that
    only words below the child [char] can have. *)
Lemma filter_children (P : string * Z → Prop) `{∀ e, Decision (P e)}
    (g : ascii * TrieNode → list (string * Z)) char cs :
  NoDup cs.*1 →
  (∀ c n e, (c, n) ∈ cs → c ≠ char → e ∈ g (c, n) → ¬ P e) →
  filter P (flat_map g cs)
  = match child char cs with
    | Some n => filter P (g (char, n))
    | None => []
    end.
Proof.
  induction cs as [|[c n] cs IH]; intros Hk Hother; [done|].
  simpl in *. apply NoDup_cons in Hk as [Hc Hk]. rewrite filter_app.
  destruct (decide (char = c)) as [->|Hne].
  - rewrite IH, (child_absent c cs), app_nil_r; [done..|].
    intros c' n' e Hin. apply Hother. by right.
  - rewrite (filter_none P (g (c, n))).
    + apply IH; [done|]. intros c' n' e Hin. apply Hother. by right.
    + intros e He. apply (Hother c n); [by left | done | done].
Qed.

(** The words collected under the node a prefix leads to are the words
    of the whole subtree that start with the prefix, in the same order. *)
Lemma words_below_descend prefix :
  ∀ node a, wf node →
  filter (λ e, String.prefix (a +:+ prefix) e.1 = true) (words_below node a)
  = match descend prefix node with
    | Some node' => words_below node' (a +:+ prefix)
    | None => []
    end.
Proof.
  induction prefix as [|char prefix IH]; intros node a Hwf.
  - rewrite append_empty_r. simpl. apply filter_all.
    intros e. apply words_below_extend.
  - destruct node as [cs w f]. apply wf_Node in Hwf as [Hk Hc].
    assert (a +:+ String char prefix = (a +:+ String char "") +:+ prefix) as Ha.
    { by rewrite append_assoc, append_String. }
    simpl. rewrite filter_app.
    rewrite (filter_none _ (if w then _ else _)); last first.
    { intros e He. destruct w; [|by apply elem_of_nil in He].
      apply list_elem_of_singleton in He as ->. simpl.
      intros Hp. by apply prefix_longer in Hp. }
    simpl. rewrite (filter_children _ _ char) by
      (try done; intros c n e Hin Hne He Hp;
       apply words_below_extend in He; rewrite Ha in Hp;
       by pose proof (prefix_branch _ _ _ _ _ He Hp)).
    destruct (child char cs) as [n|] eqn:E; [|done].
    rewrite Ha. apply IH.
    apply child_elem in E. rewrite Forall_forall in Hc. by apply (Hc _ E).
Qed.

(** *** The depth of the traversal *)

Lemma lower_length (s : string) :
  String.length (Text.lower s) = String.length s.
Proof. induction s as [|c s IH]; simpl; [done | by rewrite IH]. Qed.

Lemma for_each_collect depth a (cs : list (ascii * TrieNode)) :
  Forall (λ cn, ∀ a suggestions,
            collect_words depth cn.2 a suggestions
            = if (height cn.2 <=? depth)%nat
              then Returns (suggestions ++ words_below cn.2 a)%list
              else Raises RecursionError) cs →
  ∀ suggestions,
    for_each (λ suggestions '(char, child),
                collect_words depth child (a +:+ String char "") suggestions)
             suggestions cs
    = if (fold_right (λ cn h, Nat.max (height cn.2) h) O cs <=? depth)%nat
      then Returns
             (suggestions
              ++ flat_map (λ '(char, n), words_below n (a +:+ String char "")) cs)%list
      else Raises RecursionError.
Proof.
  induction 1 as [|[c n] cs Hn _ IH]; intros suggestions.
  - simpl. by rewrite app_nil_r.
  - cbn [for_each fold_right flat_map snd]. simpl in Hn. rewrite Hn.
    destruct (Nat.leb_spec (height n) depth) as [Hle|Hgt].
    + cbn [mbind outcome_bind]. rewrite IH.
      destruct (Nat.leb_spec (fold_right (λ cn h, Nat.max (height cn.2) h) O cs)
                             depth) as [Hle'|Hgt'].
      * rewrite (proj2 (Nat.leb_le _ _)) by lia. by rewrite app_assoc.
      * by rewrite (proj2 (Nat.leb_gt _ _)) by lia.
    + cbn [mbind outcome_bind].
      by rewrite (proj2 (Nat.leb_gt _ _)) by lia.
Qed.

(** [_collect_words] returns exactly when the calls that are left cover
    the levels below the node; it has then appended the words below the
    node, and otherwise it raises [RecursionError]. *)
Lemma collect_words_outcome node : ∀ depth a suggestions,
  collect_words depth node a suggestions
  = if (height node <=? depth)%nat
    then Returns (suggestions ++ words_below node a)%list
    else Raises RecursionError.
Proof.
  induction node as [cs w f IH] using TrieNode_ind.
  intros [|depth] a suggestions; [done|].
  cbn [collect_words children is_word frequency].
  rewrite for_each_collect.
  2:{ eapply Forall_impl; [exact IH|]. intros cn Hcn a' s'. apply Hcn. }
  change (height (Node cs w f) <=? S depth)%nat
    with (fold_right (λ cn h, Nat.max (height cn.2) h) O cs <=? depth)%nat.
  destruct (_ <=? _)%nat; [|done].
  cbn [words_below]. destruct w; by rewrite <- ?app_assoc.
Qed.

Lemma collect_words_returns node depth a suggestions :
  (height node ≤ depth)%nat →
  collect_words depth node a suggestions
  = Returns (suggestions ++ words_below node a)%list.
Proof.
  intros Hd. rewrite collect_words_outcome.
  by rewrite (proj2 (Nat.leb_le _ _)).
Qed.

Lemma collect_words_raises node depth a suggestions :
  (depth < height node)%nat →
  collect_words depth node a suggestions = Raises RecursionError.
Proof.
  intros Hd. rewrite collect_words_outcome.
  by rewrite (proj2 (Nat.leb_gt _ _)).
Qed.

(** The answer of [search_prefix] for a prefix that is not empty. *)
Lemma search_prefix_outcome `{CallStack} root prefix limit :
  prefix ≠ "" →
  search_prefix root prefix limit
  = if (frames_needed root (Text.lower prefix) <=? frames_left)%nat
    then Returns (ranked_below root (Text.lower prefix) limit)
    else Raises RecursionError.
Proof.
  intros Hp. unfold search_prefix, frames_needed, ranked_below.
  destruct prefix as [|c prefix]; [done|]. cbv zeta.
  destruct (descend _ root) as [node|]; [|done].
  rewrite collect_words_outcome.
  by destruct (_ <=? _)%nat.
Qed.

Lemma search_prefix_returns `{CallStack} root prefix limit suggestions :
  search_prefix root prefix limit = Returns suggestions →
  suggestions = match prefix with
                | "" => []
                | _ => ranked_below root (Text.lower prefix) limit
                end.
Proof.
  destruct prefix as [|c prefix]; [by intros [= <-]|].
  rewrite search_prefix_outcome by done.
  destruct (_ <=? _)%nat; [by intros [= <-] | done].
Qed.

Lemma child_height char cs w f node :
  child char cs = Some node → (height node < height (Node cs w f))%nat.
Proof.
  intros Hc%child_elem. simpl. apply Nat.lt_succ_r.
  induction cs as [|cn cs IH]; [by apply elem_of_nil in Hc|].
  apply elem_of_cons in Hc as [<-|Hc]; simpl; [lia|].
  specialize (IH Hc). lia.
Qed.

(** A node [word] leads to lies as many levels down as [word] is long. *)
Lemma descend_height word : ∀ node node',
  descend word node = Some node' →
  (height node' + String.length word ≤ height node)%nat.
Proof.
  induction word as [|c word IH]; intros [cs w f] node'.
  - intros [= <-]. simpl. lia.
  - cbn [descend children]. destruct (child c cs) as [m|] eqn:Ec; [|done].
    intros Hd%IH. apply (child_height _ _ w f) in Ec.
    cbn [String.length]. lia.
Qed.

Lemma height_pos node : (1 ≤ height node)%nat.
Proof. destruct node. simpl. lia. Qed.

Lemma descend_app p s : ∀ node,
  descend (p +:+ s) node = node' ← descend p node; descend s node'.
Proof.
  induction p as [|c p IH]; intros node; [done|].
  rewrite append_String. cbn [descend].
  destruct (child c (children node)); [apply IH | done].
Qed.

(** A word of the trie takes one call for its last node and one for
    every letter after the prefix. *)
Lemma frames_needed_word root prefix word node :
  descend word root = Some node →
  String.prefix prefix word = true →
  (String.length word < frames_needed root prefix + String.length prefix)%nat.
Proof.
  intros Hd [s ->]%prefix_spec. rewrite descend_app in Hd.
  unfold frames_needed. destruct (descend prefix root) as [m|]; [|done].
  simpl in Hd. apply descend_height in Hd.
  pose proof (height_pos node).
  assert (String.length (prefix +:+ s)
          = (String.length prefix + String.length s)%nat) as ->.
  { clear. induction prefix as [|c p IH]; [done|].
    rewrite append_String. simpl. by rewrite IH. }
  lia.
Qed.

Lemma prefix_refl (s : string) : String.prefix s s = true.
Proof. rewrite <- (append_empty_r s) at 2. apply prefix_self_append. Qed.

(** A node lists its own string exactly when it is marked. *)
Lemma words_below_own node s f :
  (s, f) ∈ words_below node s ↔ is_word node = true ∧ frequency node = f.
Proof.
  destruct node as [cs w fr]. simpl. rewrite elem_of_app. split.
  - intros [Hown|Hsub].
    + destruct w; [|by apply elem_of_nil in Hown].
      apply list_elem_of_singleton in Hown. by injection Hown as <-.
    + apply list_elem_of_In, in_flat_map in Hsub as ([c n] & _ & Hin).
      apply list_elem_of_In, words_below_extend in Hin. simpl in Hin.
      by apply prefix_longer in Hin.
  - intros [-> <-]. left. by apply list_elem_of_singleton.
Qed.

Lemma descend_wf prefix : ∀ node node',
  wf node → descend prefix node = Some node' → wf node'.
Proof.
  induction prefix as [|c prefix IH]; intros node node' Hwf; simpl.
  - by intros [= <-].
  - destruct node as [cs w f]. apply wf_Node in Hwf as [_ Hc]. simpl.
    destruct (child c cs) as [m|] eqn:E; [|done].
    apply IH. apply child_elem in E. rewrite Forall_forall in Hc.
    by apply (Hc _ E).
Qed.

Lemma words_below_elem node a word f :
  wf node →
  (a +:+ word, f) ∈ words_below node a
  ↔ ∃ node', descend word node = Some node'
             ∧ is_word node' = true ∧ frequency node' = f.
Proof.
  intros Hwf.
  pose proof (words_below_descend word node a Hwf) as Hd.
  assert ((a +:+ word, f) ∈ words_below node a
          ↔ (a +:+ word, f)
              ∈ filter (λ e : string * Z, String.prefix (a +:+ word) e.1 = true)
                  (words_below node a)) as ->.
  { rewrite list_elem_of_filter. simpl. rewrite prefix_refl. tauto. }
  rewrite Hd. destruct (descend word node) as [node'|].
  - rewrite words_below_own. split; [eauto|].
    by intros (? & [= <-] & ?).
  - split; [by intros ?%elem_of_nil | by intros (? & ? & _)].
Qed.

(** *** Words and levels *)

Lemma pruned_Node cs w f :
  pruned (Node cs w f)
  ↔ Forall (λ cn, (is_word cn.2 = true ∨ children cn.2 ≠ []) ∧ pruned cn.2) cs.
Proof.
  simpl. induction cs as [|cn cs IH]; simpl; [by split|].
  rewrite Forall_cons, IH. tauto.
Qed.

Lemma insert_at_live word freq node :
  is_word (insert_at word freq node) = true
  ∨ children (insert_at word freq node) ≠ [].
Proof.
  destruct word as [|c word]; [by left|]. right. simpl. apply upsert_not_nil.
Qed.

Lemma insert_at_pruned word freq : ∀ node,
  pruned node → pruned (insert_at word freq node).
Proof.
  induction word as [|c word IH]; intros [cs w f];
    cbn [insert_at children is_word frequency].
  - by rewrite !pruned_Node.
  - intros Hc%pruned_Node. apply pruned_Node.
    apply (upsert_Forall
             (λ n, (is_word n = true ∨ children n ≠ []) ∧ pruned n)).
    + split; [apply insert_at_live|]. apply IH. by apply pruned_Node.
    + intros v [_ Hv]. split; [apply insert_at_live | by apply IH].
    + done.
Qed.

Lemma reachable_pruned root : reachable root → pruned root.
Proof.
  induction 1; [by apply pruned_Node | by apply insert_at_pruned].
Qed.

Lemma child_lookup char node (cs : list (ascii * TrieNode)) :
  NoDup cs.*1 → (char, node) ∈ cs → child char cs = Some node.
Proof.
  induction cs as [|[c n] cs IH]; intros Hnd Hin; [by apply elem_of_nil in Hin|].
  simpl in Hnd. apply NoDup_cons in Hnd as [Hc Hnd]. simpl.
  apply elem_of_cons in Hin as [[= -> ->]|Hin]; [by rewrite decide_True|].
  rewrite decide_False; [by apply IH|].
  intros ->. apply Hc. apply list_elem_of_fmap. by exists (c, node).
Qed.

(** Some child is as high as the highest. *)
Lemma highest_child (cs : list (ascii * TrieNode)) h :
  fold_right (λ cn h, Nat.max (height cn.2) h) O cs = S h →
  ∃ c n, (c, n) ∈ cs ∧ height n = S h.
Proof.
  induction cs as [|[c n] cs IH]; [done|]. cbn [fold_right snd].
  intros Hmax.
  destruct (Nat.max_spec (height n)
              (fold_right (λ cn h, Nat.max (height cn.2) h) O cs))
    as [[_ Heq]|[_ Heq]]; rewrite Heq in Hmax.
  - destruct (IH Hmax) as (c' & n' & Hin & Hh). exists c', n'.
    split; [by right | done].
  - exists c, n. split; [by left | done].
Qed.

(** A node with levels below it has a word on its lowest level. *)
Lemma deepest_word_below node : ∀ h,
  wf node → pruned node → height node = S (S h) →
  ∃ word node',
    String.length word = S h
    ∧ descend word node = Some node' ∧ is_word node' = true.
Proof.
  induction node as [cs w f IH] using TrieNode_ind.
  intros h [Hk Hwf]%wf_Node Hpr%pruned_Node [= Hh].
  destruct (highest_child cs h Hh) as (c & n & Hin & Hn).
  rewrite List.Forall_forall in IH. rewrite Forall_forall in Hwf, Hpr.
  pose proof (child_lookup c n cs Hk Hin) as Hc.
  destruct (Hpr _ Hin) as [Hlive Hprn]. simpl in Hlive, Hprn.
  destruct h as [|h].
  - exists (String c ""), n. split; [done|].
    cbn [descend children]. rewrite Hc. split; [done|].
    destruct Hlive as [?|Hcs]; [done|]. destruct n as [[|cn' cs'] w' f']; [done|].
    simpl in Hn. pose proof (height_pos cn'.2). lia.
  - destruct (IH (c, n) (proj1 (list_elem_of_In _ _) Hin) h (Hwf _ Hin) Hprn Hn)
      as (word & node' & Hlen & Hd & Hw).
    exists (String c word), node'. split; [by simpl; rewrite Hlen|].
    cbn [descend children]. by rewrite Hc.
Qed.

Lemma descend_pruned prefix : ∀ node node',
  pruned node → descend prefix node = Some node' → prefix ≠ "" →
  (is_word node' = true ∨ children node' ≠ []) ∧ pruned node'.
Proof.
  induction prefix as [|c prefix IH]; intros [cs w f] node' Hpr Hd Hne; [done|].
  cbn [descend children] in Hd.
  destruct (child c cs) as [m|] eqn:Ec; [|done].
  apply child_elem in Ec. apply pruned_Node in Hpr.
  rewrite Forall_forall in Hpr. destruct (Hpr _ Ec) as [Hlive Hm].
  destruct prefix as [|c' prefix]; [by injection Hd as <-|].
  by apply (IH m).
Qed.

Lemma length_append (s t : string) :
  String.length (s +:+ t) = (String.length s + String.length t)%nat.
Proof.
  induction s as [|c s IH]; [done|]. rewrite append_String. simpl. by rewrite IH.
Qed.

(** On a trie built by [insert], the traversal below a prefix is as deep
    as the longest word with the prefix is long after it, and one more. *)
Lemma deepest_word root prefix h :
  wf root → pruned root → prefix ≠ "" →
  frames_needed root prefix = S h →
  ∃ e, e ∈ words_with_prefix root prefix
       ∧ String.length e.1 = (String.length prefix + h)%nat.
Proof.
  intros Hwf Hpr Hne. unfold frames_needed.
  destruct (descend prefix root) as [m|] eqn:Ed; [|done]. intros Hh.
  destruct (descend_pruned prefix root m Hpr Ed Hne) as [Hlive Hprm].
  pose proof (descend_wf prefix root m Hwf Ed) as Hwfm.
  assert (∀ word node', descend word m = Some node' → is_word node' = true →
            (prefix +:+ word, frequency node') ∈ words_with_prefix root prefix)
    as Hword.
  { intros word node' Hd Hw. apply list_elem_of_filter. split.
    - apply prefix_self_append.
    - pose proof (words_below_elem root "" (prefix +:+ word) (frequency node') Hwf)
        as Hel.
      rewrite append_empty_l in Hel. apply Hel. exists node'.
      rewrite descend_app, Ed. by repeat split. }
  destruct h as [|h].
  - exists (prefix, frequency m). split; [|simpl; lia].
    rewrite <- (append_empty_r prefix) at 1. apply Hword; [done|].
    destruct Hlive as [?|Hcs]; [done|].
    destruct m as [[|cn cs] w f]; [done|]. simpl in Hh.
    pose proof (height_pos cn.2). lia.
  - destruct (deepest_word_below m h Hwfm Hprm Hh) as (word & node' & Hlen & Hd & Hw).
    exists (prefix +:+ word, frequency node'). split; [by apply Hword|].
    simpl. by rewrite length_append, Hlen.
Qed.

(** Every word with the prefix takes a call for each of its letters
    after the prefix, and one more. *)
Lemma words_need_frames root prefix e :
  wf root → e ∈ words_with_prefix root prefix →
  (String.length e.1 < frames_needed root prefix + String.length prefix)%nat.
Proof.
  intros Hwf [Hp Hin]%list_elem_of_filter. destruct e as [word f].
  pose proof (words_below_elem root "" word f Hwf) as Hel.
  rewrite append_empty_l in Hel. apply Hel in Hin as (node & Hd & _).
  by eapply frames_needed_word.
Qed.

(** [search_prefix] returns when every word with the prefix has fewer
    letters after the prefix than calls are left, and raises otherwise. *)
Lemma search_prefix_fits `{CallStack} root prefix limit :
  reachable root → prefix ≠ "" →
  let fits := ∀ e, e ∈ words_with_prefix root (Text.lower prefix) →
                (String.length e.1 < frames_left + String.length prefix)%nat in
  (fits →
   search_prefix root prefix limit
   = Returns (ranked_below root (Text.lower prefix) limit))
  ∧ (¬ fits → search_prefix root prefix limit = Raises RecursionError).
Proof.
  intros Hr Hne fits.
  pose proof (reachable_wf root Hr) as Hwf.
  pose proof (reachable_pruned root Hr) as Hpr.
  assert (Text.lower prefix ≠ "") as Hlow by (by destruct prefix).
  rewrite search_prefix_outcome by done.
  destruct (Nat.leb_spec (frames_needed root (Text.lower prefix)) frames_left)
    as [Hle|Hgt].
  - split; [done|]. intros Hno. destruct Hno. intros e He.
    apply (words_need_frames _ _ _ Hwf) in He.
    rewrite lower_length in He. lia.
  - split; [|done]. intros Hfits.
    destruct (frames_needed root (Text.lower prefix)) as [|h] eqn:Eh; [lia|].
    destruct (deepest_word root (Text.lower prefix) h Hwf Hpr Hlow Eh)
      as (e & He & Hlen).
    apply Hfits in He. rewrite Hlen, lower_length in He. lia.
Qed.

(** An exception of [search_prefix] is a [RecursionError], met on the
    way to a word that is too long. *)
Lemma search_prefix_raises `{CallStack} root prefix limit e :
  reachable root →
  search_prefix root prefix limit = Raises e →
  e = RecursionError
  ∧ ∃ w, w ∈ words_with_prefix root (Text.lower prefix)
         ∧ (frames_left + String.length prefix ≤ String.length w.1)%nat.
Proof.
  intros Hr. destruct prefix as [|c prefix]; [done|].
  rewrite search_prefix_outcome by done.
  destruct (Nat.leb_spec (frames_needed root (Text.lower (String c prefix)))
                         frames_left) as [Hle|Hgt]; [done|].
  intros [= <-]. split; [done|].
  destruct (frames_needed root (Text.lower (String c prefix))) as [|h] eqn:Eh;
    [lia|].
  destruct (deepest_word root (Text.lower (String c prefix)) h
              (reachable_wf root Hr) (reachable_pruned root Hr)
              ltac:(done) Eh) as (w & Hw & Hlen).
  exists w. split; [done|]. rewrite Hlen, lower_length. lia.
Qed.

(** The traversal from the root has the calls it needs when there is
    one, and every word of the trie has fewer letters than there are. *)
Lemma collect_words_fits depth root :
  reachable root →
  (height root ≤ depth)%nat
  ↔ (1 ≤ depth)%nat
    ∧ ∀ word node,
        descend word root = Some node → is_word node = true →
        (String.length word < depth)%nat.
Proof.
  intros Hr. split.
  - intros Hd. pose proof (height_pos root). split; [lia|].
    intros word node Hw%descend_height _. pose proof (height_pos node). lia.
  - intros [Hone Hall]. destruct (height root) as [|[|h]] eqn:Eh; [lia|lia|].
    destruct (deepest_word_below root h (reachable_wf root Hr)
                (reachable_pruned root Hr) Eh)
      as (word & node' & Hlen & Hd & Hw).
    specialize (Hall word node' Hd Hw). lia.
Qed.

End TrieFacts.

(** Sorting by an integer key. *)
Lemma sort_desc_Z_sorted {A} (key : A → Z) (l : list A) :
  StronglySorted (λ a b, key b ≤ key a) (sort_desc Z.ltb key l).
Proof.
  apply (sort_desc_sorted Z.ltb key (λ x y, y ≤ x)).
  - intros a b ?%Z.ltb_lt. lia.
  - intros a b ?%Z.ltb_ge. lia.
  - intros a b c. lia.
Qed.

Lemma sort_desc_Z_stable {A} (key : A → Z) (k : Z) (l : list A) :
  filter (λ e, key e = k) (sort_desc Z.ltb key l) = filter (λ e, key e = k) l.
Proof. apply sort_desc_stable, Z.ltb_irrefl. Qed.

(** What [ranked_below] lists on a trie with one entry per key. *)
Lemma ranked_below_words root prefix limit :
  AutocompleteTrie.wf root →
  AutocompleteTrie.ranked_below root prefix limit
  = map fst (slice_to limit
               (sort_desc Z.ltb snd
                  (AutocompleteTrie.words_with_prefix root prefix))).
Proof.
  intros Hwf.
  unfold AutocompleteTrie.ranked_below, AutocompleteTrie.words_with_prefix.
  pose proof (TrieFacts.words_below_descend prefix root "" Hwf) as Hd.
  rewrite append_empty_l in Hd. rewrite Hd.
  destruct (AutocompleteTrie.descend _ root); [done|].
  simpl. by rewrite slice_to_nil.
Qed.

(** C5, as the code has it: for a trie built by [insert] and a prefix
    that is not empty, let [ranked] be the words of the trie that start
    with the lower-cased prefix, in descending order of frequency, words
    of equal frequency staying in the order the traversal of the trie
    meets them (not in lexical order).  When every such word has fewer
    letters after the prefix than calls can still nest, [search_prefix]
    returns the words of the slice [[:limit]] of [ranked] (the first
    [limit] for [limit >= 0]); when one of them has not, it raises
    [RecursionError].  On the trie with ten "camera" and one "camisole"
    the prefix "cam" gives "camera" before "camisole", six calls being
    enough. *)
Theorem search_prefix_by_frequency `{CallStack} root prefix limit :
  AutocompleteTrie.reachable root →
  prefix ≠ "" →
  let matching := AutocompleteTrie.words_with_prefix root (Text.lower prefix) in
  let fits := ∀ e, e ∈ matching →
                (String.length e.1 < frames_left + String.length prefix)%nat in
  ∃ ranked,
    ranked ≡ₚ matching
    ∧ StronglySorted (λ a b, b.2 ≤ a.2) ranked
    ∧ (∀ freq, filter (λ e, e.2 = freq) ranked = filter (λ e, e.2 = freq) matching)
    ∧ (fits →
       AutocompleteTrie.search_prefix root prefix limit
       = Returns (map fst (slice_to limit ranked)))
    ∧ (¬ fits →
       AutocompleteTrie.search_prefix root prefix limit = Raises RecursionError)
    ∧ ((6 ≤ frames_left)%nat →
       AutocompleteTrie.search_prefix TrieSample.camera_trie "cam" 5
       = Returns ["camera"; "camisole"]).
Proof.
  intros Hr Hp matching fits.
  pose proof (TrieFacts.reachable_wf root Hr) as Hwf.
  exists (sort_desc Z.ltb snd matching).
  split; [apply sort_desc_perm|]. split; [apply sort_desc_Z_sorted|].
  split; [intros freq; apply (sort_desc_Z_stable snd)|].
  destruct (TrieFacts.search_prefix_fits root prefix limit Hr Hp)
    as [Hfits Hdeep].
  split; [|split; [exact Hdeep|]].
  - intros Hf. rewrite (Hfits Hf). by rewrite ranked_below_words.
  - intros Hsix. rewrite TrieFacts.search_prefix_outcome by done.
    change (AutocompleteTrie.frames_needed TrieSample.camera_trie
              (Text.lower "cam")) with 6%nat.
    rewrite (proj2 (Nat.leb_le _ _)) by done.
    f_equal.
Qed.

Lemma search_prefix_by_frequency_witness :
  ∃ ranked,
    ranked ≡ₚ AutocompleteTrie.words_with_prefix TrieSample.tie_trie "c"
    ∧ StronglySorted (λ a b, b.2 ≤ a.2) ranked
    ∧ (∀ freq, filter (λ e, e.2 = freq) ranked
               = filter (λ e, e.2 = freq)
                   (AutocompleteTrie.words_with_prefix TrieSample.tie_trie "c"))
    ∧ AutocompleteTrie.search_prefix TrieSample.tie_trie "C" 1
      = Returns (map fst (slice_to 1 ranked))
    ∧ @AutocompleteTrie.search_prefix shallow_stack TrieSample.camera_trie "cam" 5
      = Raises RecursionError
    ∧ AutocompleteTrie.search_prefix TrieSample.camera_trie "cam" 5
      = Returns ["camera"; "camisole"].
Proof.
  destruct (search_prefix_by_frequency (H := server_stack)
              TrieSample.tie_trie "C" 1)
    as (ranked & Hperm & Hsorted & Hstable & Hanswer & _ & Hcamera).
  { repeat constructor. }
  { discriminate. }
  destruct (search_prefix_by_frequency (H := shallow_stack)
              TrieSample.camera_trie "cam" 5)
    as (_ & _ & _ & _ & _ & Hdeep & _).
  { apply (AutocompleteTrie.reachable_insert "camisole" 1).
    do 10 apply (AutocompleteTrie.reachable_insert "camera" 1).
    constructor. }
  { discriminate. }
  exists ranked. split; [exact Hperm|]. split; [exact Hsorted|].
  split; [exact Hstable|]. split; [|split].
  - apply Hanswer. intros e He.
    apply (proj1 (Forall_forall
                    (λ e : string * Z, (String.length e.1 < 901)%nat)
                    [("cb", 1); ("ca", 1)])); [|exact He].
    repeat constructor; simpl; lia.
  - apply Hdeep. intros Hfits.
    specialize (Hfits ("camisole", 1)).
    assert (8 < 6)%nat as Hlt; [|lia].
    apply Hfits. vm_compute. right. left.
  - apply Hcamera. apply Nat.leb_le. reflexivity.
Defined.

(** C5 as stated fails on ties: "cb" and "ca" both have frequency 1, "ca"
    is the smaller word, and "cb", inserted first, is returned first. *)
Lemma search_prefix_tie_order :
  AutocompleteTrie.search_prefix TrieSample.tie_trie "c" 5
  = Returns ["cb"; "ca"]
  ∧ AutocompleteTrie.collect_words frames_left TrieSample.tie_trie "" []
    = Returns [("cb", 1); ("ca", 1)]
  ∧ String.ltb "ca" "cb" = true.
Proof. vm_compute. repeat split. Qed.

(** ** RecommendationEngine *)

Module RecommendationFacts.
Import RecommendationEngine.

Lemma view_ok product_id E other_id :
  counters_ok E → counters_ok (view product_id E other_id).
Proof.
  intros HE. unfold view. case_decide as Hne; [|done].
  intros a counter. simpl. destruct (decide (product_id = a)) as [->|Ha].
  - rewrite lookup_insert_eq. intros [= <-].
    assert (NoDup (default [] (view_matrix E !! a)).*1
            ∧ a ∉ (default [] (view_matrix E !! a)).*1) as [Hnd Hself].
    { destruct (view_matrix E !! a) as [c|] eqn:Ec; simpl.
      - by destruct (HE a c Ec) as (_ & ? & ?).
      - split; [apply NoDup_nil_2 | apply not_elem_of_nil]. }
    split; [apply upsert_not_nil|]. split; [by apply upsert_NoDup|].
    rewrite upsert_keys. case_decide; [done|].
    intros [?| ->%list_elem_of_singleton]%elem_of_app; done.
  - rewrite lookup_insert_ne by done. apply HE.
Qed.

Lemma record_view_ok product_id session_products E :
  counters_ok E → counters_ok (record_view product_id session_products E).
Proof.
  unfold record_view. revert E.
  induction session_products as [|other_id l IH]; intros E HE; simpl; [done|].
  by apply IH, view_ok.
Qed.

(** [add_product_metadata] leaves the counters alone and writes the
    category sets, however it ends. *)
Lemma add_product_metadata_views product_id categories price_cents E :
  view_matrix (snd (add_product_metadata product_id categories price_cents E))
  = view_matrix E.
Proof. unfold add_product_metadata. by destruct (price_range _). Qed.

Lemma add_product_metadata_categories product_id categories price_cents E :
  category_matrix (snd (add_product_metadata product_id categories price_cents E))
  = foldl (λ cm category,
             <[Text.lower category :=
                 default ∅ (cm !! Text.lower category) ∪ {[product_id]}]> cm)
          (category_matrix E) categories.
Proof. unfold add_product_metadata. by destruct (price_range _). Qed.

Lemma reachable_ok E : reachable E → counters_ok E.
Proof.
  induction 1 as [|E a l _ IH|E a cs price _ IH].
  - intros a counter Hl. simpl in Hl. by rewrite lookup_empty in Hl.
  - by apply record_view_ok.
  - unfold counters_ok. by rewrite add_product_metadata_views.
Qed.

Lemma most_common_keys n (counter : list (string * Z)) :
  NoDup counter.*1 → NoDup (map fst (most_common n counter)).
Proof.
  intros Hnd. unfold most_common. rewrite <- firstn_map.
  apply firstn_NoDup.
  assert (map fst (sort_desc Z.ltb snd counter) ≡ₚ counter.*1) as ->; [|done].
  rewrite (sort_desc_perm Z.ltb snd counter) at 1.
  clear. induction counter; simpl; [done | by f_equal].
Qed.

Lemma most_common_elem n (counter : list (string * Z)) e :
  e ∈ most_common n counter → e ∈ counter.
Proof. by intros He%firstn_elem%sort_desc_elem. Qed.

Section WithSetIter.
Context `{SetIter}.

(** The fallback loop never adds the focus product. *)
Lemma fill_not_focus E product_id limit cats :
  ∀ recommendations reason,
    product_id ∉ recommendations →
    product_id ∉ (fill E product_id limit cats recommendations reason).1.
Proof.
  induction cats as [|category cats IH]; intros recs reason Hrecs; simpl; [done|].
  assert (product_id ∉
    (recs ++ filter (λ pid, pid ≠ product_id)
       (set_order (default ∅ (category_matrix E !! Text.lower category))))%list)
    as Hnew.
  { intros [?|Hin]%elem_of_app; [done|].
    by apply list_elem_of_filter in Hin as [? _]. }
  destruct (limit <=? _); simpl.
  - intros Hin%slice_to_elem. done.
  - by apply IH.
Qed.

Lemma coviewed_not_focus E product_id limit :
  counters_ok E → product_id ∉ coviewed E product_id limit.
Proof.
  intros HE. unfold coviewed.
  destruct (view_matrix E !! product_id) as [counter|] eqn:Ec;
    [|apply not_elem_of_nil].
  destruct (HE _ _ Ec) as (_ & _ & Hself).
  intros Hin. apply list_elem_of_In, in_map_iff in Hin as ([p c] & <- & Hin).
  apply list_elem_of_In, most_common_elem in Hin.
  apply Hself. apply list_elem_of_fmap. by exists (p, c).
Qed.

Lemma coviewed_NoDup E product_id limit :
  counters_ok E → NoDup (coviewed E product_id limit).
Proof.
  intros HE. unfold coviewed.
  destruct (view_matrix E !! product_id) as [counter|] eqn:Ec;
    [|apply NoDup_nil_2].
  destruct (HE _ _ Ec) as (_ & Hnd & _). by apply most_common_keys.
Qed.

(** [get_recommendations] starts from the co-view part and, when that is
    short and the product is in the store, goes through the fallback. *)
Lemma get_recommendations_unfold E store product_id limit :
  ∃ reason0,
    (coviewed E product_id limit ≠ [] → reason0 = "frequently viewed together")
    ∧ get_recommendations E store product_id limit
      = if Z.of_nat (length (coviewed E product_id limit)) <? limit then
          match store !! product_id with
          | Some product =>
              fill E product_id limit (categories product)
                   (coviewed E product_id limit) reason0
          | None => (coviewed E product_id limit, reason0)
          end
        else (coviewed E product_id limit, reason0).
Proof.
  unfold get_recommendations, coviewed.
  destruct (view_matrix E !! product_id) as [counter|]; [|by exists ""].
  destruct (most_common limit counter) as [|e l]; [by exists ""|].
  by exists "frequently viewed together".
Qed.

(** C8, as the code has it: on a reachable engine the list never holds
    the focus id; it is free of duplicates when it is the co-view list
    alone, which is the case when the product is not in the store or the
    co-view list already has [limit] entries.  (The fallback appends the
    members of each category as they come.) *)
Theorem recommendations_exclude_focus E store product_id limit :
  reachable E →
  let recommendations := (get_recommendations E store product_id limit).1 in
  (product_id ∉ recommendations)
  ∧ ((store !! product_id = None)
     ∨ limit ≤ Z.of_nat (length (coviewed E product_id limit)) →
     recommendations = coviewed E product_id limit ∧ NoDup recommendations).
Proof.
  intros HE%reachable_ok. simpl.
  destruct (get_recommendations_unfold E store product_id limit)
    as (reason0 & _ & ->).
  pose proof (coviewed_not_focus E product_id limit HE) as Hfocus.
  pose proof (coviewed_NoDup E product_id limit HE) as Hnd.
  split.
  - destruct (_ <? limit); [|done].
    destruct (store !! product_id); [|done]. by apply fill_not_focus.
  - intros Hcase. destruct (Z.ltb_spec (Z.of_nat (length (coviewed E product_id limit))) limit);
      [|done].
    destruct Hcase as [-> | ?]; [done | lia].
Qed.

(** The fallback loop keeps what was recommended first in front. *)
Lemma fill_head E product_id limit cats :
  ∀ first others reason,
    1 ≤ limit →
    ∃ rest,
      (fill E product_id limit cats (first :: others) reason).1 = first :: rest.
Proof.
  induction cats as [|category cats IH]; intros first others reason Hk; simpl;
    [by eexists|].
  destruct (limit <=? _); simpl.
  - rewrite slice_to_nonneg by lia.
    destruct (Z.to_nat limit) as [|n] eqn:En; [lia|]. simpl. by eexists.
  - apply IH. done.
Qed.

(** The most common entry of a counter that is not empty. *)
Lemma most_common_head limit (counter : list (string * Z)) :
  1 ≤ limit → counter ≠ [] →
  ∃ partner count rest,
    most_common limit counter = (partner, count) :: rest
    ∧ (∃ earlier later,
         counter = (earlier ++ (partner, count) :: later)%list
         ∧ ∀ e, e ∈ earlier → e.2 < count)
    ∧ (∀ e, e ∈ counter → e.2 ≤ count).
Proof.
  intros Hk Hne. unfold most_common.
  destruct (sort_desc Z.ltb snd counter) as [|[partner count] sorted] eqn:Es.
  { apply (f_equal length) in Es. rewrite sort_desc_length in Es.
    by destruct counter. }
  destruct (Z.to_nat limit) as [|n] eqn:En; [lia|]. simpl.
  exists partner, count, (firstn n sorted). split; [done|].
  assert (∀ e, e ∈ counter → e.2 ≤ count) as Hmax.
  { intros e He. apply (sort_desc_elem Z.ltb snd) in He. rewrite Es in He.
    pose proof (sort_desc_Z_sorted snd counter) as Hs. rewrite Es in Hs.
    apply StronglySorted_inv in Hs as [_ Hs]. rewrite List.Forall_forall in Hs.
    apply elem_of_cons in He as [->|He]; [simpl; lia|].
    by apply Hs, list_elem_of_In. }
  split; [|done].
  destruct (sort_desc_head Z.ltb snd Z.ltb_irrefl counter _ _ Es)
    as (earlier & later & -> & Hearlier).
  exists earlier, later. split; [done|].
  intros e He. specialize (Hearlier e He). simpl in Hearlier.
  assert (e.2 ≤ count) by (apply Hmax, elem_of_app; by left). lia.
Qed.

(** C6, as the code has it: after [record_view(a, S)], when [a] has a
    counter and [limit >= 1], the first recommendation is a partner with
    the highest count, and among partners with that count the one that
    was recorded first (not the one with the smallest id); the reason is
    "frequently viewed together" when the product is not in the store or
    the counter has at least [limit] partners. *)
Theorem most_coviewed_first E store product_id session_products limit counter :
  reachable E →
  1 ≤ limit →
  view_matrix (record_view product_id session_products E) !! product_id
    = Some counter →
  ∃ partner count rest reason,
    get_recommendations (record_view product_id session_products E)
                        store product_id limit
    = (partner :: rest, reason)
    ∧ (∃ earlier later,
         counter = (earlier ++ (partner, count) :: later)%list
         ∧ ∀ e, e ∈ earlier → e.2 < count)
    ∧ (∀ e, e ∈ counter → e.2 ≤ count)
    ∧ ((store !! product_id = None) ∨ limit ≤ Z.of_nat (length counter) →
       reason = "frequently viewed together").
Proof.
  intros HE Hk Hc.
  set (E' := record_view product_id session_products E) in *.
  assert (counters_ok E') as Hok by (apply reachable_ok; by constructor).
  destruct (Hok _ _ Hc) as (Hne & _ & _).
  destruct (most_common_head limit counter Hk Hne)
    as (partner & count & rest & Hmc & Hfirst & Hmax).
  destruct (get_recommendations_unfold E' store product_id limit)
    as (reason0 & Hreason & ->).
  assert (coviewed E' product_id limit = partner :: map fst rest) as Hcov.
  { unfold coviewed. by rewrite Hc, Hmc. }
  rewrite Hcov in *. specialize (Hreason ltac:(done)). subst reason0.
  destruct (Z.ltb_spec (Z.of_nat (length (partner :: map fst rest))) limit)
    as [Hshort|Hfull].
  - destruct (store !! product_id) as [product|] eqn:Es.
    + destruct (fill_head E' product_id limit (categories product) partner
                  (map fst rest) "frequently viewed together" Hk) as [rest' Hf].
      destruct (fill _ _ _ _ _ _) as [recs reason] eqn:Ef. simpl in Hf. subst recs.
      exists partner, count, rest', reason. repeat split; try done.
      intros [?|Hlen]; [done|]. exfalso.
      assert (length (partner :: map fst rest) = length (most_common limit counter))
        as Hl by (by rewrite Hmc; simpl; rewrite length_map).
      unfold most_common in Hl.
      rewrite length_firstn, sort_desc_length in Hl. lia.
    + exists partner, count, (map fst rest), "frequently viewed together".
      by repeat split.
  - exists partner, count, (map fst rest), "frequently viewed together".
    by repeat split.
Qed.

End WithSetIter.
End RecommendationFacts.

(** ** The recommendation claims on sample data *)

Lemma most_coviewed_first_witness :
  ∃ partner count rest reason,
    RecommendationEngine.get_recommendations
      (RecommendationEngine.record_view "A" ["B"; "C"; "B"]
         RecommendationEngine.init)
      ∅ "A" 2
    = (partner :: rest, reason)
    ∧ (∃ earlier later,
         [("B", 2); ("C", 1)] = (earlier ++ (partner, count) :: later)%list
         ∧ ∀ e : string * Z, e ∈ earlier → e.2 < count)
    ∧ (∀ e : string * Z, e ∈ [("B", 2); ("C", 1)] → e.2 ≤ count)
    ∧ (((∅ : gmap string Product) !! "A" = None) ∨ 2 ≤ Z.of_nat (length [("B", 2); ("C", 1)]) →
       reason = "frequently viewed together").
Proof.
  apply (RecommendationFacts.most_coviewed_first
           RecommendationEngine.init ∅ "A" ["B"; "C"; "B"] 2 [("B", 2); ("C", 1)]).
  - constructor.
  - lia.
  - vm_compute. reflexivity.
Defined.

(** C6 as stated fails on ties: "C" and "B" are both viewed once with
    "A", "B" is the smaller id, and "C", recorded first, comes first. *)
Lemma coview_tie_order :
  let E := RecommendationEngine.record_view "A" ["C"; "B"]
             RecommendationEngine.init in
  RecommendationEngine.get_recommendations E ∅ "A" 2
  = (["C"; "B"], "frequently viewed together")
  ∧ RecommendationEngine.view_matrix E !! "A" = Some [("C", 1); ("B", 1)]
  ∧ String.ltb "B" "C" = true.
Proof. vm_compute. repeat split. Qed.

Lemma filter_set_order `{SetIter} (P : string → Prop) `{∀ x, Decision (P x)}
    (X : gset string) (x : string) :
  filter P (elements X) = [x] → filter P (set_order X) = [x].
Proof.
  intros HX. apply Permutation_singleton_r.
  by rewrite set_order_perm, HX.
Qed.

(** C7 on its own scenario: A and B share "Books" and nothing was
    viewed; whatever the order in which sets are enumerated,
    [get_recommendations("A", 3)] returns B with the empty reason, the
    reason being assigned only on the branch that reaches [limit]. *)
Theorem fallback_below_limit_has_no_reason `{SetIter} :
  RecommendationEngine.get_recommendations
    EngineSample.books_engine EngineSample.books_store "A" 3
  = (["B"], "").
Proof.
  unfold RecommendationEngine.get_recommendations.
  change (RecommendationEngine.view_matrix EngineSample.books_engine !! "A")
    with (@None (list (string * Z))).
  cbn [length Z.of_nat Z.ltb Z.compare].
  change (EngineSample.books_store !! "A") with (Some Catalog.book_a).
  cbn [RecommendationEngine.fill Catalog.book_a Catalog.book categories].
  change (RecommendationEngine.category_matrix EngineSample.books_engine
            !! Text.lower "Books")
    with (Some ({[ "A"; "B" ]} : gset string)).
  cbn [default from_option id app].
  rewrite (filter_set_order _ _ "B") by (vm_compute; reflexivity).
  reflexivity.
Qed.

(** When the limit is reached, the reason names the category at which it
    was reached: "Books" contributes B first, "Fiction" completes the
    list with C and gives the reason. *)
Example fallback_reason_names_last_category :
  RecommendationEngine.get_recommendations
    EngineSample.shelves_engine EngineSample.shelves_store "A" 2
  = (["B"; "C"], "similar products in Fiction").
Proof. vm_compute. reflexivity. Qed.

Lemma recommendations_exclude_focus_witness :
  let E := RecommendationEngine.record_view "A" ["B"; "C"; "B"]
             EngineSample.books_engine in
  let recommendations :=
    (RecommendationEngine.get_recommendations E EngineSample.books_store "A" 2).1 in
  ("A" ∉ recommendations)
  ∧ ((EngineSample.books_store !! "A" = None)
     ∨ 2 ≤ Z.of_nat (length (RecommendationEngine.coviewed E "A" 2)) →
     recommendations = RecommendationEngine.coviewed E "A" 2
     ∧ NoDup recommendations).
Proof.
  apply (RecommendationFacts.recommendations_exclude_focus
           (RecommendationEngine.record_view "A" ["B"; "C"; "B"]
              EngineSample.books_engine)
           EngineSample.books_store "A" 2).
  repeat constructor.
Defined.

(** C8 as stated fails: A and B share two categories, and the fallback
    appends B once for each. *)
Lemma recommendations_repeat_a_product :
  RecommendationEngine.get_recommendations
    EngineSample.novels_engine EngineSample.novels_store "A" 3
  = (["B"; "B"], "")
  ∧ ¬ NoDup ["B"; "B"].
Proof.
  split; [vm_compute; reflexivity|].
  intros [Hin _]%NoDup_cons. apply Hin. by left.
Qed.

(** ** The relevance score *)

Lemma matches_distinct_hits (query_tokens field_tokens : list string) :
  Service.matches query_tokens field_tokens
  = distinct_hits query_tokens field_tokens.
Proof.
  unfold Service.matches, distinct_hits. f_equal.
  unfold size, set_size. simpl. apply Permutation_length.
  apply NoDup_Permutation.
  - apply NoDup_elements.
  - apply NoDup_filter, NoDup_remove_dups.
  - intros x. rewrite elem_of_elements, elem_of_intersection,
      !elem_of_list_to_set, list_elem_of_filter, elem_of_remove_dups. tauto.
Qed.

Lemma calculate_relevance_score_spec product query_tokens :
  (Service.calculate_relevance_score product query_tokens
   == weighted_overlap product query_tokens)%Q.
Proof.
  unfold Service.calculate_relevance_score, weighted_overlap.
  rewrite !matches_distinct_hits.
  destruct (0 <? stock product); ring.
Qed.

Lemma sort_desc_Q_sorted {A} (key : A → Q) (l : list A) :
  StronglySorted (λ a b, (key b <= key a)%Q) (sort_desc Service.Qltb key l).
Proof.
  apply (sort_desc_sorted Service.Qltb key (λ x y, (y <= x)%Q)).
  - intros a b Hlt. unfold Service.Qltb in Hlt.
    apply negb_true_iff in Hlt.
    destruct (Qlt_le_dec a b) as [?|Hle]; [by apply Qlt_le_weak|].
    apply Qle_bool_iff in Hle. congruence.
  - intros a b Hlt. unfold Service.Qltb in Hlt.
    apply negb_false_iff in Hlt. by apply Qle_bool_iff.
  - intros a b c ??. by eapply Qle_trans.
Qed.

(** ** The request handlers *)

Module ServiceFacts.
Import Service.

Section Facts.
Context `{FloatOps} `{SetIter} `{ExistenceFilter}.

Lemma handle_index st r :
  InvertedIndex.reachable (inverted_index st) →
  InvertedIndex.reachable (inverted_index (handle st r)).
Proof.
  intros [D HD]. destruct r as [product|q limit c mn mx|pid sp|]; simpl.
  - unfold index_product. destruct (bloom_add _ _); simpl; [|by exists D].
    eexists. by constructor.
  - unfold search_products. destruct (Text.blank q); [by exists D|].
    destruct (InvertedIndex.search _ _ _); by exists D.
  - unfold record_product_view. destruct pid as [pid|]; [|by exists D].
    destruct sp; [by exists D|]. case_decide; by exists D.
  - eexists. constructor.
Qed.

Lemma reachable_index st :
  reachable st → InvertedIndex.reachable (inverted_index st).
Proof.
  induction 1; [eexists; constructor | by apply handle_index].
Qed.

(** Every result of the loop is one that was there before or the record
    of a stored product with its relevance score. *)
Lemma gather_elem store q limit category min_price max_price search_results :
  ∀ results0 r,
    r ∈ gather store q limit category min_price max_price search_results results0 →
    r ∈ results0
    ∨ ∃ pid product,
        store !! pid = Some product
        ∧ r = to_result product
                (calculate_relevance_score product (Text.tokenize q)).
Proof.
  induction search_results as [|[pid score] rest IH]; intros results0 r; simpl;
    [by left|].
  destruct (store !! pid) as [product|] eqn:Es; [|apply IH].
  destruct (category_rejects category product); [apply IH|].
  destruct (min_price_rejects min_price product); [apply IH|].
  destruct (max_price_rejects max_price product); [apply IH|].
  assert (∀ r, r ∈ (results0 ++ [to_result product
             (calculate_relevance_score product (Text.tokenize q))])%list →
          r ∈ results0 ∨ ∃ pid product, store !! pid = Some product
            ∧ r = to_result product
                    (calculate_relevance_score product (Text.tokenize q)))
    as Hnew.
  { intros r' [?| ->%list_elem_of_singleton]%elem_of_app; [by left|].
    right. eauto. }
  destruct (limit <=? _); [apply Hnew|].
  intros [Hr|Hr]%IH; [by apply Hnew | by right].
Qed.

(** The loop of [search_products] in closed form: it appends the records
    of the accepted products, and stops after the append that brings the
    list to [limit] entries. *)
Lemma gather_kept store q limit category min_price max_price search_results :
  ∀ results0,
    gather store q limit category min_price max_price search_results results0
    = (results0
       ++ map (scored q)
            (firstn (Z.to_nat (Z.max 1 (limit - Z.of_nat (length results0))))
                    (accepted store category min_price max_price
                              search_results)))%list.
Proof.
  unfold accepted.
  induction search_results as [|[pid score] rest IH]; intros results0.
  { simpl. by rewrite firstn_nil, app_nil_r. }
  cbn [gather omap list_omap fst].
  destruct (store !! pid) as [product|]; [|apply IH].
  cbn [List.filter]. unfold passes at 1.
  destruct (category_rejects category product); [apply IH|].
  destruct (min_price_rejects min_price product); [apply IH|].
  destruct (max_price_rejects max_price product); [apply IH|].
  cbn [negb andb]. cbv zeta.
  fold (scored q product).
  rewrite length_app. cbn [length].
  destruct (Z.leb_spec limit (Z.of_nat (length results0 + 1))) as [Hle|Hgt].
  - replace (Z.to_nat (Z.max 1 (limit - Z.of_nat (length results0))))
      with 1%nat by lia.
    by rewrite firstn_cons, firstn_O.
  - rewrite IH, length_app. cbn [length].
    replace (Z.to_nat (Z.max 1 (limit - Z.of_nat (length results0))))
      with (S (Z.to_nat (Z.max 1 (limit - Z.of_nat (length results0 + 1)))))
      by lia.
    rewrite firstn_cons. cbn [map]. by rewrite <- app_assoc.
Qed.

(** C4. On every reachable state the search handler answers with a body.
    Its results are the records of the candidates of the index that are
    stored and pass the filters, as many as the loop keeps, sorted by
    their score, descending; for a blank query there is no candidate.
    The score of each result is 3 x title hits + 1 x description hits
    + 2 x category hits (+ 0.5 when in stock), the hits being the
    distinct query tokens found in the field; and the results are in
    descending order of that score. *)
Theorem relevance_score_and_order st q limit category min_price max_price :
  reachable st →
  ∃ body st' candidates,
    search_products q limit category min_price max_price st = (Ok body, st')
    ∧ (if Text.blank q then candidates = []
       else InvertedIndex.search (inverted_index st) q (limit * 2)
            = Returns candidates)
    ∧ results body
      = sort_desc Qltb SearchResult.score
          (map (scored q)
               (kept limit
                     (accepted (products_store st) category min_price max_price
                               candidates)))
    ∧ (∀ r, r ∈ results body →
         ∃ pid product,
           products_store st !! pid = Some product
           ∧ r = to_result product (SearchResult.score r)
           ∧ (SearchResult.score r
              == weighted_overlap product (Text.tokenize q))%Q)
    ∧ StronglySorted
        (λ a b, (SearchResult.score b <= SearchResult.score a)%Q)
        (results body).
Proof.
  intros [D HD]%reachable_index. unfold search_products.
  destruct (Text.blank q).
  { do 2 eexists. exists []. split; [done|]. split; [done|].
    unfold kept, accepted. cbn [results omap list_omap List.filter].
    rewrite firstn_nil.
    split; [done|]. split; [|constructor].
    intros r []%elem_of_nil. }
  destruct (SearchFacts.search_tracked _ D q (limit * 2) HD)
    as (search_results & Hsearch & _).
  rewrite Hsearch.
  do 2 eexists. exists search_results. split; [done|]. split; [done|].
  cbn [results]. split; [|split; [|apply sort_desc_Q_sorted]].
  - rewrite gather_kept. cbn [length app]. unfold kept.
    by rewrite Z.sub_0_r.
  - intros r Hr%sort_desc_elem.
    apply gather_elem in Hr as [[]%elem_of_nil | (pid & product & Hs & ->)].
    exists pid, product. split; [done|]. split; [done|]. simpl.
    apply calculate_relevance_score_spec.
Qed.

(** *** Recommendations and the existence filter *)

Lemma handle_keeps_filter st r pid :
  r ≠ ClearAllData →
  bloom_contains pid (bloom_filter st) = true →
  bloom_contains pid (bloom_filter (handle st r)) = true.
Proof.
  intros Hr Hc. destruct r as [product|q limit c mn mx|p sp|]; simpl; [| | |done].
  - unfold index_product.
    destruct (bloom_add _ _) as [filter|] eqn:Ea; simpl; [|done].
    by eapply bloom_add_mono.
  - unfold search_products. destruct (Text.blank q); [done|].
    by destruct (InvertedIndex.search _ _ _).
  - unfold record_product_view. destruct p as [p|]; [|done].
    destruct sp; [done|]. by case_decide.
Qed.

Lemma indexed_contained st pid :
  indexed st pid → bloom_contains pid (bloom_filter st) = true.
Proof.
  induction 1 as [product st Hok|st r pid _ IH Hr].
  - unfold index_product in *.
    destruct (bloom_add _ _) as [filter|] eqn:Ea; simpl in *; [|done].
    by eapply bloom_add_contains.
  - by apply handle_keeps_filter.
Qed.

(** After [clear_all_data] the filter is new and rejects every id. *)
Lemma cleared_not_found st pid limit :
  get_recommendations pid limit (clear_all_data st) = HTTPException 404.
Proof.
  unfold get_recommendations, clear_all_data. simpl.
  by rewrite bloom_new_contains.
Qed.

(** C9, as the code has it: the recommendations handler answers 404
    exactly when the filter does not contain the id; and it does not
    answer 404 for an id whose [index_product] request succeeded, as long
    as no [clear_all_data] came after that request. *)
Theorem not_found_iff_filter_rejects st pid limit :
  (get_recommendations pid limit st = HTTPException 404
   ↔ bloom_contains pid (bloom_filter st) = false)
  ∧ (indexed st pid → get_recommendations pid limit st ≠ HTTPException 404).
Proof.
  assert (get_recommendations pid limit st = HTTPException 404
          ↔ bloom_contains pid (bloom_filter st) = false) as Hiff.
  { unfold get_recommendations.
    destruct (bloom_contains pid (bloom_filter st)); simpl; [|done].
    by destruct (RecommendationEngine.get_recommendations _ _ _ _). }
  split; [done|].
  intros Hi%indexed_contained. rewrite Hiff. congruence.
Qed.

(** *** Price bounds *)

Lemma gather_ext store q limit category mn mn' mx mx' search_results :
  (∀ product, min_price_rejects mn product = min_price_rejects mn' product) →
  (∀ product, max_price_rejects mx product = max_price_rejects mx' product) →
  ∀ results0,
    gather store q limit category mn mx search_results results0
    = gather store q limit category mn' mx' search_results results0.
Proof.
  intros Hmn Hmx.
  induction search_results as [|[pid score] rest IH]; intros results0; simpl;
    [done|].
  destruct (store !! pid) as [product|]; [|apply IH].
  rewrite Hmn, Hmx, !IH. done.
Qed.

Lemma search_products_ext q limit category mn mn' mx mx' st :
  (∀ product, min_price_rejects mn product = min_price_rejects mn' product) →
  (∀ product, max_price_rejects mx product = max_price_rejects mx' product) →
  same_search (search_products q limit category mn mx st)
              (search_products q limit category mn' mx' st).
Proof.
  intros Hmn Hmx. unfold same_search, search_products.
  destruct (Text.blank q); [done|].
  destruct (InvertedIndex.search _ _ _); simpl; [|done].
  by rewrite (gather_ext _ _ _ _ mn mn' mx mx').
Qed.

(** C10. A price bound of 0 filters nothing: with [min_price = 0], or
    with [max_price = 0], the handler leaves the same state and returns
    the same results, total and query (or the same error) as without the
    bound, whatever the other arguments; the bound rejects no product.
    Only the echoed [filters] entry still shows the 0. *)
Theorem zero_price_bound_is_no_bound q limit category bound st :
  same_search (search_products q limit category (Some 0) bound st)
              (search_products q limit category None bound st)
  ∧ same_search (search_products q limit category bound (Some 0) st)
                (search_products q limit category bound None st)
  ∧ ∀ product,
      min_price_rejects (Some 0) product = false
      ∧ max_price_rejects (Some 0) product = false.
Proof.
  split; [by apply search_products_ext|].
  split; [by apply search_products_ext|]. done.
Qed.

End Facts.
End ServiceFacts.

(** ** The handler claims on sample data *)

Lemma shoes_service_reachable : Service.reachable ServiceSample.shoes_service.
Proof. repeat constructor. Qed.

Lemma laces_service_reachable : Service.reachable ServiceSample.laces_service.
Proof. repeat constructor. Qed.

(** The index puts the short document P3 first; the relevance score puts
    P1, which has the query token in its title, before it. *)
Lemma relevance_score_and_order_witness :
  ∃ body st' candidates,
    Service.search_products "shoes" 10 None None None
                            ServiceSample.laces_service
    = (Service.Ok body, st')
    ∧ InvertedIndex.search
        (Service.inverted_index ServiceSample.laces_service) "shoes" 20
      = Returns candidates
    ∧ map fst candidates = ["P3"; "P1"]
    ∧ Service.results body
      = [Service.to_result Catalog.shoes_p1 (11 # 2);
         Service.to_result Catalog.laces 1]
    ∧ (∀ r, r ∈ Service.results body →
         ∃ pid product,
           Service.products_store ServiceSample.laces_service !! pid
           = Some product
           ∧ r = Service.to_result product (SearchResult.score r)
           ∧ (SearchResult.score r
              == weighted_overlap product (Text.tokenize "shoes"))%Q)
    ∧ StronglySorted
        (λ a b, (SearchResult.score b <= SearchResult.score a)%Q)
        (Service.results body).
Proof.
  destruct (ServiceFacts.relevance_score_and_order
              ServiceSample.laces_service "shoes" 10 None None None
              laces_service_reachable)
    as (body & st' & candidates & Hanswer & Hsearch & Hresults & Hscore & Hsorted).
  exists body, st', candidates.
  change (Text.blank "shoes") with false in Hsearch. cbv iota in Hsearch.
  change (10 * 2) with 20 in Hsearch.
  split; [exact Hanswer|]. split; [exact Hsearch|].
  pose proof Hsearch as Hcandidates. vm_compute in Hcandidates.
  injection Hcandidates as Hcandidates.
  split; [by rewrite <- Hcandidates|].
  split; [|split; [exact Hscore | exact Hsorted]].
  rewrite Hresults, <- Hcandidates. vm_compute. reflexivity.
Defined.

(** The first scenario of the specification: 3 + 3 for "red" and "shoes"
    in the title, 2 for the category, 0.5 for the stock. *)
Example shoes_p1_score :
  Service.calculate_relevance_score Catalog.shoes_p1 (Text.tokenize "red shoes")
  = (17 # 2)%Q.
Proof. reflexivity. Qed.

Lemma books_service_indexed : Service.indexed ServiceSample.books_service "A".
Proof.
  apply (Service.indexed_later _ (Service.IndexProduct Catalog.book_b));
    [|done].
  apply (Service.indexed_now Catalog.book_a Service.init).
  vm_compute. reflexivity.
Qed.

Lemma not_found_iff_filter_rejects_witness :
  (Service.get_recommendations "A" 5 ServiceSample.books_service
   = Service.HTTPException 404
   ↔ bloom_contains "A" (Service.bloom_filter ServiceSample.books_service) = false)
  ∧ Service.get_recommendations "A" 5 ServiceSample.books_service
    ≠ Service.HTTPException 404.
Proof.
  destruct (ServiceFacts.not_found_iff_filter_rejects
              ServiceSample.books_service "A" 5) as [Hiff Hok].
  split; [exact Hiff | exact (Hok books_service_indexed)].
Defined.

(** C9 as stated fails once the service is cleared: A was indexed with
    success, [clear_all_data] replaced the filter, and the request for A
    is answered 404. *)
Lemma cleared_product_not_found :
  fst (Service.index_product Catalog.book_a Service.init) = Service.Ok "A"
  ∧ Service.get_recommendations "A" 5
      (Service.run [Service.IndexProduct Catalog.book_a; Service.ClearAllData])
    = Service.HTTPException 404.
Proof. vm_compute. split; reflexivity. Qed.

Example zero_max_price_keeps_priced_products :
  Service.results <$>
    (match fst (Service.search_products "shoes" 10 None None (Some 0)
                  ServiceSample.shoes_service) with
     | Service.Ok body => Some body
     | _ => None
     end)
  = Some [Service.to_result Catalog.shoes_p1 (11 # 2)].
Proof. vm_compute. reflexivity. Qed.

(** * Further properties *)

(** ** The index as a function of its documents *)

Lemma for_each_preserved {A B : Type} (P : B → Prop) (body : B → A → outcome B) l :
  ∀ acc b',
    P acc →
    (∀ b a b1, P b → body b a = Returns b1 → P b1) →
    for_each body acc l = Returns b' → P b'.
Proof.
  induction l as [|x l IH]; intros acc b' Hacc Hbody; simpl.
  - by intros [= <-].
  - destruct (body acc x) as [b1|e] eqn:Eb; simpl; [|done].
    apply IH; [by eapply Hbody | done].
Qed.

Lemma for_each_established {A B : Type} (Q : A → B → Prop)
    (body : B → A → outcome B) l :
  (∀ b a b1, body b a = Returns b1 → Q a b1) →
  (∀ a0 b a b1, Q a0 b → body b a = Returns b1 → Q a0 b1) →
  ∀ acc b', for_each body acc l = Returns b' → ∀ a, a ∈ l → Q a b'.
Proof.
  intros Hset Hkeep. induction l as [|x l IH]; intros acc b' Hrun a Ha.
  - by apply elem_of_nil in Ha.
  - simpl in Hrun. destruct (body acc x) as [b1|e] eqn:Eb; simpl in Hrun; [|done].
    apply elem_of_cons in Ha as [->|Ha]; [|by eapply IH].
    apply (for_each_preserved (Q x) body l b1 b'); [by eapply Hset | | done].
    intros b a' b2. apply Hkeep.
Qed.

Module IndexMore.
Import InvertedIndex InvertedIndexFacts.

Section More.
Context `{SetIter}.

Lemma inv_index_eq S S' D token : inv S D → inv S' D → index S !! token = index S' !! token.
Proof.
  assert (∀ S S', inv S D → inv S' D →
            ∀ ds, index S !! token = Some ds → index S' !! token = Some ds) as Hone.
  { intros S1 S2 H1 H2 ds Hl.
    pose proof (inv_nonempty _ _ H1 token ds Hl) as Hne.
    apply set_choose_L in Hne as [x Hx].
    destruct (proj1 (inv_postings _ _ H1 token x)) as (toks & HD & Ht); [eauto|].
    destruct (proj2 (inv_postings _ _ H2 token x)) as (ds' & Hl' & _); [eauto|].
    rewrite Hl'. f_equal. apply set_eq. intros y. split; intros Hy.
    - destruct (proj1 (inv_postings _ _ H2 token y)) as (ty & HDy & Hty); [eauto|].
      destruct (proj2 (inv_postings _ _ H1 token y)) as (ds1 & Hl1 & Hy1); [eauto|].
      congruence.
    - destruct (proj1 (inv_postings _ _ H1 token y)) as (ty & HDy & Hty); [eauto|].
      destruct (proj2 (inv_postings _ _ H2 token y)) as (ds2 & Hl2 & Hy2); [eauto|].
      congruence. }
  intros H1 H2.
  destruct (index S !! token) as [ds|] eqn:E1.
  - symmetry. exact (Hone S S' H1 H2 ds E1).
  - destruct (index S' !! token) as [ds'|] eqn:E2; [|done].
    rewrite (Hone S' S H2 H1 ds' E2) in E1. done.
Qed.

Lemma inv_determines S S' D : inv S D → inv S' D → S = S'.
Proof.
  intros H1 H2.
  assert (index S = index S') as Hidx.
  { apply map_eq. intros token. by eapply inv_index_eq. }
  assert (doc_freq S = doc_freq S') as Hdf.
  { apply map_eq. intros token.
    by rewrite (inv_freq _ _ H1), (inv_freq _ _ H2), Hidx. }
  assert (doc_lengths S = doc_lengths S') as Hdl.
  { by rewrite (inv_lengths _ _ H1), (inv_lengths _ _ H2). }
  assert (total_docs S = total_docs S') as Htot.
  { by rewrite (inv_total _ _ H1), (inv_total _ _ H2), Hdl. }
  destruct S, S'. simpl in *. congruence.
Qed.

(** X1. The index does not remember its history: two sequences of
    [add_document] and [remove_document] calls that leave the same
    documents (the same token list under every id) leave the same index. *)
Theorem index_determined_by_documents S S' D :
  tracks S D → tracks S' D → S = S'.
Proof. intros H1%tracks_inv H2%tracks_inv. by eapply inv_determines. Qed.

(** X2. On a reachable index the document frequency of a token is at
    least 1 and at most [total_docs], so the quotient [search] takes the
    logarithm of is at least 1. *)
Theorem doc_freq_bounds S token df :
  reachable S → doc_freq S !! token = Some df → 1 ≤ df ≤ total_docs S.
Proof.
  intros [D HI]%reachable_inv Hdf.
  rewrite (inv_freq _ _ HI) in Hdf.
  destruct (index S !! token) as [ds|] eqn:E; [|done]. injection Hdf as <-.
  pose proof (inv_nonempty _ _ HI token ds E) as Hne.
  assert (size ds ≠ 0%nat).
  { intros ->%size_empty_inv%leibniz_equiv. done. }
  assert (ds ⊆ dom D) as Hsub.
  { intros x Hx. apply elem_of_dom.
    destruct (proj1 (inv_postings _ _ HI token x)) as (toks & -> & _); eauto. }
  apply subseteq_size in Hsub. rewrite size_dom in Hsub.
  rewrite (inv_total _ _ HI), (inv_lengths _ _ HI), map_size_fmap. lia.
Qed.

End More.
End IndexMore.

(** ** Tokens *)

Module TextFacts.
Import Text TokenShape.

Lemma lower_char_not_upper c : is_upper (lower_char c) = false.
Proof. destruct c as [[] [] [] [] [] [] [] []]; reflexivity. Qed.

Lemma lower_char_idem c : lower_char (lower_char c) = lower_char c.
Proof. destruct c as [[] [] [] [] [] [] [] []]; reflexivity. Qed.

Lemma space_not_word c : is_space c = true → is_word_char (lower_char c) = false.
Proof. destruct c as [[] [] [] [] [] [] [] []]; vm_compute; congruence. Qed.

Lemma lower_idem s : lower (lower s) = lower s.
Proof. induction s as [|c s IH]; simpl; [done|]. by rewrite lower_char_idem, IH. Qed.

Lemma lower_no_upper s : all_chars (λ c, negb (is_upper c)) (lower s) = true.
Proof.
  induction s as [|c s IH]; simpl; [done|].
  by rewrite lower_char_not_upper, IH.
Qed.

(** A string of white space has no token. *)
Lemma scan_blank s : blank s = true → scan Outside [] (lower s) = [].
Proof.
  induction s as [|c s IH]; simpl; [done|].
  intros [Hc Hs]%andb_true_iff. unfold scan_step.
  rewrite (space_not_word c Hc). simpl. by apply IH.
Qed.

Lemma blank_tokenize s : blank s = true → tokenize s = [].
Proof.
  intros Hb. unfold tokenize, findall_tokens. destruct s; [done|].
  by apply scan_blank.
Qed.

Lemma rev_string_token acc : ∀ tail,
  ends_in_letter acc = true → all_chars lower_alnum acc = true →
  all_chars lower_alnum tail = true →
  token_ok (rev_string tail acc) = true.
Proof.
  induction acc as [|c acc IH]; intros tail Hend Hacc Htail; [done|].
  simpl in Hacc. apply andb_true_iff in Hacc as [Hc Hacc].
  destruct acc as [|c' acc'].
  - simpl in *. by rewrite Hend, Htail.
  - change (rev_string tail (String c (String c' acc')))
      with (rev_string (String c tail) (String c' acc')).
    apply IH; [done | done |]. simpl. by rewrite Hc, Htail.
Qed.

Lemma emit_ok st out :
  state_ok st → Forall (λ t, token_ok t = true) out →
  Forall (λ t, token_ok t = true) (emit st out).
Proof.
  destruct st as [|acc|]; simpl; try done.
  intros [Hend Hall] Hout. constructor; [|done].
  by apply rev_string_token.
Qed.

Lemma scan_step_ok st c :
  is_upper c = false → state_ok st → state_ok (scan_step st c).
Proof.
  intros Hc Hst. unfold scan_step.
  destruct (is_word_char c); [|done].
  destruct st as [|acc|]; simpl; try done.
  - destruct (is_letter c) eqn:El; [|done]. simpl.
    unfold is_letter in El. rewrite Hc in El. simpl in El.
    unfold lower_alnum. by rewrite El.
  - destruct (is_alnum c) eqn:Ea; [|done]. simpl.
    destruct Hst as [Hend Hall].
    unfold is_alnum, is_letter in Ea. rewrite Hc in Ea. simpl in Ea.
    unfold lower_alnum at 1. rewrite Ea, Hall. split; [|done].
    by destruct acc.
Qed.

Lemma scan_ok s : ∀ st out,
  all_chars (λ c, negb (is_upper c)) s = true →
  state_ok st → Forall (λ t, token_ok t = true) out →
  Forall (λ t, token_ok t = true) (scan st out s).
Proof.
  induction s as [|c s IH]; intros st out Hs Hst Hout; simpl.
  - apply Forall_rev. by apply emit_ok.
  - simpl in Hs. apply andb_true_iff in Hs as [Hc Hs].
    apply negb_true_iff in Hc.
    apply IH; [done | by apply scan_step_ok |].
    destruct (is_word_char c); [done | by apply emit_ok].
Qed.

Lemma tokenize_ok text : Forall (λ t, token_ok t = true) (tokenize text).
Proof.
  unfold tokenize, findall_tokens. destruct text as [|c text]; [constructor|].
  apply scan_ok; [apply lower_no_upper | done | constructor].
Qed.

(** X3. Every token [tokenize] returns is a lower-case letter followed by
    lower-case letters and digits; in particular no token is empty. *)
Theorem tokens_are_lower_alnum text token :
  token ∈ Text.tokenize text → token_ok token = true.
Proof.
  intros Hin. pose proof (tokenize_ok text) as Hall.
  rewrite Forall_forall in Hall. by apply Hall.
Qed.

(** X4. No text yields a synthetic category token: a query can only meet
    a document through the words of its title and description, never
    through [category:<name>]. *)
Theorem category_token_never_tokenized text category :
  bool_decide (InvertedIndex.category_token category ∈ Text.tokenize text)
  = false.
Proof.
  apply bool_decide_eq_false. intros Hin.
  pose proof (tokenize_ok text) as Hall.
  rewrite Forall_forall in Hall. apply Hall in Hin. done.
Qed.

Lemma tokenize_lower text : Text.tokenize (Text.lower text) = Text.tokenize text.
Proof.
  unfold tokenize. destruct text as [|c text]; [done|].
  change (lower (String c text)) with (String (lower_char c) (lower text)).
  change (String (lower_char c) (lower text)) with (lower (String c text)).
  by rewrite lower_idem.
Qed.

Lemma lower_char_space c : is_space (lower_char c) = is_space c.
Proof. destruct c as [[] [] [] [] [] [] [] []]; reflexivity. Qed.

Lemma blank_lower text : Text.blank (Text.lower text) = Text.blank text.
Proof.
  induction text as [|c text IH]; simpl; [done|].
  by rewrite lower_char_space, IH.
Qed.

(** X5. Case does not matter: a query and its lower-cased form give the
    same search on every index, and a text and its lower-cased form are
    indexed alike. *)
Theorem search_and_index_ignore_case `{FloatOps} `{SetIter}
    S query limit doc_id text categories :
  InvertedIndex.search S (Text.lower query) limit
  = InvertedIndex.search S query limit
  ∧ InvertedIndex.add_document doc_id (Text.lower text) categories S
    = InvertedIndex.add_document doc_id text categories S.
Proof.
  split.
  - unfold InvertedIndex.search. by rewrite blank_lower, tokenize_lower.
  - unfold InvertedIndex.add_document, InvertedIndex.document_tokens.
    by rewrite tokenize_lower.
Qed.

End TextFacts.

(** ** More on [search] *)

Module SearchMore.
Import InvertedIndex InvertedIndexFacts.

Section More.
Context `{FloatOps} `{SetIter}.

Lemma upsert_keys_grow (k : string) (dflt : float) f (d : list (string * float)) x :
  x ∈ d.*1 → x ∈ (upsert k dflt f d).*1.
Proof.
  intros Hx. rewrite upsert_keys. case_decide; [done|].
  apply elem_of_app. by left.
Qed.

Lemma upsert_keys_new (k : string) (dflt : float) f (d : list (string * float)) :
  k ∈ (upsert k dflt f d).*1.
Proof.
  rewrite upsert_keys. case_decide; [done|].
  apply elem_of_app. right. by apply list_elem_of_singleton.
Qed.

(** What one round of the token loop does to the score table, when it
    returns: no id twice, no id lost, and every document posted under
    the token is in. *)
Lemma score_token_table S doc_scores token doc_scores' :
  score_token S doc_scores token = Returns doc_scores' →
  (NoDup doc_scores.*1 → NoDup doc_scores'.*1)
  ∧ (∀ x, x ∈ doc_scores.*1 → x ∈ doc_scores'.*1)
  ∧ (∀ doc_set x, index S !! token = Some doc_set → x ∈ doc_set →
       x ∈ doc_scores'.*1).
Proof.
  unfold score_token.
  destruct (index S !! token) as [doc_set|] eqn:E.
  2:{ intros [= <-]. by repeat split. }
  destruct (idf_of S token) as [idf|e]; simpl; [|done].
  intros Hrun. split; [|split].
  - intros Hnd. revert Hrun.
    apply (for_each_preserved (λ acc : list (string * float), NoDup acc.*1));
      [done|].
    intros b a b1 Hb. destruct (tf_of S a); simpl; [|done].
    intros [= <-]. by apply upsert_NoDup.
  - intros x Hx. revert Hrun.
    apply (for_each_preserved (λ acc : list (string * float), x ∈ acc.*1));
      [done|].
    intros b a b1 Hb. destruct (tf_of S a); simpl; [|done].
    intros [= <-]. by apply upsert_keys_grow.
  - intros ds x [= <-] Hx.
    eapply (for_each_established (λ a (acc : list (string * float)), a ∈ acc.*1));
      [| |exact Hrun|by apply set_order_elem].
    + intros b a b1. simpl. destruct (tf_of S a); simpl; [|done].
      intros [= <-]. apply upsert_keys_new.
    + intros a0 b a b1 Ha0. simpl. destruct (tf_of S a); simpl; [|done].
      intros [= <-]. by apply upsert_keys_grow.
Qed.

(** The table after the whole token loop. *)
Lemma score_tokens_table S tokens doc_scores :
  for_each (score_token S) [] tokens = Returns doc_scores →
  NoDup doc_scores.*1
  ∧ ∀ token doc_set x,
      token ∈ tokens → index S !! token = Some doc_set → x ∈ doc_set →
      x ∈ doc_scores.*1.
Proof.
  intros Hrun. split.
  - revert Hrun.
    apply (for_each_preserved (λ acc : list (string * float), NoDup acc.*1));
      [apply NoDup_nil_2|].
    intros b a b1 Hb Hstep. by apply (score_token_table _ _ _ _ Hstep).
  - intros token doc_set x Htok Hl Hx.
    eapply (for_each_established
              (λ token (acc : list (string * float)),
                 ∀ doc_set x, index S !! token = Some doc_set → x ∈ doc_set →
                              x ∈ acc.*1));
      [| |exact Hrun|exact Htok|exact Hl|exact Hx].
    + intros b a b1 Hstep. by apply (score_token_table _ _ _ _ Hstep).
    + intros a0 b a b1 Hb Hstep ds y Hl' Hy.
      apply (score_token_table _ _ _ _ Hstep). by eapply Hb.
Qed.

Lemma score_tokens_documents S D tokens doc_scores x :
  inv S D →
  for_each (score_token S) [] tokens = Returns doc_scores →
  x ∈ doc_scores.*1 → is_Some (D !! x).
Proof.
  intros HI Hrun Hx.
  destruct (for_each_inv
    (λ acc : list (string * float), ∀ doc_id, doc_id ∈ acc.*1 →
       ∃ tks t, D !! doc_id = Some tks ∧ t ∈ tks ∧ t ∈ tokens)
    (score_token S) tokens []) as (b' & Hb' & Hkeys).
  - intros ? []%elem_of_nil.
  - intros acc token Htok Hacc. by eapply SearchFacts.score_token_returns.
  - rewrite Hrun in Hb'. injection Hb' as <-.
    destruct (Hkeys x Hx) as (tks & _ & -> & _). eauto.
Qed.

Lemma keys_of_sorted_slice limit (doc_scores : list (string * float)) :
  NoDup doc_scores.*1 →
  NoDup (slice_to limit (sort_desc f_ltb snd doc_scores)).*1.
Proof.
  intros Hnd.
  destruct (slice_to_prefix limit (sort_desc f_ltb snd doc_scores)) as [rest Hr].
  assert (NoDup (sort_desc f_ltb snd doc_scores).*1) as Hs.
  { by rewrite (sort_desc_perm f_ltb snd doc_scores). }
  rewrite Hr, fmap_app in Hs. by apply NoDup_app in Hs as [? _].
Qed.

(** X6. On a tracked index [search] returns a list in which no document
    id occurs twice, whatever the query and the limit. *)
Theorem search_ids_distinct S D query limit :
  tracks S D →
  ∃ results, search S query limit = Returns results ∧ NoDup results.*1.
Proof.
  intros HD. destruct (SearchFacts.search_tracked S D query limit HD)
    as (results & Hs & _).
  exists results. split; [done|].
  unfold search in Hs. destruct (Text.blank query).
  { injection Hs as <-. apply NoDup_nil_2. }
  destruct (Text.tokenize query) as [|t0 ts].
  { injection Hs as <-. apply NoDup_nil_2. }
  destruct (for_each (score_token S) [] (t0 :: ts)) as [doc_scores|e] eqn:Er;
    simpl in Hs; [|done].
  injection Hs as <-. apply keys_of_sorted_slice.
  by apply (score_tokens_table _ _ _ Er).
Qed.

(** X7. Asked for at least as many results as the index holds documents,
    [search] on a tracked index returns every document that holds one of
    the query's tokens. *)
Theorem search_finds_every_match S D query limit doc_id tokens token :
  tracks S D →
  D !! doc_id = Some tokens → token ∈ tokens → token ∈ Text.tokenize query →
  total_docs S ≤ limit →
  ∃ results score,
    search S query limit = Returns results ∧ (doc_id, score) ∈ results.
Proof.
  intros HD Hdoc Htok Hq Hlimit.
  destruct (SearchFacts.search_tracked S D query limit HD)
    as (results & Hs & _ & Hcand & _).
  pose proof (tracks_inv _ _ HD) as HI. pose proof Hs as Hsearch.
  exists results. unfold search in Hs.
  destruct (Text.blank query) eqn:Eb.
  { rewrite (TextFacts.blank_tokenize _ Eb) in Hq. by apply elem_of_nil in Hq. }
  destruct (Text.tokenize query) as [|t0 ts] eqn:Et.
  { by apply elem_of_nil in Hq. }
  destruct (for_each (score_token S) [] (t0 :: ts)) as [doc_scores|e] eqn:Er;
    simpl in Hs; [|done].
  destruct (score_tokens_table _ _ _ Er) as [Hnd Hall].
  destruct (proj2 (inv_postings _ _ HI token doc_id)) as (ds & Hl & Hin); [eauto|].
  specialize (Hall token ds doc_id Hq Hl Hin).
  apply list_elem_of_fmap in Hall as ([d score] & Hd & Hds). simpl in Hd. subst d.
  exists score. split; [done|].
  injection Hs as <-.
  rewrite slice_to_all; [by apply sort_desc_elem|].
  rewrite sort_desc_length.
  (* the table has one entry per candidate, and candidates are documents *)
  assert (length doc_scores ≤ size D)%nat as Hlen.
  { rewrite <- (length_fmap fst), <- size_dom.
    rewrite <- (size_list_to_set (C := gset string)) by done.
    apply subseteq_size. intros x Hx%elem_of_list_to_set.
    apply elem_of_dom. by eapply (score_tokens_documents S D (t0 :: ts)). }
  rewrite (inv_total _ _ HI), (inv_lengths _ _ HI), map_size_fmap in Hlimit. lia.
Qed.

End More.
End SearchMore.

(** ** More on the trie *)

Lemma map_fmap {A B} (f : A → B) (l : list A) : map f l = f <$> l.
Proof. induction l as [|x l IH]; simpl; [done | by rewrite IH]. Qed.

Module TrieMore.
Import AutocompleteTrie TrieLookup TrieFacts.

Lemma child_upsert_eq char dflt f cs :
  child char (upsert char dflt f cs) = Some (f (default dflt (child char cs))).
Proof.
  induction cs as [|[c n] cs IH]; simpl.
  - by rewrite decide_True.
  - destruct (decide (char = c)) as [->|Hne]; simpl.
    + by rewrite decide_True.
    + by rewrite decide_False.
Qed.

Lemma child_upsert_ne char char' dflt f cs :
  char' ≠ char → child char' (upsert char dflt f cs) = child char' cs.
Proof.
  intros Hne. induction cs as [|[c n] cs IH]; simpl.
  - by rewrite decide_False.
  - destruct (decide (char = c)) as [->|Hc]; simpl.
    + by rewrite !decide_False.
    + destruct (decide (char' = c)); [done | exact IH].
Qed.

Lemma word_frequency_empty word : word_frequency empty_node word = None.
Proof. by destruct word. Qed.

(** [insert_at] marks the node of the word and adds to its counter. *)
Lemma insert_at_here word freq : ∀ node,
  ∃ node',
    descend word (insert_at word freq node) = Some node'
    ∧ is_word node' = true
    ∧ frequency node' = counter node word + freq.
Proof.
  induction word as [|c word IH]; intros [cs w f].
  - eexists. by repeat split.
  - cbn [insert_at children is_word frequency descend].
    rewrite child_upsert_eq.
    destruct (IH (default empty_node (child c cs))) as (n' & Hd & Hw & Hf).
    exists n'. split; [done|]. split; [done|]. rewrite Hf. f_equal.
    unfold counter. cbn [descend children].
    destruct (child c cs) as [m|]; [done|]. simpl.
    by destruct word.
Qed.

(** ... and leaves every other word as it was. *)
Lemma insert_at_elsewhere word freq : ∀ node word',
  word' ≠ word →
  word_frequency (insert_at word freq node) word' = word_frequency node word'.
Proof.
  induction word as [|c word IH]; intros [cs w f] word' Hne.
  - destruct word' as [|c' word']; [done|]. done.
  - destruct word' as [|c' word']; [done|].
    unfold word_frequency.
    cbn [insert_at children is_word frequency descend].
    destruct (decide (c' = c)) as [->|Hc].
    + rewrite child_upsert_eq.
      assert (word' ≠ word) as Hne' by congruence.
      specialize (IH (default empty_node (child c cs)) word' Hne').
      unfold word_frequency in IH. rewrite IH.
      destruct (child c cs) as [m|]; [done|]. simpl.
      apply (word_frequency_empty word').
    + by rewrite child_upsert_ne.
Qed.

(** X8. [insert] then look up: the word, lower-cased, is in the trie with
    the frequency its node had before plus [freq]; every other word keeps
    its frequency, or stays absent. *)
Theorem insert_adds_frequency root word freq :
  word_frequency (insert word freq root) (Text.lower word)
  = Some (counter root (Text.lower word) + freq)
  ∧ ∀ word', word' ≠ Text.lower word →
      word_frequency (insert word freq root) word' = word_frequency root word'.
Proof.
  unfold insert. split.
  - destruct (insert_at_here (Text.lower word) freq root) as (n & Hd & Hw & Hf).
    unfold word_frequency. by rewrite Hd, Hw, Hf.
  - intros word' Hne. by apply insert_at_elsewhere.
Qed.

Lemma words_below_lists_words root word f :
  wf root →
  (word, f) ∈ words_below root "" ↔ word_frequency root word = Some f.
Proof.
  intros Hwf.
  pose proof (words_below_elem root "" word f Hwf) as Hc.
  rewrite append_empty_l in Hc. rewrite Hc. unfold word_frequency.
  destruct (descend word root) as [node|].
  - split.
    + intros (? & [= <-] & -> & ->). done.
    + destruct (is_word node) eqn:Ew; [|done]. intros [= <-]. eauto.
  - split; [by intros (? & ? & _) | done].
Qed.

(** X9. [_collect_words], started at the root of a trie built by
    [insert] with [depth] calls left.  When there is a call left and
    every word of the trie has fewer letters than calls are left, it
    returns [suggestions] followed by exactly the words the trie holds,
    each with its frequency; otherwise it raises [RecursionError]. *)
Theorem collect_words_lists_words depth root suggestions :
  reachable root →
  let fits :=
    (1 ≤ depth)%nat
    ∧ ∀ word f, word_frequency root word = Some f →
                (String.length word < depth)%nat in
  (fits →
   ∃ listed,
     collect_words depth root "" suggestions
     = Returns (suggestions ++ listed)%list
     ∧ ∀ word f, (word, f) ∈ listed ↔ word_frequency root word = Some f)
  ∧ (¬ fits →
     collect_words depth root "" suggestions = Raises RecursionError).
Proof.
  intros Hr fits. pose proof (reachable_wf root Hr) as Hwf.
  assert (fits ↔ (height root ≤ depth)%nat) as Hfits.
  { rewrite (collect_words_fits depth root Hr). unfold fits.
    apply and_iff_compat_l. unfold word_frequency. split.
    - intros Hall word node Hd Hw. apply (Hall word (frequency node)).
      by rewrite Hd, Hw.
    - intros Hall word f Hf. destruct (descend word root) as [node|] eqn:Ed;
        [|done].
      destruct (is_word node) eqn:Ew; [|done]. by apply (Hall word node). }
  split.
  - intros Hd%Hfits. exists (words_below root "").
    split; [by apply collect_words_returns|].
    intros word f. by apply words_below_lists_words.
  - intros Hno. apply collect_words_raises.
    destruct (Nat.le_gt_cases (height root) depth) as [Hle|Hgt]; [|done].
    by apply Hfits in Hle.
Qed.

(** Every word of [ranked_below] starts with the prefix, and for
    [limit >= 0] there are at most [limit] of them. *)
Lemma ranked_below_prefix root prefix limit :
  (0 ≤ limit → Z.of_nat (length (ranked_below root prefix limit)) ≤ limit)
  ∧ ∀ s, s ∈ ranked_below root prefix limit → String.prefix prefix s = true.
Proof.
  unfold ranked_below. destruct (descend _ root) as [node|].
  2:{ split; [simpl; lia | by intros s ?%elem_of_nil]. }
  split.
  - intros Hk. rewrite length_map. by apply slice_to_length.
  - intros s Hs. rewrite map_fmap in Hs.
    apply list_elem_of_fmap in Hs as ([w f] & -> & Hin).
    apply slice_to_elem, sort_desc_elem in Hin.
    by apply words_below_extend in Hin.
Qed.

(** X10. Every suggestion [search_prefix] returns starts with the
    lower-cased prefix, and for [limit >= 0] there are at most [limit] of
    them; this holds for every trie. *)
Theorem suggestions_extend_prefix `{CallStack} root prefix limit suggestions :
  search_prefix root prefix limit = Returns suggestions →
  (0 ≤ limit → Z.of_nat (length suggestions) ≤ limit)
  ∧ ∀ s, s ∈ suggestions → String.prefix (Text.lower prefix) s = true.
Proof.
  intros ->%search_prefix_returns. destruct prefix as [|c prefix].
  - split; [simpl; lia | by intros s ?%elem_of_nil].
  - apply ranked_below_prefix.
Qed.

Lemma inserted_word_listed root word freq prefix :
  wf root →
  String.prefix prefix (Text.lower word) = true →
  ∃ f, (Text.lower word, f) ∈ words_with_prefix (insert word freq root) prefix.
Proof.
  intros Hr Hpre.
  assert (wf (insert word freq root)) as Hwf by (by apply insert_at_wf).
  destruct (insert_at_here (Text.lower word) freq root) as (n & Hd & Hw & Hf).
  exists (frequency n). unfold words_with_prefix.
  apply list_elem_of_filter. split; [done|].
  pose proof (words_below_elem (insert word freq root) "" (Text.lower word)
                (frequency n) Hwf) as Hc.
  rewrite append_empty_l in Hc. apply Hc. eauto.
Qed.

Lemma inserted_word_ranked root word freq prefix limit :
  wf root →
  String.prefix prefix (Text.lower word) = true →
  Z.of_nat (length (words_with_prefix (insert word freq root) prefix)) ≤ limit →
  Text.lower word ∈ ranked_below (insert word freq root) prefix limit.
Proof.
  intros Hr Hpre Hlimit.
  assert (wf (insert word freq root)) as Hwf by (by apply insert_at_wf).
  rewrite ranked_below_words by done.
  rewrite slice_to_all by (by rewrite sort_desc_length).
  destruct (inserted_word_listed root word freq prefix Hr Hpre) as [f Hin].
  rewrite map_fmap. apply list_elem_of_fmap.
  exists (Text.lower word, f). split; [done|]. by apply sort_desc_elem.
Qed.

(** X11. A word that was just inserted, and a prefix of it that is not
    empty, [limit] covering the words with that prefix.  When every word
    with the prefix has fewer letters after it than calls can still
    nest, [search_prefix] returns and the word is among the suggestions.
    When the inserted word has as many letters after the prefix as calls
    are left, or more, [search_prefix] raises [RecursionError]. *)
Theorem inserted_word_is_suggested `{CallStack} root word freq prefix limit :
  reachable root →
  prefix ≠ "" →
  String.prefix (Text.lower prefix) (Text.lower word) = true →
  Z.of_nat (length (words_with_prefix (insert word freq root)
                                       (Text.lower prefix))) ≤ limit →
  ((∀ e, e ∈ words_with_prefix (insert word freq root) (Text.lower prefix) →
         (String.length e.1 < frames_left + String.length prefix)%nat) →
     ∃ suggestions,
       search_prefix (insert word freq root) prefix limit = Returns suggestions
       ∧ Text.lower word ∈ suggestions)
  ∧ ((frames_left + String.length prefix ≤ String.length word)%nat →
       search_prefix (insert word freq root) prefix limit
       = Raises RecursionError).
Proof.
  intros Hr Hp Hpre Hlimit.
  pose proof (reachable_wf root Hr) as Hwf.
  destruct (search_prefix_fits (insert word freq root) prefix limit
              (reachable_insert word freq root Hr) Hp) as [Hfits Hdeep].
  split.
  - intros Hf. rewrite (Hfits Hf). eexists. split; [done|].
    by apply inserted_word_ranked.
  - intros Hlong. apply Hdeep. intros Hf.
    destruct (inserted_word_listed root word freq (Text.lower prefix) Hwf Hpre)
      as [f Hin].
    apply Hf in Hin. simpl in Hin. rewrite lower_length in Hin. lia.
Qed.

Lemma words_below_children (cs : list (ascii * TrieNode)) a x :
  x ∈ (flat_map (λ '(char, n), words_below n (a +:+ String char "")) cs).*1 →
  ∃ c n, (c, n) ∈ cs ∧ String.prefix (a +:+ String c "") x = true.
Proof.
  intros ([w f] & -> & Hin)%list_elem_of_fmap.
  apply list_elem_of_In, in_flat_map in Hin as ([c n] & Hcn & Hin).
  exists c, n. split; [by apply list_elem_of_In|].
  apply list_elem_of_In in Hin. by apply words_below_extend in Hin.
Qed.

(** No word is listed twice. *)
Lemma words_below_NoDup node : ∀ a, wf node → NoDup (words_below node a).*1.
Proof.
  induction node as [cs w f IH] using TrieNode_ind. intros a [Hk Hc]%wf_Node.
  simpl. rewrite fmap_app. apply NoDup_app. split; [|split].
  - destruct w; simpl; [apply NoDup_singleton | apply NoDup_nil_2].
  - intros x Hown Hsub.
    destruct w; [|by apply elem_of_nil in Hown].
    apply list_elem_of_singleton in Hown as ->. simpl in Hsub.
    apply words_below_children in Hsub as (c & n & _ & Hp).
    by apply prefix_longer in Hp.
  - clear w f. induction cs as [|[c n] cs IHcs]; simpl; [apply NoDup_nil_2|].
    simpl in Hk. apply NoDup_cons in Hk as [Hc0 Hk].
    apply Forall_cons in Hc as [Hn Hc]. apply Forall_cons in IH as [IHn IH].
    rewrite fmap_app. apply NoDup_app. split; [by apply IHn|].
    split; [|by apply IHcs].
    intros x Hx Hrest.
    apply words_below_children in Hrest as (c' & n' & Hin & Hp').
    apply list_elem_of_fmap in Hx as ([w f] & -> & Hx).
    apply words_below_extend in Hx. simpl in *.
    rewrite <- (append_empty_r (a +:+ String c' "")) in Hp'.
    pose proof (prefix_branch _ _ _ _ _ Hx Hp') as <-.
    apply Hc0. apply list_elem_of_fmap. by exists (c', n').
Qed.

Lemma ranked_below_NoDup root prefix limit :
  wf root → NoDup (ranked_below root prefix limit).
Proof.
  intros Hwf. unfold ranked_below.
  destruct (descend _ root) as [node|] eqn:Ed; [|apply NoDup_nil_2].
  apply descend_wf in Ed; [|done].
  pose proof (words_below_NoDup node prefix Ed) as Hnd.
  rewrite map_fmap.
  destruct (slice_to_prefix limit (sort_desc Z.ltb snd (words_below node prefix)))
    as [rest Hr].
  rewrite <- (sort_desc_perm Z.ltb snd) in Hnd. rewrite Hr, fmap_app in Hnd.
  by apply NoDup_app in Hnd as [? _].
Qed.

(** X12. On a trie built by [insert], [search_prefix] never returns the
    same word twice. *)
Theorem suggestions_distinct `{CallStack} root prefix limit suggestions :
  reachable root →
  search_prefix root prefix limit = Returns suggestions →
  NoDup suggestions.
Proof.
  intros Hwf%reachable_wf ->%search_prefix_returns.
  destruct prefix; [apply NoDup_nil_2 | by apply ranked_below_NoDup].
Qed.

End TrieMore.

(** ** More on the recommendation engine *)

Module EngineMore.
Import RecommendationEngine CoView RecommendationFacts.

Lemma count_of_upsert key other counter :
  count_of key (upsert other 0 (λ c, c + 1) counter)
  = count_of key counter + (if decide (key = other) then 1 else 0).
Proof.
  induction counter as [|[k v] counter IH]; simpl.
  - destruct (decide (key = other)); lia.
  - destruct (decide (other = k)) as [->|Hk]; simpl.
    + destruct (decide (key = k)); lia.
    + destruct (decide (key = k)) as [->|Hkey]; [|exact IH].
      rewrite decide_False by done. lia.
Qed.

Lemma view_counts product_id E other_id b :
  co_views (view product_id E other_id) product_id b
  = co_views E product_id b
    + (if decide (b = other_id ∧ other_id ≠ product_id) then 1 else 0).
Proof.
  unfold view, co_views. destruct (decide (other_id ≠ product_id)) as [Hne|He].
  - simpl. rewrite lookup_insert_eq. simpl. rewrite count_of_upsert.
    destruct (decide (b = other_id)) as [->|Hb].
    + by rewrite decide_True.
    + rewrite decide_False; [done | tauto].
  - rewrite decide_False; [lia | tauto].
Qed.

Lemma view_frame product_id E other_id a :
  a ≠ product_id →
  view_matrix (view product_id E other_id) !! a = view_matrix E !! a.
Proof.
  intros Ha. unfold view. case_decide; [|done]. simpl.
  by rewrite lookup_insert_ne.
Qed.

(** X13. [record_view(a, S)] raises the count of every partner [b] other
    than [a] by the number of times [b] occurs in [S], never counts [a]
    with itself, and touches the counter of no other product: the view
    of [b] from [a] is not a view of [a] from [b]. *)
Theorem record_view_counts product_id session_products E :
  (∀ b, b ≠ product_id →
        co_views (record_view product_id session_products E) product_id b
        = co_views E product_id b + occurrences b session_products)
  ∧ co_views (record_view product_id session_products E) product_id product_id
    = co_views E product_id product_id
  ∧ ∀ a, a ≠ product_id →
         view_matrix (record_view product_id session_products E) !! a
         = view_matrix E !! a.
Proof.
  unfold record_view, occurrences. revert E.
  induction session_products as [|x l IH]; intros E; simpl.
  { split; [intros; lia | by split]. }
  destruct (IH (view product_id E x)) as (Hcount & Hself & Hframe).
  split; [|split].
  - intros b Hb. rewrite Hcount, view_counts, filter_cons by done.
    destruct (decide (x = b)) as [->|Hx].
    + rewrite decide_True by done. simpl. lia.
    + rewrite decide_False; [lia | intros [-> _]; done].
  - rewrite Hself, view_counts. rewrite decide_False; [lia|].
    intros [-> ?]. done.
  - intros a Ha. by rewrite Hframe, view_frame.
Qed.

Section WithSetIter.
Context `{SetIter}.

Lemma fill_length E product_id limit cats : ∀ recommendations reason,
  Z.of_nat (length recommendations) < limit →
  Z.of_nat (length (fill E product_id limit cats recommendations reason).1)
  ≤ limit.
Proof.
  induction cats as [|category cats IH]; intros recs reason Hlen; simpl; [lia|].
  destruct (Z.leb_spec limit
    (Z.of_nat (length (recs ++ filter (λ pid, pid ≠ product_id)
       (set_order (default ∅ (category_matrix E !! Text.lower category))))%list)));
    simpl.
  - apply slice_to_length. lia.
  - by apply IH.
Qed.

Lemma coviewed_length E product_id limit :
  Z.of_nat (length (coviewed E product_id limit)) ≤ Z.max 0 limit.
Proof.
  unfold coviewed. destruct (view_matrix E !! product_id); simpl; [|lia].
  unfold most_common. rewrite length_map, length_firstn. lia.
Qed.

(** X14. [get_recommendations] returns at most [limit] ids, and none for
    [limit <= 0], on every engine and store. *)
Theorem recommendations_at_most_limit E store product_id limit :
  Z.of_nat (length (get_recommendations E store product_id limit).1)
  ≤ Z.max 0 limit.
Proof.
  destruct (get_recommendations_unfold E store product_id limit)
    as (reason0 & _ & ->).
  pose proof (coviewed_length E product_id limit).
  destruct (Z.ltb_spec (Z.of_nat (length (coviewed E product_id limit))) limit);
    [|done].
  destruct (store !! product_id) as [product|]; [|done].
  pose proof (fill_length E product_id limit (categories product)
                (coviewed E product_id limit) reason0). lia.
Qed.

Lemma fill_members E product_id limit cats : ∀ recommendations reason x,
  x ∈ (fill E product_id limit cats recommendations reason).1 →
  x ∈ recommendations
  ∨ ∃ category members,
      category ∈ cats
      ∧ category_matrix E !! Text.lower category = Some members
      ∧ x ∈ members.
Proof.
  induction cats as [|category cats IH]; intros recs reason x; simpl;
    [by left|].
  assert (∀ y, y ∈ (recs ++ filter (λ pid, pid ≠ product_id)
      (set_order (default ∅ (category_matrix E !! Text.lower category))))%list →
    y ∈ recs ∨ ∃ category' members, category' ∈ category :: cats
      ∧ category_matrix E !! Text.lower category' = Some members ∧ y ∈ members)
    as Hnew.
  { intros y [?|Hy]%elem_of_app; [by left|]. right.
    apply list_elem_of_filter in Hy as [_ Hy]. apply set_order_elem in Hy.
    destruct (category_matrix E !! Text.lower category) as [ms|] eqn:Ec;
      simpl in Hy; [|by apply not_elem_of_empty in Hy].
    exists category, ms. split; [by left | done]. }
  destruct (limit <=? _); simpl.
  - intros Hx%slice_to_elem. by apply Hnew.
  - intros [Hx|(c & ms & Hc & Hl & Hx)]%IH; [by apply Hnew|].
    right. exists c, ms. split; [by right | done].
Qed.

(** X15. Every recommended id is a partner in the product's co-view
    counter or a member of one of the category sets of the stored
    product. *)
Theorem recommendations_come_from_views_or_categories
    E store product_id limit x :
  x ∈ (get_recommendations E store product_id limit).1 →
  (∃ counter count,
     view_matrix E !! product_id = Some counter ∧ (x, count) ∈ counter)
  ∨ (∃ product category members,
       store !! product_id = Some product
       ∧ category ∈ categories product
       ∧ category_matrix E !! Text.lower category = Some members
       ∧ x ∈ members).
Proof.
  destruct (get_recommendations_unfold E store product_id limit)
    as (reason0 & _ & ->).
  assert (x ∈ coviewed E product_id limit →
          ∃ counter count,
            view_matrix E !! product_id = Some counter ∧ (x, count) ∈ counter)
    as Hco.
  { unfold coviewed. destruct (view_matrix E !! product_id) as [counter|];
      [|by intros ?%elem_of_nil].
    rewrite map_fmap. intros ([y c] & -> & Hin)%list_elem_of_fmap.
    apply most_common_elem in Hin. eauto. }
  destruct (_ <? limit); [|by left; apply Hco].
  destruct (store !! product_id) as [product|] eqn:Es; [|by left; apply Hco].
  intros [Hx|(c & ms & Hc & Hl & Hx)]%fill_members; [by left; apply Hco|].
  right. by exists product, c, ms.
Qed.

End WithSetIter.
End EngineMore.

(** ** More on the request handlers *)

Module ServiceMore.
Import Service ServiceFacts.

Lemma add_document_lengths `{SetIter} doc_id text categories S :
  InvertedIndex.doc_lengths (InvertedIndex.add_document doc_id text categories S)
  = <[doc_id := Z.of_nat (length (InvertedIndex.document_tokens text categories))]>
      (InvertedIndex.doc_lengths S).
Proof.
  unfold InvertedIndex.add_document.
  match goal with |- context [foldl (InvertedIndex.post doc_id) ?S2 ?l] =>
    destruct (InvertedIndexFacts.post_loop doc_id S2 l) as (_ & _ & _ & Hlen)
  end.
  simpl in *. rewrite Hlen.
  unfold InvertedIndex.remove_document.
  destruct (decide (doc_id ∈ dom (InvertedIndex.doc_lengths S))); [|done].
  simpl. by rewrite insert_delete_eq.
Qed.

Lemma add_product_metadata_members product_id categories price_cents E :
  (∀ category, category ∈ categories →
     ∃ members,
       RecommendationEngine.category_matrix
         (snd (RecommendationEngine.add_product_metadata
                 product_id categories price_cents E)) !! Text.lower category
       = Some members
       ∧ product_id ∈ members)
  ∧ (∀ c members x,
       RecommendationEngine.category_matrix E !! c = Some members →
       x ∈ members →
       ∃ members',
         RecommendationEngine.category_matrix
           (snd (RecommendationEngine.add_product_metadata
                   product_id categories price_cents E)) !! c
         = Some members'
         ∧ x ∈ members')
  ∧ (∀ c members x,
       RecommendationEngine.category_matrix
         (snd (RecommendationEngine.add_product_metadata
                 product_id categories price_cents E)) !! c
       = Some members →
       x ∈ members →
       x = product_id
       ∨ ∃ members0,
           RecommendationEngine.category_matrix E !! c = Some members0
           ∧ x ∈ members0).
Proof.
  rewrite !RecommendationFacts.add_product_metadata_categories.
  generalize (RecommendationEngine.category_matrix E). clear E.
  induction categories as [|category categories IH] using rev_ind;
    intros cm; simpl.
  { split; [by intros ? ?%elem_of_nil|]. split; eauto. }
  rewrite foldl_app. simpl.
  destruct (IH cm) as (Hin & Hkeep & Hfrom).
  set (cm' := foldl _ cm categories) in *. clearbody cm'.
  split; [|split].
  - intros c [Hc| ->%list_elem_of_singleton]%elem_of_app.
    + destruct (Hin c Hc) as (ms & Hl & Hp).
      destruct (decide (Text.lower category = Text.lower c)) as [->|Hne].
      * rewrite lookup_insert_eq, Hl. eexists. split; [done|]. set_solver.
      * rewrite lookup_insert_ne by done. eauto.
    + rewrite lookup_insert_eq. eexists. split; [done|]. set_solver.
  - intros c ms x Hl Hx. destruct (Hkeep c ms x Hl Hx) as (ms' & Hl' & Hx').
    destruct (decide (Text.lower category = c)) as [<-|Hne].
    + rewrite lookup_insert_eq, Hl'. eexists. split; [done|]. set_solver.
    + rewrite lookup_insert_ne by done. eauto.
  - intros c ms x. destruct (decide (Text.lower category = c)) as [<-|Hne].
    + rewrite lookup_insert_eq. intros [= <-] [Hx| ->%elem_of_singleton]%elem_of_union;
        [|by left].
      destruct (cm' !! Text.lower category) as [ms0|] eqn:E; simpl in Hx;
        [|by apply not_elem_of_empty in Hx].
      by apply (Hfrom _ ms0).
    + rewrite lookup_insert_ne by done. apply Hfrom.
Qed.

Section More.
Context `{FloatOps} `{SetIter} `{ExistenceFilter}.

(** X16. [index_product] always writes the store.  When the filter
    refuses the id, the answer is 500 and the index, the trie, the filter
    and the engine are as before.  When the filter takes it, the filter
    reports the id, the index holds the document with the length of its
    token list, and each category lists the product; the answer is the
    product id, and the product is the last of its price range, unless
    [price_cents / 100] overflows: then the answer is 500 and the price
    ranges are as before, while the filter, the index and the category
    sets keep what was written. *)
Theorem index_product_effects product st :
  let pid := product_id product in
  let st' := snd (index_product product st) in
  products_store st' = <[pid := product]> (products_store st)
  ∧ search_analytics st' = search_analytics st
  ∧ match bloom_add pid (bloom_filter st) with
    | None =>
        fst (index_product product st) = HTTPException 500
        ∧ inverted_index st' = inverted_index st
        ∧ autocomplete_trie st' = autocomplete_trie st
        ∧ bloom_filter st' = bloom_filter st
        ∧ recommendation_engine st' = recommendation_engine st
    | Some filter =>
        fst (index_product product st)
        = (if RecommendationEngine.dollars_overflow (price_cents product)
           then HTTPException 500 else Ok pid)
        ∧ bloom_filter st' = filter
        ∧ bloom_contains pid (bloom_filter st') = true
        ∧ InvertedIndex.doc_lengths (inverted_index st') !! pid
          = Some (Z.of_nat (length (InvertedIndex.document_tokens
                     (title product +:+ " " +:+ description product)
                     (categories product))))
        ∧ (∀ category, category ∈ categories product →
             ∃ members,
               RecommendationEngine.category_matrix (recommendation_engine st')
                 !! Text.lower category = Some members
               ∧ pid ∈ members)
        ∧ (if RecommendationEngine.dollars_overflow (price_cents product)
           then RecommendationEngine.price_ranges (recommendation_engine st')
                = RecommendationEngine.price_ranges (recommendation_engine st)
           else ∃ range ids,
                  RecommendationEngine.price_range (price_cents product)
                  = Returns range
                  ∧ RecommendationEngine.price_ranges (recommendation_engine st')
                      !! range = Some ids
                  ∧ last ids = Some pid)
    end.
Proof.
  unfold index_product.
  destruct (bloom_add (product_id product) (bloom_filter st)) as [filter|] eqn:Ea;
    cbv zeta;
    cbn [fst snd products_store search_analytics bloom_filter inverted_index
         recommendation_engine autocomplete_trie];
    [|by repeat split].
  split; [done|]. split; [done|]. split.
  { unfold RecommendationEngine.add_product_metadata,
      RecommendationEngine.price_range.
    by destruct (RecommendationEngine.dollars_overflow _). }
  split; [done|]. split; [by eapply bloom_add_contains|]. split.
  { by rewrite add_document_lengths, lookup_insert_eq. }
  split; [apply add_product_metadata_members|].
  unfold RecommendationEngine.add_product_metadata,
    RecommendationEngine.price_range.
  destruct (RecommendationEngine.dollars_overflow _);
    cbn [snd RecommendationEngine.price_ranges]; [done|].
  eexists _, _. split; [done|]. rewrite lookup_insert_eq. split; [done|].
  apply last_snoc.
Qed.

(** *** What is indexed is stored *)

Lemma search_products_state q limit category mn mx st :
  let st' := snd (search_products q limit category mn mx st) in
  inverted_index st' = inverted_index st
  ∧ autocomplete_trie st' = autocomplete_trie st
  ∧ bloom_filter st' = bloom_filter st
  ∧ recommendation_engine st' = recommendation_engine st
  ∧ products_store st' = products_store st.
Proof.
  unfold search_products. destruct (Text.blank q); [done|].
  by destruct (InvertedIndex.search _ _ _).
Qed.

Lemma record_view_categories product_id session_products E :
  RecommendationEngine.category_matrix
    (RecommendationEngine.record_view product_id session_products E)
  = RecommendationEngine.category_matrix E.
Proof.
  unfold RecommendationEngine.record_view. revert E.
  induction session_products as [|x l IH]; intros E; simpl; [done|].
  rewrite IH. unfold RecommendationEngine.view. by case_decide.
Qed.

Lemma record_product_view_state product_id session_products st :
  let st' := record_product_view product_id session_products st in
  inverted_index st' = inverted_index st
  ∧ bloom_filter st' = bloom_filter st
  ∧ products_store st' = products_store st
  ∧ RecommendationEngine.category_matrix (recommendation_engine st')
    = RecommendationEngine.category_matrix (recommendation_engine st).
Proof.
  unfold record_product_view. destruct product_id as [pid|]; [|done].
  destruct session_products; [done|]. case_decide; [done|].
  cbv zeta. cbn [inverted_index bloom_filter products_store recommendation_engine].
  by rewrite record_view_categories.
Qed.

Lemma handle_linked st r : Links.linked st → Links.linked (handle st r).
Proof.
  intros [Hidx Hcat]. unfold Links.linked.
  destruct r as [product|q limit c mn mx|pid sp|]; cbn [handle].
  - unfold index_product.
    destruct (bloom_add (product_id product) (bloom_filter st)) as [filter|] eqn:Ea;
      cbn [snd]; split;
      cbn [products_store bloom_filter inverted_index recommendation_engine].
    + intros pid. rewrite add_document_lengths, dom_insert_L.
      destruct (decide (pid = product_id product)) as [->|Hne].
      * intros _. rewrite lookup_insert_eq. split; [eauto|].
        by eapply bloom_add_contains.
      * intros Hin. assert (pid ∈ dom (InvertedIndex.doc_lengths (inverted_index st)))
          as Hold by set_solver.
        destruct (Hidx pid Hold) as [Hs Hb].
        rewrite lookup_insert_ne by done. split; [done|].
        by eapply bloom_add_mono.
    + intros c0 ms x Hl Hx.
      destruct (decide (x = product_id product)) as [->|Hne];
        [rewrite lookup_insert_eq; eauto|].
      rewrite lookup_insert_ne by done.
      destruct (add_product_metadata_members (product_id product)
                  (categories product) (price_cents product)
                  (recommendation_engine st)) as (_ & _ & Hfrom).
      destruct (Hfrom c0 ms x Hl Hx) as [?|(ms0 & Hl0 & Hx0)]; [done|].
      by eapply Hcat.
    + intros pid Hin. destruct (Hidx pid Hin) as [Hs Hb]. split; [|done].
      destruct (decide (pid = product_id product)) as [->|Hne].
      * rewrite lookup_insert_eq. eauto.
      * by rewrite lookup_insert_ne.
    + intros c0 ms x Hl Hx.
      destruct (decide (x = product_id product)) as [->|Hne].
      * rewrite lookup_insert_eq. eauto.
      * rewrite lookup_insert_ne by done. by eapply Hcat.
  - destruct (search_products_state q limit c mn mx st)
      as (Ha & _ & Hb & Hc & Hd). cbv zeta in *.
    rewrite Ha, Hb, Hc, Hd. by split.
  - destruct (record_product_view_state pid sp st) as (Ha & Hb & Hc & Hd).
    cbv zeta in *. rewrite Ha, Hb, Hc, Hd. by split.
  - split.
    + intros pid Hin. simpl in Hin. by apply not_elem_of_empty in Hin.
    + intros c0 ms x Hl. simpl in Hl. by rewrite lookup_empty in Hl.
Qed.

(** X17. In every reachable state, each document of the index has its
    record in the product store and its id passes the filter, and each
    member of a category set has a record in the store: the handlers
    never meet an indexed id without a product. *)
Theorem indexed_documents_are_stored st :
  reachable st →
  (∀ pid, pid ∈ dom (InvertedIndex.doc_lengths (inverted_index st)) →
     is_Some (products_store st !! pid)
     ∧ bloom_contains pid (bloom_filter st) = true)
  ∧ (∀ c members x,
       RecommendationEngine.category_matrix (recommendation_engine st) !! c
       = Some members →
       x ∈ members → is_Some (products_store st !! x)).
Proof.
  induction 1 as [|st r _ IH]; [|by apply handle_linked].
  split.
  - intros pid Hin. simpl in Hin. by apply not_elem_of_empty in Hin.
  - intros c0 ms x Hl. simpl in Hl. by rewrite lookup_empty in Hl.
Qed.

(** X18. No request but [clear_all_data] takes a product out of a
    category set: a product indexed again under other categories stays
    listed under the old ones. *)
Theorem category_members_stay st r c members x :
  r ≠ ClearAllData →
  RecommendationEngine.category_matrix (recommendation_engine st) !! c
  = Some members →
  x ∈ members →
  ∃ members',
    RecommendationEngine.category_matrix (recommendation_engine (handle st r)) !! c
    = Some members'
    ∧ x ∈ members'.
Proof.
  intros Hr Hl Hx. destruct r as [product|q limit c0 mn mx|pid sp|]; cbn [handle];
    [| | |done].
  - unfold index_product. destruct (bloom_add _ _); cbn [snd recommendation_engine];
      [|eauto].
    by eapply add_product_metadata_members.
  - destruct (search_products_state q limit c0 mn mx st) as (_ & _ & _ & Hd & _).
    cbv zeta in Hd. rewrite Hd. eauto.
  - destruct (record_product_view_state pid sp st) as (_ & _ & _ & Hd).
    cbv zeta in Hd. rewrite Hd. eauto.
Qed.

(** *** The answer of [search_products] *)

Lemma gather_passes store q limit category mn mx search_results :
  ∀ results0 r,
    r ∈ gather store q limit category mn mx search_results results0 →
    r ∈ results0
    ∨ ∃ pid product,
        store !! pid = Some product
        ∧ r = to_result product
                (calculate_relevance_score product (Text.tokenize q))
        ∧ category_rejects category product = false
        ∧ min_price_rejects mn product = false
        ∧ max_price_rejects mx product = false.
Proof.
  induction search_results as [|[pid score] rest IH]; intros results0 r; simpl;
    [by left|].
  destruct (store !! pid) as [product|] eqn:Es; [|apply IH].
  destruct (category_rejects category product) eqn:Ec; [apply IH|].
  destruct (min_price_rejects mn product) eqn:Emn; [apply IH|].
  destruct (max_price_rejects mx product) eqn:Emx; [apply IH|].
  assert (∀ r, r ∈ (results0 ++ [to_result product
             (calculate_relevance_score product (Text.tokenize q))])%list →
          r ∈ results0 ∨ ∃ pid product, store !! pid = Some product
            ∧ r = to_result product
                    (calculate_relevance_score product (Text.tokenize q))
            ∧ category_rejects category product = false
            ∧ min_price_rejects mn product = false
            ∧ max_price_rejects mx product = false)
    as Hnew.
  { intros r' [?| ->%list_elem_of_singleton]%elem_of_app; [by left|].
    right. exists pid, product. by repeat split. }
  destruct (limit <=? _); [apply Hnew|].
  intros [Hr|Hr]%IH; [by apply Hnew | by right].
Qed.

Lemma gather_length store q limit category mn mx search_results :
  ∀ results0,
    Z.of_nat (length (gather store q limit category mn mx search_results results0))
    ≤ Z.max (Z.of_nat (length results0) + 1) limit.
Proof.
  induction search_results as [|[pid score] rest IH]; intros results0; simpl;
    [lia|].
  destruct (store !! pid) as [product|]; [|apply IH].
  destruct (category_rejects category product); [apply IH|].
  destruct (min_price_rejects mn product); [apply IH|].
  destruct (max_price_rejects mx product); [apply IH|].
  match goal with |- context [limit <=? ?n] => destruct (Z.leb_spec limit n) end.
  - rewrite length_app. simpl. lia.
  - etrans; [apply IH|]. rewrite length_app in *. simpl in *. lia.
Qed.

(** The body of the answer on a reachable state, for a query that is not
    blank. *)
Lemma search_products_body q limit category mn mx st :
  reachable st → Text.blank q = false →
  ∃ search_results st',
    InvertedIndex.search (inverted_index st) q (limit * 2) = Returns search_results
    ∧ search_products q limit category mn mx st
      = (Ok {| results :=
                 sort_desc Qltb SearchResult.score
                   (gather (products_store st) q limit category mn mx
                           search_results []);
               total :=
                 Z.of_nat (length
                   (sort_desc Qltb SearchResult.score
                      (gather (products_store st) q limit category mn mx
                              search_results [])));
               query := q;
               filters := Some (category, mn, mx) |}, st').
Proof.
  intros [D HD]%reachable_index Hq. unfold search_products. rewrite Hq.
  destruct (SearchFacts.search_tracked _ D q (limit * 2) HD)
    as (search_results & Hs & _).
  rewrite Hs. eauto.
Qed.

(** X19. On a reachable state [search_products] answers with [total]
    equal to the number of results, and with at most [limit] results for
    [limit >= 1]. *)
Theorem search_products_count q limit category mn mx st :
  reachable st →
  ∃ body st',
    search_products q limit category mn mx st = (Ok body, st')
    ∧ total body = Z.of_nat (length (results body))
    ∧ total body ≤ Z.max 1 limit.
Proof.
  intros Hr. destruct (Text.blank q) eqn:Hq.
  { unfold search_products. rewrite Hq. do 2 eexists. split; [done|].
    simpl. lia. }
  destruct (search_products_body q limit category mn mx st Hr Hq)
    as (sr & st' & _ & ->).
  do 2 eexists. split; [done|]. simpl. split; [done|].
  rewrite sort_desc_length.
  pose proof (gather_length (products_store st) q limit category mn mx sr []).
  simpl in *. lia.
Qed.

(** X20. Every result [search_products] returns passed the filters that
    are switched on: its price is at least a [min_price] other than 0 and
    at most a [max_price] other than 0, and a category filter that is
    not empty names one of the categories of the stored product, up to
    case. *)
Theorem search_results_pass_filters q limit category mn mx st r :
  reachable st →
  ∃ body st',
    search_products q limit category mn mx st = (Ok body, st')
    ∧ (r ∈ results body →
       (∀ m, mn = Some m → m ≠ 0 → m ≤ SearchResult.price_cents r)
       ∧ (∀ m, mx = Some m → m ≠ 0 → SearchResult.price_cents r ≤ m)
       ∧ (∀ c, category = Some c → c ≠ "" →
            ∃ pid product,
              products_store st !! pid = Some product
              ∧ r = to_result product (SearchResult.score r)
              ∧ Text.lower c ∈ map Text.lower (categories product))).
Proof.
  intros Hr. destruct (Text.blank q) eqn:Hq.
  { unfold search_products. rewrite Hq. do 2 eexists. split; [done|].
    simpl. by intros ?%elem_of_nil. }
  destruct (search_products_body q limit category mn mx st Hr Hq)
    as (sr & st' & _ & ->).
  do 2 eexists. split; [done|]. simpl. intros Hin%sort_desc_elem.
  apply gather_passes in Hin
    as [[]%elem_of_nil | (pid & product & Hs & -> & Hc & Hmn & Hmx)].
  split; [|split].
  - intros m -> Hm. simpl in *. destruct m; [done| |];
      by apply Z.ltb_ge in Hmn.
  - intros m -> Hm. simpl in *. destruct m; [done| |];
      by apply Z.ltb_ge in Hmx.
  - intros c -> Hc0. exists pid, product. split; [done|]. split; [done|].
    destruct c as [|a c]; [done|]. simpl in Hc.
    apply negb_false_iff, bool_decide_eq_true in Hc. done.
Qed.

End More.
End ServiceMore.

(** ** Search analytics and reset *)

Module AnalyticsFacts.
Import Service Analytics.

Lemma foldl_add_shift (a : Z) (l : list Z) : foldl Z.add a l = a + foldl Z.add 0 l.
Proof.
  revert a. induction l as [|x l IH]; intros a; simpl; [lia|].
  rewrite (IH (a + x)), (IH (0 + x)). lia.
Qed.

Lemma sum_values_cons k v items :
  sum_values ((k, v) :: items) = v + sum_values items.
Proof. unfold sum_values. simpl. apply foldl_add_shift. Qed.

Lemma sum_values_perm items items' :
  items ≡ₚ items' → sum_values items = sum_values items'.
Proof.
  induction 1 as [|[k v] l l' _ IH|[k v] [k' v'] l|l l' l'' _ IH1 _ IH2].
  - done.
  - by rewrite !sum_values_cons, IH.
  - rewrite !sum_values_cons. lia.
  - by rewrite IH1.
Qed.

(** Counting one more search under a query. *)
Lemma sum_values_bump (m : gmap string Z) key :
  sum_values (map_to_list (<[key := default 0 (m !! key) + 1]> m))
  = sum_values (map_to_list m) + 1.
Proof.
  destruct (m !! key) as [v|] eqn:E; simpl.
  - rewrite <- (insert_delete_eq m).
    rewrite (sum_values_perm _ _ (map_to_list_insert _ _ _ (lookup_delete_eq m key))).
    rewrite <- (sum_values_perm _ _ (map_to_list_delete m key v E)).
    rewrite !sum_values_cons. lia.
  - rewrite (sum_values_perm _ _ (map_to_list_insert _ _ _ E)).
    rewrite sum_values_cons. lia.
Qed.

Lemma sorted_app_le (l1 l2 : list (string * Z)) :
  StronglySorted (λ a b, b.2 ≤ a.2) (l1 ++ l2) →
  ∀ x y, x ∈ l1 → y ∈ l2 → y.2 ≤ x.2.
Proof.
  induction l1 as [|a l1 IH]; intros Hs x y Hx Hy; [by apply elem_of_nil in Hx|].
  simpl in Hs. apply StronglySorted_inv in Hs as [Hs Ha].
  apply elem_of_cons in Hx as [->|Hx]; [|by apply IH].
  rewrite List.Forall_forall in Ha. apply Ha, list_elem_of_In, elem_of_app.
  by right.
Qed.

Section Facts.
Context `{FloatOps} `{SetIter} `{ExistenceFilter} `{DictIter}.

Lemma total_searches_handle st r :
  total_searches (get_search_analytics (handle st r))
  = counted (total_searches (get_search_analytics st)) r.
Proof.
  unfold get_search_analytics. cbn [total_searches].
  rewrite !(sum_values_perm _ _ (dict_order_perm _)).
  destruct r as [product|q limit c mn mx|pid sp|]; cbn [handle counted].
  - unfold index_product. by destruct (bloom_add _ _).
  - unfold search_products. destruct (Text.blank q); [done|].
    destruct (InvertedIndex.search _ _ _); cbn [snd search_analytics];
      apply sum_values_bump.
  - unfold record_product_view. destruct pid as [pid|]; [|done].
    destruct sp; [done|]. by case_decide.
  - done.
Qed.

(** X21. [total_searches] of the analytics report is the number of
    search requests with a query that is not blank since the service
    started or was last cleared; blank queries are not counted. *)
Theorem total_searches_counts_requests rs :
  total_searches (get_search_analytics (run rs)) = searches_since_clear rs.
Proof.
  unfold run, searches_since_clear.
  induction rs as [|r rs IH] using rev_ind.
  - unfold get_search_analytics. cbn [total_searches].
    rewrite (sum_values_perm _ _ (dict_order_perm _)). simpl.
    by rewrite map_to_list_empty.
  - rewrite !foldl_app. cbn [foldl]. by rewrite total_searches_handle, IH.
Qed.

(** X22. [top_searches] holds at most 20 entries, each a recorded query
    with its count, in descending order of count, and no query that was
    left out has a higher count than one that is listed. *)
Theorem top_searches_are_the_most_searched st :
  let top := top_searches (get_search_analytics st) in
  (length top ≤ 20)%nat
  ∧ StronglySorted (λ a b, b.2 ≤ a.2) top
  ∧ (∀ q count, (q, count) ∈ top → search_analytics st !! q = Some count)
  ∧ (∀ q count q' count',
       (q, count) ∈ top →
       search_analytics st !! q' = Some count' →
       (q', count') ∉ top →
       count' ≤ count).
Proof.
  unfold get_search_analytics. cbn [top_searches]. cbv zeta.
  set (sorted := sort_desc Z.ltb snd (dict_order (search_analytics st))).
  assert (∀ e, e ∈ sorted ↔ search_analytics st !! e.1 = Some e.2) as Helem.
  { intros [q c]. subst sorted.
    by rewrite sort_desc_elem, dict_order_perm, elem_of_map_to_list. }
  pose proof (sort_desc_Z_sorted snd (dict_order (search_analytics st))) as Hs.
  fold sorted in Hs.
  rewrite slice_to_nonneg by lia. change (Z.to_nat 20) with 20%nat.
  rewrite <- (firstn_skipn 20 sorted) in Hs.
  split; [rewrite length_firstn; lia|]. split; [|split].
  - clear -Hs. revert Hs. generalize (firstn 20 sorted) (skipn 20 sorted).
    intros l1 l2. induction l1 as [|a l1 IH]; simpl; [constructor|].
    intros [Hs Ha]%StronglySorted_inv. constructor; [by apply IH|].
    rewrite List.Forall_forall in *. intros y Hy. apply Ha, in_or_app. by left.
  - intros q c Hin%firstn_elem. by apply (Helem (q, c)).
  - intros q c q' c' Hin Hl Hout.
    assert ((q', c') ∈ sorted) as Hin' by by apply (Helem (q', c')).
    rewrite <- (firstn_skipn 20 sorted) in Hin'.
    apply elem_of_app in Hin' as [?|Hrest]; [done|].
    apply (sorted_app_le _ _ Hs (q, c) (q', c') Hin Hrest).
Qed.

Lemma score_token_init doc_scores token :
  InvertedIndex.score_token InvertedIndex.init doc_scores token
  = Returns doc_scores.
Proof. unfold InvertedIndex.score_token. cbn [InvertedIndex.index InvertedIndex.init]. by rewrite lookup_empty. Qed.

(** The searches of a new service find nothing. *)
Lemma search_init query limit :
  InvertedIndex.search InvertedIndex.init query limit = Returns [].
Proof.
  unfold InvertedIndex.search. destruct (Text.blank query); [done|].
  destruct (Text.tokenize query) as [|t0 ts]; [done|].
  assert (for_each (InvertedIndex.score_token InvertedIndex.init) [] (t0 :: ts)
          = Returns []) as ->.
  { generalize (t0 :: ts). intros l. induction l as [|t l IH]; [done|].
    cbn [for_each]. by rewrite score_token_init. }
  simpl. by rewrite slice_to_nil.
Qed.

(** X23. After [clear_all_data], whatever the state was, a search
    returns no result, autocomplete answers with no suggestion,
    recommendations are answered 404 for every id, and the count of
    searches is 0. *)
Theorem clear_all_data_forgets `{CallStack} st q limit category mn mx pid :
  (∃ body st',
     search_products q limit category mn mx (clear_all_data st) = (Ok body, st')
     ∧ results body = [] ∧ total body = 0)
  ∧ autocomplete q limit (clear_all_data st) = Ok []
  ∧ get_recommendations pid limit (clear_all_data st) = HTTPException 404
  ∧ total_searches (get_search_analytics (clear_all_data st)) = 0.
Proof.
  unfold clear_all_data. split; [|split; [|split]].
  - unfold search_products. destruct (Text.blank q); [by do 2 eexists|].
    cbn [inverted_index init]. rewrite search_init.
    by do 2 eexists.
  - unfold autocomplete. destruct (_ <? 2); [done|].
    cbn [autocomplete_trie init]. by destruct q.
  - exact (ServiceFacts.cleared_not_found st pid limit).
  - unfold get_search_analytics. cbn [total_searches].
    rewrite (sum_values_perm _ _ (dict_order_perm _)). simpl.
    by rewrite map_to_list_empty.
Qed.

End Facts.
End AnalyticsFacts.

(** ** The further properties on sample data *)

Lemma index_determined_by_documents_witness :
  HistorySample.shoes_index_again = Sample.shoes_index.
Proof.
  apply (IndexMore.index_determined_by_documents _ _ Sample.shoes_docs).
  - assert (delete "P3"
              (<["P1" := InvertedIndex.document_tokens "Red Running Shoes" ["Shoes"]]>
                 (<["P3" := InvertedIndex.document_tokens "Green Trail Shoes" ["Outdoor"]]>
                    (<["P2" := InvertedIndex.document_tokens "Blue Hiking Boots" ["Shoes"]]>
                       ∅)))
            = Sample.shoes_docs) as <- by (vm_compute; reflexivity).
    repeat constructor.
  - apply shoes_index_tracked.
Defined.

Lemma doc_freq_bounds_witness :
  1 ≤ 2 ≤ InvertedIndex.total_docs Sample.shoes_index.
Proof.
  apply (IndexMore.doc_freq_bounds Sample.shoes_index "category:shoes" 2).
  - exists Sample.shoes_docs. apply shoes_index_tracked.
  - vm_compute. reflexivity.
Defined.

Lemma tokens_are_lower_alnum_witness : TokenShape.token_ok "x1" = true.
Proof.
  apply (TextFacts.tokens_are_lower_alnum "Red Running-Shoes 2nd_gen x1" "x1").
  change (Text.tokenize "Red Running-Shoes 2nd_gen x1")
    with ["red"; "running"; "shoes"; "x1"].
  repeat constructor.
Defined.

Lemma search_ids_distinct_witness :
  ∃ results,
    InvertedIndex.search Sample.shoes_index "red shoes" 10 = Returns results
    ∧ NoDup results.*1.
Proof.
  apply (SearchMore.search_ids_distinct Sample.shoes_index Sample.shoes_docs).
  apply shoes_index_tracked.
Defined.

Lemma search_finds_every_match_witness :
  ∃ results score,
    InvertedIndex.search Sample.shoes_index "hiking shoes" 2 = Returns results
    ∧ ("P2", score) ∈ results.
Proof.
  apply (SearchMore.search_finds_every_match
           Sample.shoes_index Sample.shoes_docs "hiking shoes" 2 "P2"
           ["blue"; "hiking"; "boots"; "category:shoes"] "hiking").
  - apply shoes_index_tracked.
  - vm_compute. reflexivity.
  - repeat constructor.
  - change (Text.tokenize "hiking shoes") with ["hiking"; "shoes"]. constructor.
  - by vm_compute.
Defined.

Lemma tie_trie_reachable : AutocompleteTrie.reachable TrieSample.tie_trie.
Proof. repeat constructor. Qed.

Lemma collect_words_lists_words_witness :
  (∃ listed,
     AutocompleteTrie.collect_words 3 TrieSample.tie_trie "" [] = Returns listed
     ∧ (("cb", 1) ∈ listed
        ↔ TrieLookup.word_frequency TrieSample.tie_trie "cb" = Some 1))
  ∧ AutocompleteTrie.collect_words 2 TrieSample.tie_trie "" []
    = Raises RecursionError.
Proof.
  destruct (TrieMore.collect_words_lists_words 3 TrieSample.tie_trie []
              tie_trie_reachable) as [Hfits _].
  destruct (TrieMore.collect_words_lists_words 2 TrieSample.tie_trie []
              tie_trie_reachable) as [_ Hdeep].
  split.
  - destruct Hfits as (listed & Hrun & Hlisted).
    + split; [lia|]. intros word f Hf.
      destruct word as [|c1 [|c2 [|c3 word]]]; simpl; try lia.
      exfalso. revert Hf. unfold TrieLookup.word_frequency.
      cbn [AutocompleteTrie.descend]. vm_compute (AutocompleteTrie.children _).
      cbn [AutocompleteTrie.child].
      destruct (decide (c1 = "c"%char)); [|done].
      cbn [AutocompleteTrie.children AutocompleteTrie.child].
      destruct (decide (c2 = "b"%char));
        [|destruct (decide (c2 = "a"%char)); [|done]];
        cbn [AutocompleteTrie.children AutocompleteTrie.child]; done.
    + exists listed. split; [exact Hrun | apply Hlisted].
  - apply Hdeep. intros [_ Hshort].
    specialize (Hshort "cb" 1 eq_refl). simpl in Hshort. lia.
Defined.

Lemma suggestions_extend_prefix_witness :
  (0 ≤ 5 → Z.of_nat (length ["cb"; "ca"]) ≤ 5)
  ∧ ∀ s, s ∈ ["cb"; "ca"] → String.prefix (Text.lower "C") s = true.
Proof.
  apply (TrieMore.suggestions_extend_prefix TrieSample.tie_trie "C" 5).
  vm_compute. reflexivity.
Defined.

Lemma inserted_word_is_suggested_witness :
  (∃ suggestions,
     AutocompleteTrie.search_prefix
       (AutocompleteTrie.insert "Camera" 1 TrieSample.tie_trie) "CA" 5
     = Returns suggestions
     ∧ Text.lower "Camera" ∈ suggestions)
  ∧ @AutocompleteTrie.search_prefix shallow_stack
      (AutocompleteTrie.insert "Camera" 1 TrieSample.tie_trie) "CA" 5
    = Raises RecursionError.
Proof.
  split.
  - apply (TrieMore.inserted_word_is_suggested
             TrieSample.tie_trie "Camera" 1 "CA" 5).
    + apply tie_trie_reachable.
    + discriminate.
    + reflexivity.
    + by vm_compute.
    + intros e He.
      apply (proj1 (Forall_forall
                      (λ e : string * Z, (String.length e.1 < 902)%nat)
                      [("ca", 1); ("camera", 1)])); [|exact He].
      repeat constructor; simpl; lia.
  - apply (@TrieMore.inserted_word_is_suggested shallow_stack
             TrieSample.tie_trie "Camera" 1 "CA" 5).
    + apply tie_trie_reachable.
    + discriminate.
    + reflexivity.
    + by vm_compute.
    + simpl. lia.
Defined.

Lemma suggestions_distinct_witness : NoDup ["cb"; "ca"].
Proof.
  apply (TrieMore.suggestions_distinct TrieSample.tie_trie "c" 5).
  - apply tie_trie_reachable.
  - vm_compute. reflexivity.
Defined.

(** A word of 1200 letters can be inserted, and a server with the default
    limit cannot list it. *)
Example long_word_is_not_suggested :
  AutocompleteTrie.search_prefix
    (AutocompleteTrie.insert (TrieSample.long_word 1200) 1
                             AutocompleteTrie.empty_node) "aa" 5
  = Raises RecursionError.
Proof. vm_compute. reflexivity. Qed.

(** A price of 10^400 cents: the request is answered 500 once the
    filter, the index and the category set are written, the price ranges
    stay empty, and the recommendations handler knows the product. *)
Example priceless_is_refused_but_indexed :
  fst (Service.index_product Catalog.priceless Service.init)
  = Service.HTTPException 500
  ∧ (let st := snd (Service.index_product Catalog.priceless Service.init) in
     bloom_contains "P4" (Service.bloom_filter st) = true
     ∧ InvertedIndex.doc_lengths (Service.inverted_index st) !! "P4" = Some 3
     ∧ RecommendationEngine.category_matrix (Service.recommendation_engine st)
         !! "jewels" = Some {["P4"]}
     ∧ RecommendationEngine.price_ranges (Service.recommendation_engine st) = ∅
     ∧ Service.get_recommendations "P4" 5 st
       = Service.Ok {| Service.product_ids := []; Service.reason := "" |}).
Proof. vm_compute. repeat split. Qed.

Lemma recommendations_come_from_views_or_categories_witness :
  (∃ counter count,
     RecommendationEngine.view_matrix EngineSample.books_engine !! "A"
     = Some counter
     ∧ ("B", count) ∈ counter)
  ∨ (∃ product category members,
       EngineSample.books_store !! "A" = Some product
       ∧ category ∈ categories product
       ∧ RecommendationEngine.category_matrix EngineSample.books_engine
           !! Text.lower category = Some members
       ∧ "B" ∈ members).
Proof.
  apply (EngineMore.recommendations_come_from_views_or_categories
           EngineSample.books_engine EngineSample.books_store "A" 3 "B").
  vm_compute. constructor.
Defined.

Lemma indexed_documents_are_stored_witness :
  (∀ pid,
     pid ∈ dom (InvertedIndex.doc_lengths
                  (Service.inverted_index ServiceSample.shoes_service)) →
     is_Some (Service.products_store ServiceSample.shoes_service !! pid)
     ∧ bloom_contains pid (Service.bloom_filter ServiceSample.shoes_service)
       = true)
  ∧ (∀ c members x,
       RecommendationEngine.category_matrix
         (Service.recommendation_engine ServiceSample.shoes_service) !! c
       = Some members →
       x ∈ members →
       is_Some (Service.products_store ServiceSample.shoes_service !! x)).
Proof.
  apply (ServiceMore.indexed_documents_are_stored ServiceSample.shoes_service).
  apply shoes_service_reachable.
Defined.

Lemma category_members_stay_witness :
  ∃ members',
    RecommendationEngine.category_matrix
      (Service.recommendation_engine
         (Service.handle StaleSample.first_index
                         (Service.IndexProduct StaleSample.toy_a)))
      !! "books"
    = Some members'
    ∧ "A" ∈ members'.
Proof.
  apply (ServiceMore.category_members_stay
           StaleSample.first_index (Service.IndexProduct StaleSample.toy_a)
           "books" {[ "A" ]} "A").
  - discriminate.
  - vm_compute. reflexivity.
  - by apply elem_of_singleton.
Defined.

(** A, indexed again under "Toys" only, is still recommended to B as a
    product of "Books". *)
Example stale_category_member_is_recommended :
  Service.get_recommendations "B" 1 StaleSample.reindexed
  = Service.Ok {| Service.product_ids := ["A"];
                  Service.reason := "similar products in Books" |}
  ∧ categories <$> (Service.products_store StaleSample.reindexed !! "A")
    = Some ["Toys"].
Proof. vm_compute. split; reflexivity. Qed.

Lemma search_products_count_witness :
  ∃ body st',
    Service.search_products "red shoes" 10 None None None
                            ServiceSample.shoes_service
    = (Service.Ok body, st')
    ∧ Service.total body = Z.of_nat (length (Service.results body))
    ∧ Service.total body ≤ Z.max 1 10.
Proof.
  apply (ServiceMore.search_products_count "red shoes" 10 None None None
           ServiceSample.shoes_service).
  apply shoes_service_reachable.
Defined.

Lemma search_results_pass_filters_witness :
  let r := Service.to_result Catalog.shoes_p1 (17 # 2) in
  ∃ body st',
    Service.search_products "red shoes" 10 (Some "SHOES") (Some 4000) (Some 5000)
                            ServiceSample.shoes_service
    = (Service.Ok body, st')
    ∧ (r ∈ Service.results body →
       (∀ m, Some 4000 = Some m → m ≠ 0 → m ≤ SearchResult.price_cents r)
       ∧ (∀ m, Some 5000 = Some m → m ≠ 0 → SearchResult.price_cents r ≤ m)
       ∧ (∀ c, Some "SHOES" = Some c → c ≠ "" →
            ∃ pid product,
              Service.products_store ServiceSample.shoes_service !! pid
              = Some product
              ∧ r = Service.to_result product (SearchResult.score r)
              ∧ Text.lower c ∈ map Text.lower (categories product))).
Proof.
  apply (ServiceMore.search_results_pass_filters
           "red shoes" 10 (Some "SHOES") (Some 4000) (Some 5000)
           ServiceSample.shoes_service
           (Service.to_result Catalog.shoes_p1 (17 # 2))).
  apply shoes_service_reachable.
Defined.

(** The filtered search of the witness does return the product. *)
Example filtered_search_returns_p1 :
  Service.results <$>
    (match fst (Service.search_products "red shoes" 10 (Some "SHOES")
                  (Some 4000) (Some 5000) ServiceSample.shoes_service) with
     | Service.Ok body => Some body
     | _ => None
     end)
  = Some [Service.to_result Catalog.shoes_p1 (17 # 2)].
Proof. vm_compute. reflexivity. Qed.

(** Three searches, one of them blank, one before a reset. *)
Example total_searches_sample :
  Analytics.total_searches
    (Analytics.get_search_analytics
       (Service.run [Service.SearchProducts "old" 5 None None None;
                     Service.ClearAllData;
                     Service.SearchProducts "Shoes" 5 None None None;
                     Service.SearchProducts "   " 5 None None None;
                     Service.SearchProducts "shoes" 5 None None None]))
  = 2.
Proof. vm_compute. reflexivity. Qed.

(** ** Removing, replacing and indexing again *)

Module ReplaceFacts.
Import InvertedIndex InvertedIndexFacts.

Section Replace.
Context `{FloatOps} `{SetIter}.

(** X24. A document that was removed is never returned: on a tracked
    index, [search] after [remove_document(x)] returns, and [x] is not
    among the results. *)
Theorem removed_document_not_found S D doc_id query limit :
  tracks S D →
  ∃ results,
    search (remove_document doc_id S) query limit = Returns results
    ∧ ∀ score, (doc_id, score) ∉ results.
Proof.
  intros HD.
  destruct (SearchFacts.search_tracked (remove_document doc_id S)
              (delete doc_id D) query limit) as (results & Hs & _ & Hcand & _).
  { by constructor. }
  exists results. split; [done|]. intros score Hin.
  destruct (Hcand _ _ Hin) as (tokens & t & Hl & _).
  by rewrite lookup_delete_eq in Hl.
Qed.

(** X25. [add_document] replaces: after a document is added again under
    the same id, a query none of whose tokens is in the new token list
    does not return it, whatever the old text was. *)
Theorem replaced_document_found_by_new_text_only
    S D doc_id text categories query limit :
  tracks S D →
  (∀ t, t ∈ Text.tokenize query → t ∉ document_tokens text categories) →
  ∃ results,
    search (add_document doc_id text categories S) query limit = Returns results
    ∧ ∀ score, (doc_id, score) ∉ results.
Proof.
  intros HD Hq.
  destruct (SearchFacts.search_tracked (add_document doc_id text categories S)
              (<[doc_id := document_tokens text categories]> D) query limit)
    as (results & Hs & _ & Hcand & _).
  { by constructor. }
  exists results. split; [done|]. intros score Hin.
  destruct (Hcand _ _ Hin) as (tokens & t & Hl & Ht & Htq).
  rewrite lookup_insert_eq in Hl. injection Hl as <-. by apply (Hq t).
Qed.

(** X26. Adding the same document twice in a row is adding it once: the
    second [add_document] leaves a reachable index as it is. *)
Theorem add_document_twice S doc_id text categories :
  reachable S →
  add_document doc_id text categories (add_document doc_id text categories S)
  = add_document doc_id text categories S.
Proof.
  intros [D HD].
  apply (IndexMore.inv_determines _ _
           (<[doc_id := document_tokens text categories]> D)).
  - rewrite <- (insert_insert_eq D doc_id (document_tokens text categories)
                  (document_tokens text categories)).
    apply tracks_inv. by do 2 constructor.
  - apply tracks_inv. by constructor.
Qed.

End Replace.
End ReplaceFacts.

(** ** Autocomplete and the query log *)

Module HandlerMore.
Import Service.

Section More.
Context `{FloatOps} `{SetIter} `{ExistenceFilter}.

Lemma handle_trie st r :
  AutocompleteTrie.reachable (autocomplete_trie st) →
  AutocompleteTrie.reachable (autocomplete_trie (handle st r)).
Proof.
  intros Ht. destruct r as [product|q limit c mn mx|pid sp|]; cbn [handle].
  - unfold index_product. destruct (bloom_add _ _); cbn [snd autocomplete_trie];
      [|done].
    assert (∀ (l : list string) tr, AutocompleteTrie.reachable tr →
              AutocompleteTrie.reachable
                (foldl (λ tr token,
                          if 2 <? Z.of_nat (String.length token)
                          then AutocompleteTrie.insert token 1 tr else tr) tr l))
      as Htok.
    { induction l as [|t l IH]; intros tr Htr; simpl; [done|].
      apply IH. destruct (2 <? _); [by constructor | done]. }
    assert (∀ (l : list string) tr, AutocompleteTrie.reachable tr →
              AutocompleteTrie.reachable
                (foldl (λ tr category, AutocompleteTrie.insert category 1 tr) tr l))
      as Hcat.
    { induction l as [|t l IH]; intros tr Htr; simpl; [done|].
      apply IH. by constructor. }
    by apply Hcat, Htok.
  - destruct (ServiceMore.search_products_state q limit c mn mx st)
      as (_ & Hb & _). cbv zeta in Hb. by rewrite Hb.
  - unfold record_product_view. destruct pid as [pid|]; [|done].
    destruct sp; [done|]. by case_decide.
  - constructor.
Qed.

Lemma reachable_trie st :
  reachable st → AutocompleteTrie.reachable (autocomplete_trie st).
Proof. induction 1; [constructor | by apply handle_trie]. Qed.

(** X27. When the autocomplete handler answers with suggestions, there
    is none for a query shorter than two characters once stripped, every
    suggestion starts with the lower-cased query as it was sent, blanks
    included, and on a reachable state no word is suggested twice.  Its
    only other answer is 500; on a reachable state it is given when a
    word of the trie that starts with the query has as many letters
    after it as calls can still nest, or more. *)
Theorem autocomplete_suggestions `{CallStack} q limit st :
  match autocomplete q limit st with
  | Ok suggestions =>
      (∀ s, s ∈ suggestions →
            2 ≤ Z.of_nat (String.length (Text.strip q))
            ∧ String.prefix (Text.lower q) s = true)
      ∧ (reachable st → NoDup suggestions)
  | HTTPException code =>
      code = 500
      ∧ 2 ≤ Z.of_nat (String.length (Text.strip q))
      ∧ (reachable st →
         ∃ e, e ∈ AutocompleteTrie.words_with_prefix (autocomplete_trie st)
                    (Text.lower q)
              ∧ (frames_left + String.length q ≤ String.length e.1)%nat)
  end.
Proof.
  unfold autocomplete.
  destruct (Z.ltb_spec (Z.of_nat (String.length (Text.strip q))) 2).
  { split; [by intros s ?%elem_of_nil | intros _; apply NoDup_nil_2]. }
  destruct (AutocompleteTrie.search_prefix _ q limit) as [suggestions|e] eqn:Es.
  - apply TrieFacts.search_prefix_returns in Es as ->.
    destruct q as [|c q].
    { split; [by intros s ?%elem_of_nil | intros _; apply NoDup_nil_2]. }
    split.
    + intros s Hs. split; [done|]. by eapply TrieMore.ranked_below_prefix.
    + intros Hr%reachable_trie%TrieFacts.reachable_wf.
      by apply TrieMore.ranked_below_NoDup.
  - split; [done|]. split; [done|]. intros Hr%reachable_trie.
    by destruct (TrieFacts.search_prefix_raises _ q limit e Hr Es).
Qed.

Lemma handle_logged st r :
  dom (search_analytics (handle st r))
  = QueryLog.logged (dom (search_analytics st)) r.
Proof.
  destruct r as [product|q limit c mn mx|pid sp|]; cbn [handle QueryLog.logged].
  - unfold index_product. by destruct (bloom_add _ _).
  - unfold search_products. destruct (Text.blank q); [done|].
    destruct (InvertedIndex.search _ _ _); cbn [snd search_analytics];
      rewrite dom_insert_L; set_solver.
  - unfold record_product_view. destruct pid as [pid|]; [|done].
    destruct sp; [done|]. by case_decide.
  - apply dom_empty_L.
Qed.

(** X28. [unique_queries] of the analytics report is the number of
    different queries, compared without case and blank ones left out,
    searched since the service started or was last cleared. *)
Theorem unique_queries_counts_queries `{DictIter} rs :
  Analytics.unique_queries (Analytics.get_search_analytics (run rs))
  = Z.of_nat (size (QueryLog.queries_since_clear rs)).
Proof.
  unfold Analytics.get_search_analytics. cbn [Analytics.unique_queries].
  rewrite <- size_dom. do 2 f_equal.
  unfold run, QueryLog.queries_since_clear.
  induction rs as [|r rs IH] using rev_ind; [apply dom_empty_L|].
  rewrite !foldl_app. cbn [foldl]. by rewrite handle_logged, IH.
Qed.

End More.
End HandlerMore.

Lemma removed_document_not_found_witness :
  ∃ results,
    InvertedIndex.search (InvertedIndex.remove_document "P1" Sample.shoes_index)
                         "red shoes" 10
    = Returns results
    ∧ ∀ score, ("P1", score) ∉ results.
Proof.
  apply (ReplaceFacts.removed_document_not_found
           Sample.shoes_index Sample.shoes_docs "P1" "red shoes" 10).
  apply shoes_index_tracked.
Defined.

Lemma replaced_document_found_by_new_text_only_witness :
  ∃ results,
    InvertedIndex.search
      (InvertedIndex.add_document "P1" "Beta" [] Sample.shoes_index) "red" 10
    = Returns results
    ∧ ∀ score, ("P1", score) ∉ results.
Proof.
  apply (ReplaceFacts.replaced_document_found_by_new_text_only
           Sample.shoes_index Sample.shoes_docs "P1" "Beta" [] "red" 10).
  - apply shoes_index_tracked.
  - change (Text.tokenize "red") with ["red"].
    change (InvertedIndex.document_tokens "Beta" []) with ["beta"].
    intros t ->%list_elem_of_singleton Hin%list_elem_of_singleton.
    discriminate Hin.
Defined.

Lemma add_document_twice_witness :
  InvertedIndex.add_document "P1" "Red Running Shoes" ["Shoes"]
    (InvertedIndex.add_document "P1" "Red Running Shoes" ["Shoes"]
       Sample.twin_index)
  = InvertedIndex.add_document "P1" "Red Running Shoes" ["Shoes"]
      Sample.twin_index.
Proof.
  apply ReplaceFacts.add_document_twice.
  eexists. repeat constructor.
Defined.
